(** * Texture atlas allocation and block-face synthesis (blockset.js)

    A shallow embedding of [Texgen] (the tile allocator of the block
    texture atlas), of [rebuildOne] (the slicing of a block type into
    textured faces), of the rotation helpers and of the part of
    [BlockSet] that fixes the tile size, followed by the properties that
    the design document states about them. *)

From stdpp Require Import gmap strings list pretty list_numbers.
From Stdlib Require Import ZArith Lia QArith Qround.

Local Open Scope Z_scope.

(** ** JavaScript numbers

    Texture coordinates, vertex positions and colours are IEEE doubles in
    the source.  Nothing below depends on how they round, so the number
    type and its operations are an interface.  Integers that the source
    uses as sizes, indices and voxel coordinates are [Z] or [nat]. *)

Class JSNum (num : Type) := {
  of_Z : Z → num;                 (* an integer literal or integer-valued variable *)
  nadd : num → num → num;         (* a + b *)
  nmul : num → num → num;         (* a * b *)
  ndiv : num → num → num;         (* a / b *)
  to_byte : num → Z;              (* the byte an ImageData array keeps when the number is stored *)
  nundef : num                    (* what reading past the end of an array yields *)
}.

(** ** ImageData

    [data] is the byte array of an ImageData of [width] x [height] RGBA
    pixels: index -> byte, all zero when created.  A store outside
    [0, 4*width*height) is dropped, a load outside it yields undefined,
    which is 0 once stored back or compared with 0. *)

Record ImageData := mkImage {
  width : Z;
  height : Z;
  data : Z → Z
}.

Definition createImageData (w h : Z) : ImageData :=
  {| width := w; height := h; data := λ _, 0 |}.

Definition data_length (img : ImageData) : Z := 4 * width img * height img.

Definition in_data (img : ImageData) (i : Z) : bool :=
  (0 <=? i) && (i <? data_length img).

Definition data_get (img : ImageData) (i : Z) : Z :=
  if in_data img i then data img i else 0.

Definition data_set (img : ImageData) (i v : Z) : ImageData :=
  if in_data img i
  then {| width := width img; height := height img;
          data := λ j, if j =? i then v else data img j |}
  else img.

(** ** Texgen: the atlas and its tile allocator *)

Section Atlas.
Context {num : Type} `{JSNum num}.

(** The closure variables and public fields of one [Texgen].  [images]
    holds every ImageData the atlas has created, the last one being
    [self.image]; a synthesis pass that started before a growth still
    writes into the surface it captured. *)
Record Texgen := mkTexgen {
  tileSize : Z;
  textureSize : Z;
  tileUVSize : num;
  borderUVOffset : num;
  borderTileUVSize : num;
  tileCountSqrt : Z;
  images : list ImageData;
  tileAllocMap : list Z;
  freePointer : nat;
  usageMap : gmap string nat;
  textureLost : bool
}.

Definition borderTileSize (s : Texgen) : Z := tileSize s + 2.

(** Index in [images] of [self.image]. *)
Definition image_ref (s : Texgen) : nat := pred (length (images s)).

Definition image_at (s : Texgen) (r : nat) : ImageData :=
  default (createImageData 0 0) (images s !! r).

Definition image (s : Texgen) : ImageData := image_at s (image_ref s).

Definition set_images (s : Texgen) (l : list ImageData) : Texgen :=
  mkTexgen (tileSize s) (textureSize s) (tileUVSize s) (borderUVOffset s)
    (borderTileUVSize s) (tileCountSqrt s) l (tileAllocMap s)
    (freePointer s) (usageMap s) (textureLost s).

Definition set_tileAllocMap (s : Texgen) (m : list Z) : Texgen :=
  mkTexgen (tileSize s) (textureSize s) (tileUVSize s) (borderUVOffset s)
    (borderTileUVSize s) (tileCountSqrt s) (images s) m
    (freePointer s) (usageMap s) (textureLost s).

Definition set_freePointer (s : Texgen) (p : nat) : Texgen :=
  mkTexgen (tileSize s) (textureSize s) (tileUVSize s) (borderUVOffset s)
    (borderTileUVSize s) (tileCountSqrt s) (images s) (tileAllocMap s)
    p (usageMap s) (textureLost s).

Definition set_usageMap (s : Texgen) (m : gmap string nat) : Texgen :=
  mkTexgen (tileSize s) (textureSize s) (tileUVSize s) (borderUVOffset s)
    (borderTileUVSize s) (tileCountSqrt s) (images s) (tileAllocMap s)
    (freePointer s) m (textureLost s).

Definition set_textureLost (s : Texgen) (b : bool) : Texgen :=
  mkTexgen (tileSize s) (textureSize s) (tileUVSize s) (borderUVOffset s)
    (borderTileUVSize s) (tileCountSqrt s) (images s) (tileAllocMap s)
    (freePointer s) (usageMap s) b.

(** Store a byte in the surface [r] of the atlas. *)
Definition write_byte (s : Texgen) (r : nat) (i v : Z) : Texgen :=
  set_images s (alter (λ img, data_set img i v) r (images s)).

(** [enlargeTexture]: double the surface and start over with an empty
    allocator. *)
Definition enlargeTexture (s : Texgen) : Texgen :=
  let textureSize' := textureSize s * 2 in
  let tileCountSqrt' := textureSize' / borderTileSize s in
  {| tileSize := tileSize s;
     textureSize := textureSize';
     tileUVSize := ndiv (of_Z (tileSize s)) (of_Z textureSize');
     borderUVOffset := ndiv (of_Z 1) (of_Z textureSize');
     borderTileUVSize := ndiv (of_Z (borderTileSize s)) (of_Z textureSize');
     tileCountSqrt := tileCountSqrt';
     images := images s ++ [createImageData textureSize' textureSize'];
     tileAllocMap := replicate (Z.to_nat (tileCountSqrt' * tileCountSqrt')) 0;
     freePointer := 0%nat;
     usageMap := ∅;
     textureLost := true |}.

(** [new Texgen(tileSize)]: the variables as initialised, then the first
    [enlargeTexture()]. *)
Definition Texgen_init (ts : Z) : Texgen :=
  {| tileSize := ts;
     textureSize := 128;
     tileUVSize := nundef;
     borderUVOffset := nundef;
     borderTileUVSize := nundef;
     tileCountSqrt := 0;
     images := [];
     tileAllocMap := [];
     freePointer := 0%nat;
     usageMap := ∅;
     textureLost := false |}.

Definition new_Texgen (ts : Z) : Texgen := enlargeTexture (Texgen_init ts).

(** A cell of the Uint8Array used as a condition. *)
Definition occupied_at (m : list Z) (i : nat) : bool :=
  match m !! i with
  | Some c => negb (c =? 0)
  | None => false
  end.

(** The [while] loop of [tileAlloc], with its counter [n].  The result is
    the new state, the index returned, and whether [enlargeTexture()] ran.
    [fuel] bounds the number of iterations; [tileAlloc_loop_total] shows
    that the length of the bitmap is enough. *)
Fixpoint tileAlloc_loop (fuel : nat) (s : Texgen) (n : nat) : option (Texgen * nat * bool) :=
  if occupied_at (tileAllocMap s) (freePointer s) then
    let n := S n in
    if (length (tileAllocMap s) <=? n)%nat then
      Some (enlargeTexture s, 0%nat, true)
    else
      match fuel with
      | O => None
      | S fuel =>
          tileAlloc_loop fuel
            (set_freePointer s ((freePointer s + 1) `mod` length (tileAllocMap s))%nat) n
      end
  else
    Some (set_tileAllocMap s (<[freePointer s := 1]> (tileAllocMap s)), freePointer s, false).

Definition tileAlloc (s : Texgen) : Texgen * nat * bool :=
  default (s, 0%nat, false) (tileAlloc_loop (length (tileAllocMap s)) s 0).

Definition tileFree (s : Texgen) (index : nat) : Texgen :=
  set_tileAllocMap s (<[index := 0]> (tileAllocMap s)).

(** [tileCoords], for a grid that has cells.  With [tileCountSqrt = 0]
    the source divides by zero and returns [NaN, NaN], which a pair of
    integers does not render; no statement below reads the coordinates
    of such a grid. *)
Definition tileCoords (s : Texgen) (index : nat) : Z * Z :=
  (Z.of_nat index / tileCountSqrt s, Z.of_nat index `mod` tileCountSqrt s).

(** [usageMap] is a plain object [{}] used as a map from tokens to cells,
    and the record field holds the entries stored in it.  The test
    [usageIndex in usageMap] also succeeds for the names that every
    object inherits from [Object.prototype]: for such a name
    [allocationFor] takes its first branch with a function for [index],
    allocates nothing and returns [NaN, NaN].  The tokens that
    [rebuildOne] builds start with the decimal digits of a block ID and
    are none of these names.  Below the test is a lookup among the
    entries stored, which is what the source does for every token that
    is a [plain_token]. *)
Definition Object_prototype_names : list string :=
  ["constructor"; "toString"; "toLocaleString"; "valueOf"; "hasOwnProperty";
   "isPrototypeOf"; "propertyIsEnumerable"; "__proto__"; "__defineGetter__";
   "__defineSetter__"; "__lookupGetter__"; "__lookupSetter__"].

Definition plain_token (t : string) : Prop := t ∉ Object_prototype_names.

(** [allocationFor].  In [index = usageMap[usageIndex] = tileAlloc()] the
    object [usageMap] is looked up before [tileAlloc()] runs, so when
    [tileAlloc] enlarges the texture the entry is stored in the map that
    [enlargeTexture] has just replaced, and the new map stays empty. *)
Definition allocationFor (s : Texgen) (usageIndex : string) : Texgen * (Z * Z) :=
  if textureLost s then (s, (0, 0))
  else
    match usageMap s !! usageIndex with
    | Some index => (s, tileCoords s index)
    | None =>
        let '(s1, index, enlarged) := tileAlloc s in
        let s2 :=
          if enlarged then s1
          else set_usageMap s1 (<[usageIndex := index]> (usageMap s1)) in
        (s2, tileCoords s2 index)
    end.

Definition uvFor (s : Texgen) (usageIndex : string) : Texgen * (num * num) :=
  let '(s1, c) := allocationFor s usageIndex in
  (s1, (nadd (borderUVOffset s1) (nmul (borderTileUVSize s1) (of_Z (fst c))),
        nadd (borderUVOffset s1) (nmul (borderTileUVSize s1) (of_Z (snd c))))).

Definition imageCoordsFor (s : Texgen) (usageIndex : string) : Texgen * (Z * Z) :=
  let '(s1, c) := allocationFor s usageIndex in
  (s1, (1 + borderTileSize s1 * fst c, 1 + borderTileSize s1 * snd c)).

(** [deallocateUsage].  For a token that is not registered,
    [usageMap[usageIndex]] is undefined and the store
    [tileAllocMap[undefined] = 0] touches no cell. *)
Definition deallocateUsage (s : Texgen) (usageIndex : string) : Texgen :=
  if textureLost s then s
  else
    let s1 :=
      match usageMap s !! usageIndex with
      | Some index => tileFree s index
      | None => s
      end in
    set_usageMap s1 (delete usageIndex (usageMap s1)).

(** [completed]: the clamp border.  [pix] and [copy] are its two local
    functions. *)
Definition pix (coords : Z * Z) (w x y : Z) : Z :=
  (fst coords + x + w * (snd coords + y)) * 4.

Definition copy (img : ImageData) (dst src : Z) : ImageData :=
  let img := data_set img dst (data_get img src) in
  let img := data_set img (dst + 1) (data_get img (src + 1)) in
  let img := data_set img (dst + 2) (data_get img (src + 2)) in
  data_set img (dst + 3) (data_get img (src + 3)).

Definition completed_image (ts : Z) (coords : Z * Z) (img : ImageData) : ImageData :=
  let w := width img in
  let img :=
    foldl (λ img x,
             let img := copy img (pix coords w x (-1)) (pix coords w x 0) in
             copy img (pix coords w x ts) (pix coords w x (ts - 1)))
          img (seqZ 0 ts) in
  foldl (λ img y,
           let img := copy img (pix coords w (-1) y) (pix coords w 0 y) in
           copy img (pix coords w ts y) (pix coords w (ts - 1) y))
        img (seqZ (-1) (ts + 2)).

Definition completed (s : Texgen) (usageIndex : string) : Texgen :=
  let '(s1, coords) := imageCoordsFor s usageIndex in
  set_images s1
    (alter (completed_image (tileSize s1) coords) (image_ref s1) (images s1)).

End Atlas.
Arguments Texgen : clear implicits.

(** ** Cube symmetries

    [applyCubeSymmetry] lives in another file of the repository; the
    rotation helpers only call it, so it is an interface here. *)

Class CubeSymmetry (num : Type) := {
  applyCubeSymmetry : nat → num → num * num * num → num * num * num;
  isReflection : nat → bool;
  COUNT : nat                     (* applyCubeSymmetry.COUNT *)
}.

(** ** Block types and the nested voxel container *)

Section BlockTypes.
Context {num : Type}.

(** A block type is a colour or a world; a world answers [gt] (the block
    type at a cell) and [opaque] (is the cell opaque).  [wopaque] and
    [_color] of a world type are the values that
    [recomputeWorldBlockProperties] left in it. *)
Inductive BlockType : Type :=
  | BlockType_Color (color : num * num * num * num)
  | BlockType_World (world : World) (opaque : bool) (_color : num * num * num)
with World : Type :=
  | mkWorld (wx : Z) (gt : Z → Z → Z → BlockType) (wopaque : Z → Z → Z → bool).

Definition wx (w : World) : Z := match w with mkWorld n _ _ => n end.
Definition gt (w : World) : Z → Z → Z → BlockType :=
  match w with mkWorld _ g _ => g end.
Definition wopaque (w : World) : Z → Z → Z → bool :=
  match w with mkWorld _ _ o => o end.

(** [blockType.world], null for a colour. *)
Definition world_of (bt : BlockType) : option World :=
  match bt with
  | BlockType_Color _ => None
  | BlockType_World w _ _ => Some w
  end.

End BlockTypes.
Arguments BlockType : clear implicits.
Arguments World : clear implicits.

(** ** Face geometry *)

Record Geometry (num : Type) := mkGeometry {
  vertices : list num;
  texcoords : list num
}.
Arguments mkGeometry {num}.
Arguments vertices {num}.
Arguments texcoords {num}.

Definition mat4 := list Z.

(** glMatrix's [mat4.multiplyVec3] (column-major 4x4 matrix, the vector
    extended by 1), over any numbers. *)
Definition multiplyVec3_gen {A} (add mul : A → A → A) (m : list A) (d : A)
    (v : A * A * A) : A * A * A :=
  let '(x, y, z) := v in
  let e i := nth i m d in
  (add (add (add (mul (e 0%nat) x) (mul (e 4%nat) y)) (mul (e 8%nat) z)) (e 12%nat),
   add (add (add (mul (e 1%nat) x) (mul (e 5%nat) y)) (mul (e 9%nat) z)) (e 13%nat),
   add (add (add (mul (e 2%nat) x) (mul (e 6%nat) y)) (mul (e 10%nat) z)) (e 14%nat)).

(** On voxel coordinates, which are small integers. *)
Definition multiplyVec3Z (m : mat4) (v : Z * Z * Z) : Z * Z * Z :=
  multiplyVec3_gen Z.add Z.mul m 0 v.

Definition TILE_MAPPINGS : list (string * mat4) :=
  [ ("z", [1; 0; 0; 0;
           0; 1; 0; 0;
           0; 0; 1; 0;
           0; 0; 0; 1]);
    ("x", [0; 1; 0; 0;
           0; 0; 1; 0;
           1; 0; 0; 0;
           0; 0; 0; 1]);
    ("y", [0; 0; 1; 0;
           1; 0; 0; 0;
           0; 1; 0; 0;
           0; 0; 0; 1]) ].

Section Synthesis.
Context {num : Type} `{JSNum num} `{CubeSymmetry num}.

Definition multiplyVec3 (m : mat4) (v : num * num * num) : num * num * num :=
  multiplyVec3_gen nadd nmul (of_Z <$> m) (of_Z 0) v.

Definition EMPTY_GEOMETRY : Geometry num := mkGeometry [] [].

Definition EMPTY_FACES : gmap string (Geometry num) :=
  foldl (λ faces m,
           <["h" +:+ fst m := EMPTY_GEOMETRY]> (<["l" +:+ fst m := EMPTY_GEOMETRY]> faces))
        ∅ TILE_MAPPINGS.

Definition EMPTY_BLOCKRENDER : list (gmap string (Geometry num)) :=
  replicate COUNT EMPTY_FACES.

(** Reading an array element; past the end (or before the start) the
    result is undefined. *)
Definition arr_get (a : list num) (i : Z) : num :=
  if i <? 0 then nundef else default nundef (a !! Z.to_nat i).

Definition pushVertex (array : list num) (vec : num * num * num) : list num :=
  let '(x, y, z) := vec in array ++ [x; y; z].

(** The two loops of [rotateVertices]; [fuel] is the array length, which
    bounds the number of iterations of either. *)
Fixpoint rotateVertices_down (fuel : nat) (rot : nat) (vertices : list num)
    (i : Z) (out : list num) : list num :=
  match fuel with
  | O => out
  | S fuel =>
      if 0 <=? i then
        let t := applyCubeSymmetry rot (of_Z 1)
                   (arr_get vertices i, arr_get vertices (i + 1), arr_get vertices (i + 2)) in
        rotateVertices_down fuel rot vertices (i - 3) (pushVertex out t)
      else out
  end.

Fixpoint rotateVertices_up (fuel : nat) (rot : nat) (vertices : list num)
    (i : Z) (out : list num) : list num :=
  match fuel with
  | O => out
  | S fuel =>
      if i <? Z.of_nat (length vertices) then
        let t := applyCubeSymmetry rot (of_Z 1)
                   (arr_get vertices i, arr_get vertices (i + 1), arr_get vertices (i + 2)) in
        rotateVertices_up fuel rot vertices (i + 3) (pushVertex out t)
      else out
  end.

Definition rotateVertices (rot : nat) (vertices : list num) : list num :=
  if isReflection rot then
    rotateVertices_down (length vertices) rot vertices (Z.of_nat (length vertices) - 3) []
  else
    rotateVertices_up (length vertices) rot vertices 0 [].

Fixpoint rotateTexcoords_down (fuel : nat) (texcoords : list num) (i : Z)
    (out : list num) : list num :=
  match fuel with
  | O => out
  | S fuel =>
      if 0 <=? i then
        rotateTexcoords_down fuel texcoords (i - 2)
          (out ++ [arr_get texcoords i; arr_get texcoords (i + 1)])
      else out
  end.

Definition rotateTexcoords (rot : nat) (texcoords : list num) : list num :=
  if isReflection rot then
    rotateTexcoords_down (length texcoords) texcoords (Z.of_nat (length texcoords) - 2) []
  else texcoords.

Definition rotateFaceData (rot : nat) (faceData : gmap string (Geometry num))
    : gmap string (Geometry num) :=
  (λ f, mkGeometry (rotateVertices rot (vertices f)) (rotateTexcoords rot (texcoords f)))
    <$> faceData.

(** [calcTexCoords]; [uvFor] may allocate, so the atlas is threaded. *)
Definition calcTexCoords (texgen : Texgen num) (usageIndex : string) (flipped : bool)
    : Texgen num * list num :=
  let '(texgen, uv) := uvFor texgen usageIndex in
  let tileUVSize := tileUVSize texgen in
  let texO := if flipped then tileUVSize else of_Z 0 in
  let texD := if flipped then of_Z 0 else tileUVSize in
  let uo := snd uv in
  let vo := fst uv in
  (texgen,
   [ nadd uo texO; nadd vo texO;
     nadd uo tileUVSize; nadd vo (of_Z 0);
     nadd uo (of_Z 0); nadd vo tileUVSize;
     nadd uo texD; nadd vo texD;
     nadd uo (of_Z 0); nadd vo tileUVSize;
     nadd uo tileUVSize; nadd vo (of_Z 0) ]).

(** The six vertices that [pushQuad] appends. *)
Definition quadVertices (flipped : bool) (transform : mat4) (depth : num) : list num :=
  let a := if flipped then of_Z 1 else of_Z 0 in
  let b := if flipped then of_Z 0 else of_Z 1 in
  let vertices := pushVertex [] (multiplyVec3 transform (a, a, depth)) in
  let vertices := pushVertex vertices (multiplyVec3 transform (of_Z 0, of_Z 1, depth)) in
  let vertices := pushVertex vertices (multiplyVec3 transform (of_Z 1, of_Z 0, depth)) in
  let vertices := pushVertex vertices (multiplyVec3 transform (b, b, depth)) in
  let vertices := pushVertex vertices (multiplyVec3 transform (of_Z 1, of_Z 0, depth)) in
  pushVertex vertices (multiplyVec3 transform (of_Z 0, of_Z 1, depth)).

(** [pushQuad] of [rebuildOne]: returns the atlas and the two arrays. *)
Definition pushQuad (texgen : Texgen num) (vertices texcoords : list num) (flipped : bool)
    (transform : mat4) (depth : num) (usageIndex : string)
    : Texgen num * list num * list num :=
  let '(texgen, tc) := calcTexCoords texgen usageIndex flipped in
  let texcoords := texcoords ++ tc in
  let a := if flipped then of_Z 1 else of_Z 0 in
  let b := if flipped then of_Z 0 else of_Z 1 in
  let vertices := pushVertex vertices (multiplyVec3 transform (a, a, depth)) in
  let vertices := pushVertex vertices (multiplyVec3 transform (of_Z 0, of_Z 1, depth)) in
  let vertices := pushVertex vertices (multiplyVec3 transform (of_Z 1, of_Z 0, depth)) in
  let vertices := pushVertex vertices (multiplyVec3 transform (b, b, depth)) in
  let vertices := pushVertex vertices (multiplyVec3 transform (of_Z 1, of_Z 0, depth)) in
  let vertices := pushVertex vertices (multiplyVec3 transform (of_Z 0, of_Z 1, depth)) in
  (texgen, vertices, texcoords).

(** [writeColor(scale, target, offset)] of the two block types: the four
    numbers stored at [offset .. offset+3]. *)
Definition writeColor (bt : BlockType num) (scale : num) : num * num * num * num :=
  match bt with
  | BlockType_Color (r, g, b, a) =>
      (nmul scale r, nmul scale g, nmul scale b, nmul scale a)
  | BlockType_World _ opaque (r, g, b) =>
      (nmul scale r, nmul scale g, nmul scale b, if opaque then scale else of_Z 0)
  end.

(** Four stores into the bytes of surface [r], starting at [c]. *)
Definition store4 (texgen : Texgen num) (r : nat) (c : Z) (v : num * num * num * num) : Texgen num :=
  let '(v0, v1, v2, v3) := v in
  let texgen := write_byte texgen r c (to_byte v0) in
  let texgen := write_byte texgen r (c + 1) (to_byte v1) in
  let texgen := write_byte texgen r (c + 2) (to_byte v2) in
  write_byte texgen r (c + 3) (to_byte v3).

(** Usage tokens: [blockID.toString()] and
    [blockID + "," + dimName + "," + layer]. *)
Definition colorUsage (blockID : nat) : string := pretty blockID.

Definition sliceUsage (blockID : nat) (dimName : string) (layer : Z) : string :=
  pretty blockID +:+ "," +:+ dimName +:+ "," +:+ pretty layer.

(** The four arrays that one [TILE_MAPPINGS] entry fills. *)
Record FaceArrays := mkFaceArrays {
  texcoordsL : list num;
  texcoordsH : list num;
  verticesL : list num;
  verticesH : list num
}.

(** What [rebuildOne] keeps in local variables for the whole call:
    [tileSize], the surface [texData] (as its index in [images]) and
    [texWidth]. *)
Record Locals := mkLocals {
  l_tileSize : Z;
  l_texData : nat;
  l_texWidth : Z
}.

Definition rebuild_locals (texgen : Texgen num) : Locals :=
  {| l_tileSize := tileSize texgen;
     l_texData := image_ref texgen;
     l_texWidth := width (image texgen) |}.

(** Body of the pixel loop of [sliceWorld], for one [(u, v)]. *)
Definition slice_pixel (lc : Locals) (world : World num) (transform : mat4) (layer : Z)
    (pixu pixv : Z) (viewL viewH : Z * Z * Z)
    (st : Texgen num * bool * bool) (u v : Z) : Texgen num * bool * bool :=
  let '(texgen, thisLayerNotEmptyL, thisLayerNotEmptyH) := st in
  let c := ((pixu + u) * l_texWidth lc + pixv + v) * 4 in
  let '(x, y, z) := multiplyVec3Z transform (u, v, layer) in
  let texgen := store4 texgen (l_texData lc) c (writeColor (gt world x y z) (of_Z 255)) in
  if 0 <? data_get (image_at texgen (l_texData lc)) (c + 3) then
    let thisLayerNotEmptyL :=
      if negb (wopaque world (x + viewL.1.1) (y + viewL.1.2) (z + viewL.2))
      then true else thisLayerNotEmptyL in
    let thisLayerNotEmptyH :=
      if negb (wopaque world (x + viewH.1.1) (y + viewH.1.2) (z + viewH.2))
      then true else thisLayerNotEmptyH in
    (texgen, thisLayerNotEmptyL, thisLayerNotEmptyH)
  else (texgen, thisLayerNotEmptyL, thisLayerNotEmptyH).

Definition slice_pixels (lc : Locals) (world : World num) (transform : mat4) (layer : Z)
    (pixu pixv : Z) (texgen : Texgen num) : Texgen num * bool * bool :=
  let viewL := multiplyVec3Z transform (0, 0, -1) in
  let viewH := multiplyVec3Z transform (0, 0, 1) in
  foldl (λ st u,
           foldl (λ st v, slice_pixel lc world transform layer pixu pixv viewL viewH st u v)
                 st (seqZ 0 (l_tileSize lc)))
        (texgen, false, false) (seqZ 0 (l_tileSize lc)).

(** [sliceWorld] for a world block type with flag [opaque]. *)
Definition sliceWorld (lc : Locals) (blockID : nat) (world : World num) (opaque : bool)
    (dimName : string) (layer : Z) (transform : mat4)
    (st : Texgen num * FaceArrays) : Texgen num * FaceArrays :=
  let '(texgen, arr) := st in
  let tileSize := l_tileSize lc in
  let tileLastIndex := tileSize - 1 in
  let usageIndex := sliceUsage blockID dimName layer in
  let '(texgen, coord) := imageCoordsFor texgen usageIndex in
  let pixu := fst coord in
  let pixv := snd coord in
  let '(texgen, thisLayerNotEmptyL, thisLayerNotEmptyH) :=
    slice_pixels lc world transform layer pixu pixv texgen in
  if negb thisLayerNotEmptyL && negb thisLayerNotEmptyH then
    (deallocateUsage texgen usageIndex, arr)
  else
    let texgen := completed texgen usageIndex in
    let '(texgen, arr) :=
      if thisLayerNotEmptyL && (negb opaque || (layer =? 0)) then
        let '(texgen, vs, tc) :=
          pushQuad texgen (verticesL arr) (texcoordsL arr) false transform
            (ndiv (of_Z layer) (of_Z tileSize)) usageIndex in
        (texgen, mkFaceArrays tc (texcoordsH arr) vs (verticesH arr))
      else (texgen, arr) in
    if thisLayerNotEmptyH && (negb opaque || (layer =? tileLastIndex)) then
      let '(texgen, vs, tc) :=
        pushQuad texgen (verticesH arr) (texcoordsH arr) true transform
          (ndiv (of_Z (layer + 1)) (of_Z tileSize)) usageIndex in
      (texgen, mkFaceArrays (texcoordsL arr) tc (verticesL arr) vs)
    else (texgen, arr).

(** The [for] loop over the layers of a block that is not opaque; [None]
    is the [return] taken when the texture is lost. *)
Fixpoint slice_layers (lc : Locals) (blockID : nat) (world : World num) (opaque : bool)
    (dimName : string) (transform : mat4) (layers : list Z)
    (st : Texgen num * FaceArrays) : Texgen num * option FaceArrays :=
  match layers with
  | [] => (fst st, Some (snd st))
  | layer :: layers =>
      if textureLost (fst st) then (fst st, None)
      else slice_layers lc blockID world opaque dimName transform layers
             (sliceWorld lc blockID world opaque dimName layer transform st)
  end.

(** The callback of [TILE_MAPPINGS.forEach] in the world branch. *)
Definition world_faces (lc : Locals) (blockID : nat) (world : World num) (opaque : bool)
    (st : Texgen num * gmap string (Geometry num)) (m : string * mat4)
    : Texgen num * gmap string (Geometry num) :=
  let '(texgen, faceData) := st in
  let dimName := fst m in
  let transform := snd m in
  let tileLastIndex := l_tileSize lc - 1 in
  let arr := mkFaceArrays [] [] [] [] in
  let '(texgen, res) :=
    if opaque then
      if textureLost texgen then (texgen, None)
      else
        let st := sliceWorld lc blockID world opaque dimName 0 transform (texgen, arr) in
        let st := sliceWorld lc blockID world opaque dimName tileLastIndex transform st in
        (fst st, Some (snd st))
    else
      slice_layers lc blockID world opaque dimName transform
        (seqZ 0 (l_tileSize lc)) (texgen, arr) in
  match res with
  | None => (texgen, faceData)
  | Some arr =>
      (texgen,
       <["h" +:+ dimName := mkGeometry (verticesH arr) (texcoordsH arr)]>
         (<["l" +:+ dimName := mkGeometry (verticesL arr) (texcoordsL arr)]> faceData))
  end.

(** The callback of [TILE_MAPPINGS.forEach] in the colour branch. *)
Definition color_faces (usageIndex : string)
    (st : Texgen num * gmap string (Geometry num)) (m : string * mat4)
    : Texgen num * gmap string (Geometry num) :=
  let '(texgen, faceData) := st in
  let dimName := fst m in
  let transform := snd m in
  let '(texgen, verticesL, texcoords) :=
    pushQuad texgen [] [] false transform (of_Z 0) usageIndex in
  let '(texgen, verticesH, _) :=
    pushQuad texgen [] [] true transform (of_Z 1) usageIndex in
  (texgen,
   <["h" +:+ dimName := mkGeometry verticesH texcoords]>
     (<["l" +:+ dimName := mkGeometry verticesL texcoords]> faceData)).

(** The canonical (not yet rotated) faces of one block: the part of
    [rebuildOne] before the loop over the rotations. *)
Definition rebuild_faces (texgen : Texgen num) (blockID : nat) (blockType : BlockType num)
    : Texgen num * gmap string (Geometry num) :=
  let lc := rebuild_locals texgen in
  let tileSize := l_tileSize lc in
  match blockType with
  | BlockType_Color color =>
      let usageIndex := colorUsage blockID in
      let '(texgen, coord) := imageCoordsFor texgen usageIndex in
      let pixu := fst coord in
      let pixv := snd coord in
      let '(r, g, b, a) := color in
      let rgba := (nmul (of_Z 255) r, nmul (of_Z 255) g,
                   nmul (of_Z 255) b, nmul (of_Z 255) a) in
      let texgen :=
        foldl (λ texgen u,
                 foldl (λ texgen v,
                          let c := ((pixu + u) * l_texWidth lc + pixv + v) * 4 in
                          store4 texgen (l_texData lc) c rgba)
                       texgen (seqZ 0 tileSize))
              texgen (seqZ 0 tileSize) in
      let texgen := completed texgen usageIndex in
      foldl (color_faces usageIndex) (texgen, ∅) TILE_MAPPINGS
  | BlockType_World world opaque _ =>
      foldl (world_faces lc blockID world opaque) (texgen, ∅) TILE_MAPPINGS
  end.

(** [rebuildOne]: the atlas afterwards and the new
    [rotatedBlockFaceData[blockID]], entries [0 .. COUNT-1]. *)
Definition rebuildOne (texgen : Texgen num) (blockID : nat) (blockType : BlockType num)
    : Texgen num * list (gmap string (Geometry num)) :=
  let '(texgen, faceData) := rebuild_faces texgen blockID blockType in
  match blockType with
  | BlockType_Color _ => (texgen, replicate COUNT faceData)
  | BlockType_World _ _ _ =>
      (texgen, (λ rot, rotateFaceData rot faceData) <$> seq 0 COUNT)
  end.

End Synthesis.
Arguments FaceArrays : clear implicits.

(** ** BlockSet: the tile size of a set *)

Section BlockSetDef.
Context {num : Type} `{JSNum num} `{CubeSymmetry num}.

(** The variables of one [BlockSet] that [add] touches.  [bs_tileSize] is
    the closure variable [tileSize]; [None] stands for its initial NaN.
    [typesToRerender] is the DirtyQueue: a block ID is in it once. *)
Record BlockSet := mkBlockSet {
  bs_tileSize : option Z;
  types : list (BlockType num);
  rotatedBlockFaceData : list (list (gmap string (Geometry num)));
  typesToRerender : list nat
}.

Definition BlockType_air : BlockType num :=
  BlockType_Color (of_Z 0, of_Z 0, of_Z 0, of_Z 0).

Definition enqueue (q : list nat) (id : nat) : list nat :=
  if bool_decide (id ∈ q) then q else q ++ [id].

(** The [tileSize] getter. *)
Definition get_tileSize (bs : BlockSet) : Z :=
  match bs_tileSize bs with
  | None => 1
  | Some tileSize => tileSize
  end.

(** [add]. *)
Definition add (bs : BlockSet) (newBlockType : BlockType num) : BlockSet :=
  let newID := length (types bs) in
  let tileSize :=
    match world_of newBlockType with
    | Some world =>
        let ts := wx world in
        match bs_tileSize bs with
        | None => Some ts
        | Some tileSize => if tileSize =? ts then Some ts else Some tileSize
        end
    | None => bs_tileSize bs
    end in
  {| bs_tileSize := tileSize;
     types := types bs ++ [newBlockType];
     rotatedBlockFaceData := rotatedBlockFaceData bs ++ [[]];
     typesToRerender := enqueue (typesToRerender bs) newID |}.

(** [new BlockSet(initialTypes)]. *)
Definition new_BlockSet (initialTypes : list (BlockType num)) : BlockSet :=
  foldl add
    {| bs_tileSize := None;
       types := [BlockType_air];
       rotatedBlockFaceData := [EMPTY_BLOCKRENDER];
       typesToRerender := [] |}
    initialTypes.

End BlockSetDef.
Arguments BlockSet : clear implicits.

(** ** The derived properties of a world block type

    glMatrix's [vec3] is a library of its own; the accumulator of
    [recomputeWorldBlockProperties] is one of its arrays, so its three
    operations are an interface. *)

Class GLVec3 (num : Type) := {
  vec3_create : num * num * num;                               (* vec3.create() *)
  vec3_add : num * num * num → num * num * num → num * num * num;   (* vec3.add(a, b) *)
  vec3_scale : num * num * num → num → num * num * num         (* vec3.scale(a, k) *)
}.

Section WorldBlockProperties.
Context {num : Type} `{JSNum num} `{GLVec3 num}.

(** [vec[i]] for [i] in 0, 1, 2. *)
Definition vec_at (vec : Z * Z * Z) (i : nat) : Z :=
  match i with
  | O => vec.1.1
  | S O => vec.1.2
  | _ => vec.2
  end.

(** The cell [(vec[dim], vec[ud], vec[vd])] with [ud = mod(dim+1, 3)] and
    [vd = mod(dim+2, 3)]. *)
Definition axis_cell (dim : nat) (vec : Z * Z * Z) : Z * Z * Z :=
  (vec_at vec dim, vec_at vec ((dim + 1) `mod` 3)%nat, vec_at vec ((dim + 2) `mod` 3)%nat).

Definition opaque_cell (world : World num) (c : Z * Z * Z) : bool :=
  wopaque world c.1.1 c.1.2 c.2.

Definition gt_cell (world : World num) (c : Z * Z * Z) : BlockType num :=
  gt world c.1.1 c.1.2 c.2.

(** The [while] loop of the raycast, on [vec[2]]; it returns the value
    of [vec[2]] at which it stops.  [fuel] bounds the iterations. *)
Fixpoint raycast (fuel : nat) (world : World num) (tileSize : Z) (dim : nat) (u v w : Z) : Z :=
  if negb (opaque_cell world (axis_cell dim (u, v, w))) && (w <? tileSize) then
    match fuel with
    | O => w
    | S fuel => raycast fuel world tileSize dim u v (w + 1)
    end
  else w.

(** The body of the loops over [u] and [v]; the state is [opaque],
    [color] and [colorCount]. *)
Definition recompute_cell (world : World num) (tileSize : Z) (dim : nat)
    (st : bool * (num * num * num) * nat) (u v : Z) : bool * (num * num * num) * nat :=
  let '(opaque, color, colorCount) := st in
  let tileLastIndex := tileSize - 1 in
  let opaque := opaque && opaque_cell world (axis_cell dim (u, v, 0)) in
  let opaque := opaque && opaque_cell world (axis_cell dim (u, v, tileLastIndex)) in
  let w := raycast (Z.to_nat tileSize) world tileSize dim u v tileLastIndex in
  if w <? tileSize then
    let subCubeColor := writeColor (gt_cell world (axis_cell dim (u, v, w))) (of_Z 1) in
    (opaque,
     vec3_add color (subCubeColor.1.1.1, subCubeColor.1.1.2, subCubeColor.1.2),
     S colorCount)
  else (opaque, color, colorCount).

(** [recomputeWorldBlockProperties]: the new [opaque] and [_color]. *)
Definition recomputeWorldBlockProperties (world : World num) : bool * (num * num * num) :=
  let tileSize := wx world in
  let '(opaque, color, colorCount) :=
    foldl (λ st dim,
             foldl (λ st u,
                      foldl (λ st v, recompute_cell world tileSize dim st u v)
                            st (seqZ 0 tileSize))
                   st (seqZ 0 tileSize))
          (true, vec3_create, 0%nat) [0; 1; 2]%nat in
  (opaque, vec3_scale color (ndiv (of_Z 1) (of_Z (Z.of_nat colorCount)))).

(** [new BlockType.World(world)], as far as rendering reads it. *)
Definition new_BlockType_World (world : World num) : BlockType num :=
  let p := recomputeWorldBlockProperties world in
  BlockType_World world p.1 p.2.

End WorldBlockProperties.

(** ** BlockSet: reading the types, and serialization *)

Section BlockSetAccess.
Context {num : Type} `{JSNum num} `{CubeSymmetry num} `{GLVec3 num}.

Definition ID_EMPTY : Z := 0.
Definition ID_BOGUS : Z := 1.
Definition ID_LIMIT : Z := 256.

(** [types[blockID]]: undefined, here [None], when [blockID] is not an
    index of the array. *)
Definition types_at (bs : BlockSet num) (blockID : Z) : option (BlockType num) :=
  if blockID <? 0 then None else types bs !! Z.to_nat blockID.

(** [a || b] when [a] is an object or undefined. *)
Definition or_else {A : Type} (a b : option A) : option A :=
  match a with
  | Some _ => a
  | None => b
  end.

(** [get]. *)
Definition get (bs : BlockSet num) (blockID : Z) : option (BlockType num) :=
  or_else (or_else (types_at bs blockID) (types_at bs ID_BOGUS)) (types_at bs ID_EMPTY).

(** The [length] getter. *)
Definition bs_length (bs : BlockSet num) : Z := Z.of_nat (length (types bs)).

(** [getAll]: the loop stores [bogus] at the indices from [array.length]
    up to [ID_LIMIT - 1]. *)
Definition getAll (bs : BlockSet num) : list (option (BlockType num)) :=
  let array := Some <$> types bs in
  let bogus := or_else (types_at bs ID_BOGUS) (types_at bs ID_EMPTY) in
  array ++ replicate (Z.to_nat (ID_LIMIT - Z.of_nat (length array))) bogus.

(** [worldFor]; null is [None]. *)
Definition worldFor (bs : BlockSet num) (blockID : Z) : option (World num) :=
  match types_at bs blockID with
  | Some t => world_of t
  | None => None
  end.

Section Serialization.
(** [J] is what the [serialize] callback returns for a block type or a
    world. *)
Context {J : Type}.

(** The object that [BlockSet.unserialize] reads: its [type], and its
    [types] and [worlds] arrays where it has them. *)
Record BlockSetJson := mkBlockSetJson {
  json_type : string;
  json_types : option (list J);
  json_worlds : option (list J)
}.

(** [serialize]. *)
Definition BlockSet_serialize (serialize : BlockType num → J) (bs : BlockSet num)
    : BlockSetJson :=
  {| json_type := "types";
     json_types := Some (serialize <$> drop 1 (types bs));
     json_worlds := None |}.

(** [BlockSet.unserialize]; [None] is a thrown error.  [colors] is the
    block set of [WorldGen.colorBlocks(4,4,4)]; the callback
    [unserialize] is given as its two uses, on worlds and on block
    types.  [new BlockSet] of a list with an undefined entry throws, in
    [add]. *)
Definition BlockSet_unserialize (colors : BlockSet num)
    (unserialize_world : J → World num) (unserialize_type : J → BlockType num)
    (json : BlockSetJson) : option (BlockSet num) :=
  if bool_decide (json_type json = "colors") then
    let list := take (length (types colors) - 1) (drop 1 (getAll colors)) in
    let list :=
      match list with
      | [] => [None]
      | first :: rest => rest ++ [first]
      end in
    new_BlockSet <$> mapM id list
  else if bool_decide (json_type json = "textured") then
    match json_worlds json with
    | Some worlds =>
        Some (new_BlockSet ((λ world, new_BlockType_World (unserialize_world world)) <$> worlds))
    | None => None
    end
  else if bool_decide (json_type json = "types") then
    match json_types json with
    | Some types => Some (new_BlockSet (unserialize_type <$> types))
    | None => None
    end
  else None.

End Serialization.

End BlockSetAccess.

(** ** Block types: serialization

    The fields of a block type object that [serialize] writes and
    [BlockType.unserialize] sets.  A behavior is an entry of
    [Circuit.behaviors], of which only the [name] is read here. *)

Section BlockTypeSerialization.
Context {num : Type} `{JSNum num} `{GLVec3 num}.
Context {J Behavior : Type}.
Context (behavior_name : Behavior → string).
Context (behaviors : gmap string Behavior).            (* Circuit.behaviors *)






End BlockTypeSerialization.

(** ** BlockSet: rebuilding the render data

    [rebuildOne(blockID)] as a function of the block set, and the body
    of the first loop of [freshenTexture]: the acknowledgement of
    [textureLost] and one pass over all the block IDs.  The state is the
    block set with its [texgen]; [None] is a thrown TypeError. *)

Section BlockSetRebuild.
Context {num : Type} `{JSNum num} `{CubeSymmetry num}.

(** [rebuildOne(blockID)]: the type is [types[blockID]]; the tables of
    the rotations are stored at the indices [0 .. COUNT-1] of the object
    [rotatedBlockFaceData[blockID]], which keeps what it has beyond
    them. *)
Definition BlockSet_rebuildOne (st : BlockSet num * Texgen num) (blockID : nat)
    : option (BlockSet num * Texgen num) :=
  let '(bs, texgen) := st in
  match types bs !! blockID with
  | None => None
  | Some blockType =>
      let '(texgen, tables) := rebuildOne texgen blockID blockType in
      match rotatedBlockFaceData bs !! blockID with
      | Some rotatedFaceData =>
          Some ({| bs_tileSize := bs_tileSize bs;
                   types := types bs;
                   rotatedBlockFaceData :=
                     <[blockID := tables ++ drop COUNT rotatedFaceData]>
                       (rotatedBlockFaceData bs);
                   typesToRerender := typesToRerender bs |},
                texgen)
      | None => if (COUNT =? 0)%nat then Some (bs, texgen) else None
      end
  end.

(** The [for] loop over the IDs, which ends when the texture is lost. *)
Fixpoint rebuild_ids (ids : list nat) (st : BlockSet num * Texgen num)
    : option (BlockSet num * Texgen num) :=
  match ids with
  | [] => Some st
  | id :: ids =>
      if textureLost st.2 then Some st
      else
        match BlockSet_rebuildOne st id with
        | Some st => rebuild_ids ids st
        | None => None
        end
  end.

(** One turn of [while (texgen.textureLost)]: the flag is cleared and
    the blocks with the IDs [ID_EMPTY + 1 .. length - 1] are rebuilt. *)
Definition rebuild_pass (st : BlockSet num * Texgen num)
    : option (BlockSet num * Texgen num) :=
  let '(bs, texgen) := st in
  let texgen := set_textureLost texgen false in
  let l := length (types bs) in
  rebuild_ids (seq 1 (l - 1)) (bs, texgen).

End BlockSetRebuild.

(** ** A concrete reading of the interfaces

    Exact rationals for the numbers (texture coordinates are quotients by
    a power of two, which doubles represent exactly), the clamped byte
    conversion of an ImageData array for stores (nearest integer, a tie
    going to the even one, within 0..255), and a two-element family of
    symmetries: the identity and the mirror image in x.  A quotient by
    zero, which is an infinity or NaN in the source, has no rational
    value: [Qdiv] gives 0 there, and no statement below rests on what
    such a quotient is. *)

Definition Q_to_byte (q : Q) : Z :=
  let f := Qfloor q in
  let n :=
    match Qcompare (Qminus q (inject_Z f)) (1 # 2) with
    | Lt => f
    | Eq => if Z.even f then f else f + 1
    | Gt => f + 1
    end in
  Z.max 0 (Z.min 255 n).

#[export] Instance JSNum_Q : JSNum Q := {|
  of_Z := inject_Z;
  nadd := λ a b, Qred (Qplus a b);
  nmul := λ a b, Qred (Qmult a b);
  ndiv := λ a b, Qred (Qdiv a b);
  to_byte := Q_to_byte;
  nundef := 0%Q
|}.

#[export] Instance CubeSymmetry_Q : CubeSymmetry Q := {|
  applyCubeSymmetry := λ rot scale v,
    let '(x, y, z) := v in
    if Nat.odd rot then (Qred (Qmult scale (Qopp x)), Qred (Qmult scale y), Qred (Qmult scale z))
    else (Qred (Qmult scale x), Qred (Qmult scale y), Qred (Qmult scale z));
  isReflection := Nat.odd;
  COUNT := 24
|}.

(** * Properties *)

(** ** The allocator *)

Section AtlasProperties.
Context {num : Type} `{JSNum num}.
Implicit Types (s : Texgen num) (t : string).

(** The shape of an atlas state between two calls.  The tile, with its
    border, fits the surface, so the bitmap has at least one cell. *)
Record atlas_wf (s : Texgen num) : Prop := {
  wf_tile : 1 ≤ tileSize s;
  wf_fits : tileSize s + 2 ≤ textureSize s;
  wf_pow2 : ∃ k, 0 ≤ k ∧ textureSize s = 2 ^ k;
  wf_count : tileCountSqrt s = textureSize s / (tileSize s + 2);
  wf_length : length (tileAllocMap s) = Z.to_nat (tileCountSqrt s * tileCountSqrt s);
  wf_pointer : (freePointer s < length (tileAllocMap s))%nat;
  wf_cells : ∀ i c, tileAllocMap s !! i = Some c → c = 0 ∨ c = 1;
  wf_lost : textureLost s = true → usageMap s = ∅;
  wf_image : images s ≠ [] ∧ width (image s) = textureSize s ∧ height (image s) = textureSize s
}.

(** Live tokens and occupied cells correspond one to one. *)
Record bijection (s : Texgen num) : Prop := {
  bij_occupied : ∀ t i, usageMap s !! t = Some i → tileAllocMap s !! i = Some 1;
  bij_distinct : ∀ t1 t2 i, usageMap s !! t1 = Some i → usageMap s !! t2 = Some i → t1 = t2;
  bij_live : ∀ i, tileAllocMap s !! i = Some 1 → ∃ t, usageMap s !! t = Some i
}.

(** The states an atlas for tiles of side [ts] can be in: what the
    constructor returns, and what the methods, the stores into the pixel
    data and the acknowledgement [texgen.textureLost = false] of
    [freshenTexture] make of such a state. *)
Inductive reachable (ts : Z) : Texgen num → Prop :=
  | reach_new : reachable ts (new_Texgen ts)
  | reach_allocationFor s t :
      reachable ts s → reachable ts (fst (allocationFor s t))
  | reach_deallocateUsage s t :
      reachable ts s → reachable ts (deallocateUsage s t)
  | reach_completed s t :
      reachable ts s → reachable ts (completed s t)
  | reach_write s r i v :
      reachable ts s → reachable ts (write_byte s r i v)
  | reach_acknowledge s :
      reachable ts s → reachable ts (set_textureLost s false).

Lemma set_freePointer_id s : set_freePointer s (freePointer s) = s.
Proof. by destruct s. Qed.

Lemma enlargeTexture_set_freePointer s p :
  enlargeTexture (set_freePointer s p) = enlargeTexture s.
Proof. done. Qed.

Lemma occupied_at_false m i :
  (∀ j c, m !! j = Some c → c = 0 ∨ c = 1) → (i < length m)%nat →
  occupied_at m i = false ↔ m !! i = Some 0.
Proof.
  intros Hc Hi. unfold occupied_at.
  destruct (lookup_lt_is_Some_2 m i Hi) as [c Hic]. rewrite Hic.
  destruct (Hc _ _ Hic) as [-> | ->]; simpl; split; congruence.
Qed.

Lemma occupied_at_true m i :
  (∀ j c, m !! j = Some c → c = 0 ∨ c = 1) →
  occupied_at m i = true ↔ m !! i = Some 1.
Proof.
  intros Hc. unfold occupied_at. destruct (m !! i) as [c|] eqn:Hic.
  - destruct (Hc _ _ Hic) as [-> | ->]; simpl; split; congruence.
  - split; congruence.
Qed.

(** The scan finds the cell at offset [j] from the cursor when the cells
    before it are occupied and it is not. *)
Lemma tileAlloc_loop_found j : ∀ fuel s n,
  let L := length (tileAllocMap s) in
  (freePointer s < L)%nat →
  (∀ k, (k < j)%nat → occupied_at (tileAllocMap s) ((freePointer s + k) `mod` L)%nat = true) →
  occupied_at (tileAllocMap s) ((freePointer s + j) `mod` L)%nat = false →
  (n + j < L)%nat → (j ≤ fuel)%nat →
  tileAlloc_loop fuel s n =
    Some (set_tileAllocMap (set_freePointer s ((freePointer s + j) `mod` L)%nat)
            (<[((freePointer s + j) `mod` L)%nat := 1]> (tileAllocMap s)),
          ((freePointer s + j) `mod` L)%nat, false).
Proof.
  induction j as [|j IH]; intros fuel s n L Hp Hocc Hfree Hn Hfuel.
  - rewrite Nat.add_0_r, Nat.mod_small in * by done.
    destruct fuel; simpl; rewrite Hfree, set_freePointer_id; done.
  - destruct fuel as [|fuel]; [lia|].
    pose proof (Hocc 0%nat ltac:(lia)) as H0.
    rewrite Nat.add_0_r, Nat.mod_small in H0 by done.
    simpl. rewrite H0.
    destruct (Nat.leb_spec (length (tileAllocMap s)) (S n)); [subst L; lia|].
    assert (Hstep : ∀ k, (((freePointer s + 1) `mod` L + k) `mod` L
                          = (freePointer s + S k) `mod` L)%nat).
    { intros k. rewrite Nat.Div0.add_mod_idemp_l. f_equal. lia. }
    rewrite (IH fuel _ (S n)); simpl; fold L.
    + by rewrite Hstep.
    + apply Nat.mod_upper_bound. lia.
    + intros k Hk. rewrite Hstep. apply Hocc. lia.
    + by rewrite Hstep.
    + lia.
    + lia.
Qed.

(** The scan enlarges the texture when every cell it can still visit is
    occupied. *)
Lemma tileAlloc_loop_full : ∀ fuel s n,
  let L := length (tileAllocMap s) in
  (freePointer s < L)%nat → (n < L)%nat →
  (∀ k, (k < L - n)%nat → occupied_at (tileAllocMap s) ((freePointer s + k) `mod` L)%nat = true) →
  (L - n - 1 ≤ fuel)%nat →
  tileAlloc_loop fuel s n = Some (enlargeTexture s, 0%nat, true).
Proof.
  induction fuel as [|fuel IH]; intros s n L Hp Hn Hocc Hfuel.
  - pose proof (Hocc 0%nat ltac:(lia)) as H0.
    rewrite Nat.add_0_r, Nat.mod_small in H0 by done.
    simpl. rewrite H0.
    destruct (Nat.leb_spec (length (tileAllocMap s)) (S n)); [done|subst L; lia].
  - pose proof (Hocc 0%nat ltac:(lia)) as H0.
    rewrite Nat.add_0_r, Nat.mod_small in H0 by done.
    simpl. rewrite H0.
    destruct (Nat.leb_spec (length (tileAllocMap s)) (S n)); [done|].
    rewrite IH; simpl; fold L.
    + done.
    + apply Nat.mod_upper_bound. lia.
    + lia.
    + intros k Hk. rewrite Nat.Div0.add_mod_idemp_l.
      replace (freePointer s + 1 + k)%nat with (freePointer s + S k)%nat by lia.
      apply Hocc. lia.
    + lia.
Qed.

(** Either the first [n] offsets from [p] are all occupied, or there is a
    first free one among them. *)
Lemma first_free_offset (m : list Z) (p n : nat) :
  (∀ k, (k < n)%nat → occupied_at m ((p + k) `mod` length m)%nat = true) ∨
  (∃ j, (j < n)%nat ∧ occupied_at m ((p + j) `mod` length m)%nat = false ∧
        ∀ k, (k < j)%nat → occupied_at m ((p + k) `mod` length m)%nat = true).
Proof.
  induction n as [|n [IH | (j & Hj & Hf & Hb)]].
  - left. lia.
  - destruct (occupied_at m ((p + n) `mod` length m)%nat) eqn:Hn.
    + left. intros k Hk. destruct (decide (k = n)) as [-> | ]; [done|]. apply IH. lia.
    + right. exists n. split; [lia|]. split; [done|]. done.
  - right. exists j. split; [lia|]. done.
Qed.

(** Every cell is at some offset below the length from the cursor. *)
Lemma offset_of_cell (L p i : nat) :
  (p < L)%nat → (i < L)%nat → ∃ k, (k < L)%nat ∧ ((p + k) `mod` L)%nat = i.
Proof.
  intros Hp Hi. destruct (decide (p ≤ i)%nat).
  - exists (i - p)%nat. split; [lia|]. rewrite Nat.mod_small; lia.
  - exists (L - p + i)%nat. split; [lia|].
    replace (p + (L - p + i))%nat with (i + 1 * L)%nat by lia.
    rewrite Nat.Div0.mod_add. rewrite Nat.mod_small; lia.
Qed.

(** The loop of [tileAlloc] ends within the budget it is given, in any
    state: the counter [n] reaches the length of the bitmap first. *)
Lemma tileAlloc_loop_some fuel : ∀ s n,
  (length (tileAllocMap s) - n ≤ fuel + 1)%nat → is_Some (tileAlloc_loop fuel s n).
Proof.
  induction fuel as [|fuel IH]; intros s n Hn; simpl;
    destruct (occupied_at (tileAllocMap s) (freePointer s)); try done;
    destruct (Nat.leb_spec (length (tileAllocMap s)) (S n)); try done; [lia|].
  apply IH. simpl. lia.
Qed.

Lemma tileAlloc_loop_total s : is_Some (tileAlloc_loop (length (tileAllocMap s)) s 0).
Proof. apply tileAlloc_loop_some. lia. Qed.

(** The state after token [t] has been given the free cell [i]. *)
Definition allocated (s : Texgen num) (t : string) (i : nat) : Texgen num :=
  set_usageMap
    (set_tileAllocMap (set_freePointer s i) (<[i := 1]> (tileAllocMap s)))
    (<[t := i]> (usageMap s)).

(** The two outcomes of [allocationFor] for a token that has no tile yet:
    the first free cell in cursor order, or growth when there is none. *)
Lemma allocationFor_fresh s t (L := length (tileAllocMap s)) :
  atlas_wf s → textureLost s = false → usageMap s !! t = None →
  (∃ j, (j < L)%nat ∧
        tileAllocMap s !! ((freePointer s + j) `mod` L)%nat = Some 0 ∧
        (∀ k, (k < j)%nat → tileAllocMap s !! ((freePointer s + k) `mod` L)%nat = Some 1) ∧
        allocationFor s t =
          (allocated s t ((freePointer s + j) `mod` L)%nat,
           tileCoords s ((freePointer s + j) `mod` L)%nat)) ∨
  ((∀ i, (i < L)%nat → tileAllocMap s !! i = Some 1) ∧
   allocationFor s t = (enlargeTexture s, (0, 0))).
Proof.
  intros Hwf Hlost Hnone.
  pose proof (wf_pointer s Hwf) as Hp. pose proof (wf_cells s Hwf) as Hc.
  unfold allocationFor. rewrite Hlost, Hnone. unfold tileAlloc.
  destruct (first_free_offset (tileAllocMap s) (freePointer s) L)
    as [Hall | (j & Hj & Hf & Hb)].
  - right. split.
    + intros i Hi. destruct (offset_of_cell L (freePointer s) i Hp Hi) as (k & Hk & <-).
      apply occupied_at_true; auto.
    + rewrite tileAlloc_loop_full; [done|done|lia| |lia].
      intros k Hk. apply Hall. unfold L. lia.
  - left. exists j. split; [done|].
    assert ((freePointer s + j) `mod` L < L)%nat by (apply Nat.mod_upper_bound; lia).
    split; [by apply occupied_at_false|].
    split; [intros k Hk; apply occupied_at_true; auto|].
    rewrite (tileAlloc_loop_found j); [done|done|done|done|lia|unfold L in *; lia].
Qed.

Lemma allocationFor_lost s t :
  textureLost s = true → allocationFor s t = (s, (0, 0)).
Proof. intros Hl. unfold allocationFor. by rewrite Hl. Qed.

Lemma allocationFor_known s t i :
  textureLost s = false → usageMap s !! t = Some i →
  allocationFor s t = (s, tileCoords s i).
Proof. intros Hl Hi. unfold allocationFor. by rewrite Hl, Hi. Qed.

(** *** The shape is kept *)

Lemma pow2_ge_1 k : 0 ≤ k → 1 ≤ 2 ^ k.
Proof. intros. pose proof (Z.pow_pos_nonneg 2 k). lia. Qed.

Lemma enlargeTexture_wf s :
  1 ≤ tileSize s → tileSize s + 2 ≤ textureSize s * 2 →
  (∃ k, 0 ≤ k ∧ textureSize s = 2 ^ k) →
  atlas_wf (enlargeTexture s).
Proof.
  intros Ht Hfit (k & Hk & Hpow).
  assert (Hq : 1 ≤ textureSize s * 2 / (tileSize s + 2)).
  { apply Z.div_le_lower_bound; lia. }
  split; simpl; unfold borderTileSize.
  - done.
  - done.
  - exists (k + 1). split; [lia|]. rewrite Z.pow_add_r, Hpow by lia. lia.
  - done.
  - by rewrite length_replicate.
  - rewrite length_replicate. nia.
  - intros i c [-> _]%lookup_replicate. by left.
  - done.
  - split; [by destruct (images s)|].
    unfold image, image_at, image_ref. simpl.
    rewrite length_app. simpl.
    replace (pred (length (images s) + 1)) with (length (images s) + 0)%nat by lia.
    rewrite lookup_app_r by lia.
    replace (length (images s) + 0 - length (images s))%nat with 0%nat by lia.
    done.
Qed.

Lemma new_Texgen_wf ts : 1 ≤ ts ≤ 254 → atlas_wf (new_Texgen ts).
Proof.
  intros Hts. apply enlargeTexture_wf; simpl; [lia|lia|].
  exists 7. split; [lia|done].
Qed.

Lemma image_set_images s l :
  length l = length (images s) → image_ref (set_images s l) = image_ref s.
Proof. intros Hl. unfold image_ref. simpl. by rewrite Hl. Qed.

Lemma data_set_width img i v : width (data_set img i v) = width img.
Proof. unfold data_set. by destruct (in_data img i). Qed.

Lemma data_set_height img i v : height (data_set img i v) = height img.
Proof. unfold data_set. by destruct (in_data img i). Qed.

(** A change of the pixel data that keeps the dimensions of every surface
    keeps the shape. *)
Lemma set_images_alter_wf s (f : ImageData → ImageData) r :
  (∀ img, width (f img) = width img ∧ height (f img) = height img) →
  atlas_wf s → atlas_wf (set_images s (alter f r (images s))).
Proof.
  intros Hf [Ht Hfit Hpow Hcount Hlen Hp Hc Hl (Hne & Hw & Hh)].
  split; simpl; try done.
  split; [intros Hnil; apply Hne; apply (f_equal length) in Hnil;
          rewrite length_alter in Hnil; by destruct (images s)|].
  unfold image, image_at, image_ref in *. simpl. rewrite length_alter.
  destruct (decide (r = pred (length (images s)))) as [-> | Hne'].
  - rewrite list_lookup_alter_eq.
    destruct (images s !! pred (length (images s))) as [img|] eqn:E; simpl in *.
    + destruct (Hf img) as [-> ->]. done.
    + done.
  - rewrite list_lookup_alter_ne by done. done.
Qed.

Lemma write_byte_wf s r i v : atlas_wf s → atlas_wf (write_byte s r i v).
Proof.
  apply set_images_alter_wf. intros img.
  by rewrite data_set_width, data_set_height.
Qed.

Lemma allocated_wf s t i :
  atlas_wf s → textureLost s = false → (i < length (tileAllocMap s))%nat →
  atlas_wf (allocated s t i).
Proof.
  intros [Ht Hfit Hpow Hcount Hlen Hp Hc Hl Himg] Hlost Hi.
  split; simpl; try done.
  - by rewrite length_insert.
  - by rewrite length_insert.
  - intros j c. destruct (decide (i = j)) as [-> | Hne].
    + rewrite list_lookup_insert_eq by done. intros [= <-]. by right.
    + rewrite list_lookup_insert_ne by done. apply Hc.
  - congruence.
Qed.

Lemma allocationFor_wf s t : atlas_wf s → atlas_wf (fst (allocationFor s t)).
Proof.
  intros Hwf. destruct (textureLost s) eqn:Hlost.
  { by rewrite allocationFor_lost. }
  destruct (usageMap s !! t) as [i|] eqn:Hi.
  { by rewrite (allocationFor_known s t i). }
  destruct (allocationFor_fresh s t Hwf Hlost Hi) as [(j & Hj & _ & _ & ->) | [_ ->]]; simpl.
  - apply allocated_wf; [done|done|]. apply Nat.mod_upper_bound. lia.
  - destruct Hwf. apply enlargeTexture_wf; [done|lia|done].
Qed.

Lemma deallocateUsage_wf s t : atlas_wf s → atlas_wf (deallocateUsage s t).
Proof.
  intros Hwf. unfold deallocateUsage. destruct (textureLost s) eqn:Hlost; [done|].
  destruct Hwf as [Ht Hfit Hpow Hcount Hlen Hp Hc Hl Himg].
  destruct (usageMap s !! t) as [i|]; split; simpl; try done; try congruence.
  - by rewrite length_insert.
  - by rewrite length_insert.
  - intros j c [(_ & <- & _) | [_ Hj]]%list_lookup_insert_Some; [by left|].
    by apply (Hc j).
Qed.

Lemma imageCoordsFor_fst s t : fst (imageCoordsFor s t) = fst (allocationFor s t).
Proof. unfold imageCoordsFor. by destruct (allocationFor s t). Qed.

Lemma uvFor_fst s t : fst (uvFor s t) = fst (allocationFor s t).
Proof. unfold uvFor. by destruct (allocationFor s t). Qed.

Lemma copy_dims img dst src :
  width (copy img dst src) = width img ∧ height (copy img dst src) = height img.
Proof. unfold copy. by rewrite !data_set_width, !data_set_height. Qed.

Lemma completed_image_dims ts coords img :
  width (completed_image ts coords img) = width img ∧
  height (completed_image ts coords img) = height img.
Proof.
  unfold completed_image.
  assert (Hfold : ∀ (f : ImageData → Z → ImageData) l a,
            (∀ a x, width (f a x) = width a ∧ height (f a x) = height a) →
            width (foldl f a l) = width a ∧ height (foldl f a l) = height a).
  { intros f l. induction l as [|x l IH]; intros a Hf; simpl; [done|].
    destruct (IH (f a x) Hf) as [-> ->]. apply Hf. }
  pose proof (Hfold
    (λ img0 y, copy (copy img0 (pix coords (width img) (-1) y) (pix coords (width img) 0 y))
                 (pix coords (width img) ts y) (pix coords (width img) (ts - 1) y))) as H2.
  pose proof (Hfold
    (λ img0 x, copy (copy img0 (pix coords (width img) x (-1)) (pix coords (width img) x 0))
                 (pix coords (width img) x ts) (pix coords (width img) x (ts - 1)))) as H1.
  destruct (H2 (seqZ (-1) (ts + 2))
              (foldl (λ img0 x, copy (copy img0 (pix coords (width img) x (-1))
                                        (pix coords (width img) x 0))
                                  (pix coords (width img) x ts)
                                  (pix coords (width img) x (ts - 1)))
                 img (seqZ 0 ts))) as [-> ->].
  { intros a x. destruct (copy_dims (copy a (pix coords (width img) (-1) x)
                                       (pix coords (width img) 0 x))
                            (pix coords (width img) ts x)
                            (pix coords (width img) (ts - 1) x)) as [-> ->].
    apply copy_dims. }
  apply H1. intros a x.
  destruct (copy_dims (copy a (pix coords (width img) x (-1)) (pix coords (width img) x 0))
              (pix coords (width img) x ts) (pix coords (width img) x (ts - 1))) as [-> ->].
  apply copy_dims.
Qed.

Lemma completed_eq s t :
  completed s t =
    set_images (fst (allocationFor s t))
      (alter (completed_image (tileSize (fst (allocationFor s t))) (snd (imageCoordsFor s t)))
         (image_ref (fst (allocationFor s t))) (images (fst (allocationFor s t)))).
Proof. unfold completed, imageCoordsFor. by destruct (allocationFor s t). Qed.

Lemma completed_wf s t : atlas_wf s → atlas_wf (completed s t).
Proof.
  intros Hwf. rewrite completed_eq.
  apply set_images_alter_wf; [apply completed_image_dims|by apply allocationFor_wf].
Qed.

Lemma acknowledge_wf s : atlas_wf s → atlas_wf (set_textureLost s false).
Proof. intros []. split; simpl; done. Qed.

Lemma reachable_wf ts s : 1 ≤ ts ≤ 254 → reachable ts s → atlas_wf s.
Proof.
  intros Hts. induction 1;
    auto using new_Texgen_wf, allocationFor_wf, deallocateUsage_wf, completed_wf,
      write_byte_wf, acknowledge_wf.
Qed.

(** *** The correspondence is kept *)

Lemma enlargeTexture_bijection s : bijection (enlargeTexture s).
Proof.
  split; simpl.
  - intros t i. by rewrite lookup_empty.
  - intros t1 t2 i. by rewrite lookup_empty.
  - intros i [? _]%lookup_replicate. done.
Qed.

Lemma allocated_bijection s t i :
  bijection s → usageMap s !! t = None → tileAllocMap s !! i = Some 0 →
  bijection (allocated s t i).
Proof.
  intros [Hocc Hinj Hlive] Hnone Hfree.
  assert (Hi : (i < length (tileAllocMap s))%nat) by (by eapply lookup_lt_Some).
  split; simpl.
  - intros t' i'. destruct (decide (t = t')) as [<- | Hne].
    + rewrite lookup_insert_eq. intros [= <-]. by apply list_lookup_insert_eq.
    + rewrite lookup_insert_ne by done. intros Ht'.
      pose proof (Hocc _ _ Ht') as Ho.
      rewrite list_lookup_insert_ne; [done|]. intros ->. congruence.
  - intros t1 t2 i'. destruct (decide (t = t1)) as [<- | Hne1];
      destruct (decide (t = t2)) as [<- | Hne2]; [done|..].
    + rewrite lookup_insert_eq, lookup_insert_ne by done. intros [= <-] Ht2.
      apply Hocc in Ht2. congruence.
    + rewrite lookup_insert_eq, lookup_insert_ne by done. intros Ht1 [= <-].
      apply Hocc in Ht1. congruence.
    + rewrite !lookup_insert_ne by done. apply Hinj.
  - intros i'. destruct (decide (i = i')) as [<- | Hne].
    + intros _. exists t. by rewrite lookup_insert_eq.
    + rewrite list_lookup_insert_ne by done. intros [t' Ht']%Hlive.
      exists t'. rewrite lookup_insert_ne; [done|]. intros <-. congruence.
Qed.

Lemma allocationFor_bijection s t :
  atlas_wf s → bijection s → bijection (fst (allocationFor s t)).
Proof.
  intros Hwf Hbij. destruct (textureLost s) eqn:Hlost.
  { by rewrite allocationFor_lost. }
  destruct (usageMap s !! t) as [i|] eqn:Hi.
  { by rewrite (allocationFor_known s t i). }
  destruct (allocationFor_fresh s t Hwf Hlost Hi) as [(j & Hj & Hf & _ & ->) | [_ ->]]; simpl.
  - by apply allocated_bijection.
  - apply enlargeTexture_bijection.
Qed.

Lemma deallocateUsage_bijection s t : bijection s → bijection (deallocateUsage s t).
Proof.
  intros Hbij. unfold deallocateUsage. destruct (textureLost s); [done|].
  destruct Hbij as [Hocc Hinj Hlive].
  destruct (usageMap s !! t) as [i|] eqn:Hi; split; simpl.
  - intros t' i'. destruct (decide (t = t')) as [<- | Hne].
    + by rewrite lookup_delete_eq.
    + rewrite lookup_delete_ne by done. intros Ht'.
      rewrite list_lookup_insert_ne; [by eapply Hocc|].
      intros <-. apply Hne. by eapply Hinj.
  - intros t1 t2 i' [_ H1]%lookup_delete_Some [_ H2]%lookup_delete_Some. by eapply Hinj.
  - intros i' [(_ & ? & _) | [Hne Ho]]%list_lookup_insert_Some; [done|].
    destruct (Hlive _ Ho) as [t' Ht']. exists t'.
    rewrite lookup_delete_ne; [done|]. intros <-. congruence.
  - intros t' i' [_ H1]%lookup_delete_Some. by eapply Hocc.
  - intros t1 t2 i' [_ H1]%lookup_delete_Some [_ H2]%lookup_delete_Some. by eapply Hinj.
  - intros i' Ho. destruct (Hlive _ Ho) as [t' Ht']. exists t'.
    rewrite lookup_delete_ne; [done|]. intros <-. congruence.
Qed.

Lemma set_images_bijection s l : bijection s → bijection (set_images s l).
Proof. intros []. by split. Qed.

Lemma reachable_bijection ts s : 1 ≤ ts ≤ 254 → reachable ts s → bijection s.
Proof.
  intros Hts. induction 1 as [|s t Hr IH|s t Hr IH|s t Hr IH|s r i v Hr IH|s Hr IH].
  - apply enlargeTexture_bijection.
  - apply allocationFor_bijection; [by eapply reachable_wf|done].
  - by apply deallocateUsage_bijection.
  - rewrite completed_eq. apply set_images_bijection.
    apply allocationFor_bijection; [by eapply reachable_wf|done].
  - by apply set_images_bijection.
  - destruct IH. by split.
Qed.

(** *** Size of the surface and of the bitmap *)

(** What holds of the sizes for any tile size, also when no tile fits. *)
Record atlas_shape (s : Texgen num) : Prop := {
  shape_pow2 : ∃ k, 0 ≤ k ∧ textureSize s = 2 ^ k;
  shape_count : tileCountSqrt s = textureSize s / (tileSize s + 2);
  shape_length : length (tileAllocMap s) = Z.to_nat (tileCountSqrt s * tileCountSqrt s)
}.

Lemma enlargeTexture_shape s :
  (∃ k, 0 ≤ k ∧ textureSize s = 2 ^ k) → atlas_shape (enlargeTexture s).
Proof.
  intros (k & Hk & Hpow). split; simpl; unfold borderTileSize.
  - exists (k + 1). split; [lia|]. rewrite Z.pow_add_r, Hpow by lia. lia.
  - done.
  - by rewrite length_replicate.
Qed.

(** The loop of [tileAlloc] either marks one cell or enlarges. *)
Lemma tileAlloc_loop_outcome fuel : ∀ s n s' i e,
  tileAlloc_loop fuel s n = Some (s', i, e) →
  (e = false ∧ s' = set_tileAllocMap (set_freePointer s i) (<[i := 1]> (tileAllocMap s))) ∨
  (e = true ∧ i = 0%nat ∧ s' = enlargeTexture s).
Proof.
  induction fuel as [|fuel IH]; intros s n s' i e; simpl.
  - destruct (occupied_at (tileAllocMap s) (freePointer s)).
    + destruct (length (tileAllocMap s) <=? S n)%nat; intros Hr; simplify_eq. by right.
    + intros Hr. simplify_eq. left. by rewrite set_freePointer_id.
  - destruct (occupied_at (tileAllocMap s) (freePointer s)).
    + destruct (length (tileAllocMap s) <=? S n)%nat; intros Hr.
      * simplify_eq. by right.
      * apply IH in Hr as [[-> ->] | (-> & -> & ->)]; [left|right]; repeat split; reflexivity.
    + intros Hr. simplify_eq. left. by rewrite set_freePointer_id.
Qed.

Lemma tileAlloc_outcome s :
  let '(s', i, e) := tileAlloc s in
  (e = false ∧ s' = set_tileAllocMap (set_freePointer s i) (<[i := 1]> (tileAllocMap s))) ∨
  (e = true ∧ i = 0%nat ∧ s' = enlargeTexture s).
Proof.
  unfold tileAlloc. destruct (tileAlloc_loop_total s) as [[[s' i] e] Hr].
  rewrite Hr. simpl. by apply tileAlloc_loop_outcome in Hr.
Qed.

Lemma allocationFor_size s t :
  let s' := fst (allocationFor s t) in
  (textureSize s' = textureSize s ∧ tileSize s' = tileSize s ∧
   tileCountSqrt s' = tileCountSqrt s ∧ length (tileAllocMap s') = length (tileAllocMap s) ∧
   textureLost s' = textureLost s) ∨
  (s' = enlargeTexture s).
Proof.
  unfold allocationFor. destruct (textureLost s) eqn:Hl; [by left|].
  destruct (usageMap s !! t); [by left|].
  pose proof (tileAlloc_outcome s) as Ho.
  destruct (tileAlloc s) as [[s1 i] e].
  destruct Ho as [[-> ->] | (-> & -> & ->)]; simpl; [left|by right].
  by rewrite length_insert.
Qed.

Lemma allocationFor_shape s t : atlas_shape s → atlas_shape (fst (allocationFor s t)).
Proof.
  intros Hs. destruct (allocationFor_size s t) as [(H1 & H2 & H3 & H4 & _) | ->].
  - destruct Hs as [Hp Hc Hlen]. split; rewrite ?H1, ?H2, ?H3, ?H4; done.
  - apply enlargeTexture_shape. by destruct Hs.
Qed.

Lemma reachable_shape ts s : reachable ts s → atlas_shape s ∧ tileSize s = ts.
Proof.
  induction 1 as [|s t Hr [IH1 IH2]|s t Hr [IH1 IH2]|s t Hr [IH1 IH2]
                 |s r i v Hr [IH1 IH2]|s Hr [IH1 IH2]].
  - split; [|done]. apply enlargeTexture_shape. exists 7. split; [lia|done].
  - split; [by apply allocationFor_shape|].
    destruct (allocationFor_size s t) as [(_ & -> & _) | ->]; done.
  - unfold deallocateUsage. destruct (textureLost s); [done|].
    destruct IH1 as [Hp Hc Hlen].
    destruct (usageMap s !! t); (split; [split|]); simpl; try done.
    by rewrite length_insert.
  - rewrite completed_eq. pose proof (allocationFor_shape s t IH1) as [Hp Hc Hlen].
    split; [by split|]. simpl.
    destruct (allocationFor_size s t) as [(_ & -> & _) | ->]; done.
  - destruct IH1. by split.
  - destruct IH1. by split.
Qed.

Lemma image_enlargeTexture s :
  image (enlargeTexture s) = createImageData (textureSize s * 2) (textureSize s * 2).
Proof.
  unfold image, image_at, image_ref. simpl. rewrite length_app. simpl.
  replace (pred (length (images s) + 1)) with (length (images s) + 0)%nat by lia.
  by rewrite lookup_app_r, Nat.add_0_r, Nat.sub_diag by lia.
Qed.

(** *** The statements about the allocator *)

(** X24: in every state that an atlas whose bordered tile fits the
    initial surface (tile side 1 to 254) can reach, so in particular at
    every quiescent point, the occupied cells of [tileAllocMap] (entries
    equal to 1) and the tokens registered in [usageMap] correspond one
    to one, and [allocationFor], [deallocateUsage] and [enlargeTexture]
    lead to states where they still do. *)
Theorem bijection_invariant (ts : Z) (s : Texgen num) :
  1 ≤ ts ≤ 254 → reachable ts s →
  bijection s ∧
  (∀ t, bijection (fst (allocationFor s t))) ∧
  (∀ t, bijection (deallocateUsage s t)) ∧
  bijection (enlargeTexture s).
Proof.
  intros Hts Hr. split; [by eapply reachable_bijection|].
  split; [|split].
  - intros t. eapply reachable_bijection; [done|]. by constructor.
  - intros t. eapply reachable_bijection; [done|]. by constructor.
  - apply enlargeTexture_bijection.
Qed.

(** X25: [allocationFor] for a plain token on a well-formed atlas (the
    grid has at least one cell) whose surface is not lost.  A token that
    has a tile gets its coordinates and nothing changes.  A token that
    has none gets the first free cell in circular order from
    [freePointer], if there is a free cell: the cell is marked, the
    cursor moves to it, the token is registered there and the cell's
    (row, column) is returned.  If there is no free cell the texture is
    enlarged (size doubled, tile count and UV sizes recomputed, fresh
    zeroed image and bitmap, empty token map, [textureLost] set) and
    (0, 0) is returned, the token not being in the new map. *)
Theorem allocationFor_correct (s : Texgen num) (t : string)
    (L := length (tileAllocMap s)) :
  plain_token t → atlas_wf s → textureLost s = false →
  (∀ i, usageMap s !! t = Some i →
     allocationFor s t =
       (s, (Z.of_nat i / tileCountSqrt s, Z.of_nat i `mod` tileCountSqrt s))) ∧
  (usageMap s !! t = None → (∃ i, tileAllocMap s !! i = Some 0) →
     ∃ j, (j < L)%nat ∧
       let i := ((freePointer s + j) `mod` L)%nat in
       tileAllocMap s !! i = Some 0 ∧
       (∀ k, (k < j)%nat → tileAllocMap s !! ((freePointer s + k) `mod` L)%nat = Some 1) ∧
       allocationFor s t =
         (allocated s t i,
          (Z.of_nat i / tileCountSqrt s, Z.of_nat i `mod` tileCountSqrt s)) ∧
       tileAllocMap (allocated s t i) = <[i := 1]> (tileAllocMap s) ∧
       freePointer (allocated s t i) = i ∧
       usageMap (allocated s t i) = <[t := i]> (usageMap s)) ∧
  (usageMap s !! t = None → (∀ i, (i < L)%nat → tileAllocMap s !! i = Some 1) →
     let s' := fst (allocationFor s t) in
     snd (allocationFor s t) = (0, 0) ∧
     textureSize s' = 2 * textureSize s ∧
     tileSize s' = tileSize s ∧
     tileCountSqrt s' = textureSize s' / (tileSize s + 2) ∧
     0 < tileCountSqrt s' ∧
     tileUVSize s' = ndiv (of_Z (tileSize s)) (of_Z (textureSize s')) ∧
     borderUVOffset s' = ndiv (of_Z 1) (of_Z (textureSize s')) ∧
     borderTileUVSize s' = ndiv (of_Z (tileSize s + 2)) (of_Z (textureSize s')) ∧
     image s' = createImageData (textureSize s') (textureSize s') ∧
     tileAllocMap s' = replicate (Z.to_nat (tileCountSqrt s' * tileCountSqrt s')) 0 ∧
     freePointer s' = 0%nat ∧
     usageMap s' = ∅ ∧
     textureLost s' = true).
Proof.
  intros _ Hwf Hlost. split; [|split].
  - intros i Hi. by rewrite (allocationFor_known s t i).
  - intros Hnone [i Hi].
    destruct (allocationFor_fresh s t Hwf Hlost Hnone)
      as [(j & Hj & Hf & Hb & Heq) | [Hall _]].
    + exists j. by repeat split.
    + assert (i < L)%nat by (by eapply lookup_lt_Some).
      rewrite Hall in Hi by done. done.
  - intros Hnone Hall.
    destruct (allocationFor_fresh s t Hwf Hlost Hnone)
      as [(j & Hj & Hf & _) | [_ Heq]].
    + rewrite Hall in Hf; [done|]. apply Nat.mod_upper_bound. lia.
    + rewrite Heq. simpl. rewrite image_enlargeTexture.
      replace (textureSize s * 2) with (2 * textureSize s) by lia.
      repeat split.
      destruct Hwf. unfold borderTileSize. apply Z.div_str_pos. lia.
Qed.

(** C3: while [textureLost] is set, [allocationFor] returns (0, 0) and
    [deallocateUsage] returns at once, neither changing the atlas; when
    it is clear, [deallocateUsage] clears the cell of the token in the
    bitmap and removes the token from the usage map. *)
Theorem lost_surface_inhibits (s : Texgen num) (t : string) :
  (textureLost s = true →
     allocationFor s t = (s, (0, 0)) ∧ deallocateUsage s t = s) ∧
  (textureLost s = false →
     usageMap (deallocateUsage s t) = delete t (usageMap s) ∧
     (∀ i, usageMap s !! t = Some i →
        tileAllocMap (deallocateUsage s t) = <[i := 0]> (tileAllocMap s)) ∧
     (usageMap s !! t = None →
        tileAllocMap (deallocateUsage s t) = tileAllocMap s)).
Proof.
  unfold allocationFor, deallocateUsage. split; intros ->; [done|].
  destruct (usageMap s !! t) as [i|] eqn:Hi; simpl; repeat split; try done.
  by intros i' [= <-].
Qed.

(** C9, as the code has it: the surface of a new atlas has side 256 (the
    initial 128, doubled by the [enlargeTexture()] call of the
    constructor); in every reachable state [textureSize] is a power of
    two, a call of [allocationFor] leaves it as it is or, when it
    enlarges the texture, doubles it, and the bitmap has
    [tileCountSqrt * tileCountSqrt] cells with
    [tileCountSqrt = floor (textureSize / (tileSize + 2))]. *)
Theorem texture_size_powers (ts : Z) (s : Texgen num) :
  1 ≤ ts → reachable ts s →
  textureSize (new_Texgen ts) = 256 ∧
  width (image (new_Texgen ts)) = 256 ∧
  height (image (new_Texgen ts)) = 256 ∧
  (∃ k, 0 ≤ k ∧ textureSize s = 2 ^ k) ∧
  textureSize (enlargeTexture s) = 2 * textureSize s ∧
  (∀ t, fst (allocationFor s t) = enlargeTexture s ∨
        textureSize (fst (allocationFor s t)) = textureSize s) ∧
  tileSize s = ts ∧
  tileCountSqrt s = textureSize s / (tileSize s + 2) ∧
  length (tileAllocMap s) = Z.to_nat (tileCountSqrt s * tileCountSqrt s).
Proof.
  intros Hts Hr. destruct (reachable_shape ts s Hr) as [[Hp Hc Hlen] Hsz].
  unfold new_Texgen. rewrite image_enlargeTexture. simpl.
  repeat split; try done; try lia.
  intros t. destruct (allocationFor_size s t) as [(-> & _) | ->]; auto.
Qed.

End AtlasProperties.

(** ** Instances of the statements about the allocator *)

(** A surface for tiles of side 1, acknowledged once, with one token. *)
Definition atlas_one_token : Texgen Q :=
  fst (allocationFor (set_textureLost (new_Texgen 1) false) "1").

Lemma atlas_one_token_reachable : reachable 1 atlas_one_token.
Proof. apply reach_allocationFor, reach_acknowledge, reach_new. Qed.

Lemma bijection_invariant_witness :
  bijection atlas_one_token ∧
  (∀ t, bijection (fst (allocationFor atlas_one_token t))) ∧
  (∀ t, bijection (deallocateUsage atlas_one_token t)) ∧
  bijection (enlargeTexture atlas_one_token).
Proof.
  apply (bijection_invariant 1); [lia|apply atlas_one_token_reachable].
Defined.

Lemma texture_size_not_128 : textureSize (new_Texgen 16 : Texgen Q) ≠ 128.
Proof. vm_compute. discriminate. Qed.

(** A surface for tiles of side 255, acknowledged once: the bordered
    tile, of side 257, does not fit the surface of side 256, so the grid
    has no cell. *)
Definition atlas_no_cell : Texgen Q := set_textureLost (new_Texgen 255) false.

(** C1 at tile side 255.  The bitmap of the new atlas is empty; the loop
    of [tileAlloc] is not entered, the store of the 1 is dropped and the
    token is registered at cell 0 without any growth.  The state is one
    the methods reach, its surface is not lost, and its live token has
    no occupied cell: tokens and occupied cells do not correspond. *)
Theorem bijection_no_cell :
  let s := fst (allocationFor atlas_no_cell "a") in
  reachable 255 s ∧
  textureLost s = false ∧
  textureSize s = 256 ∧
  usageMap s !! "a" = Some 0%nat ∧
  tileAllocMap s = [] ∧
  ¬ bijection s.
Proof.
  cbv zeta. split; [apply reach_allocationFor, reach_acknowledge, reach_new|].
  split; [vm_compute; reflexivity|]. split; [vm_compute; reflexivity|].
  assert (Htoken : usageMap (fst (allocationFor atlas_no_cell "a")) !! "a" = Some 0%nat)
    by (vm_compute; reflexivity).
  assert (Hmap : tileAllocMap (fst (allocationFor atlas_no_cell "a")) = [])
    by (vm_compute; reflexivity).
  split; [exact Htoken|]. split; [exact Hmap|].
  intros [Hocc _ _]. specialize (Hocc "a" 0%nat Htoken).
  rewrite Hmap in Hocc. discriminate.
Qed.

(** C2 at tile side 255.  The token is new and the bitmap has no free
    cell, having no cell at all, yet [allocationFor] does not enlarge the
    texture: the size stays 256, [textureLost] stays clear, no new
    surface is created, and the token is registered at cell 0, which
    does not exist.  A second token is given the same cell 0. *)
Theorem allocationFor_no_cell :
  let s := atlas_no_cell in
  let s1 := fst (allocationFor s "a") in
  let s2 := fst (allocationFor s1 "b") in
  textureLost s = false ∧
  usageMap s !! "a" = None ∧
  tileAllocMap s = [] ∧
  (∀ i, tileAllocMap s !! i ≠ Some 0) ∧
  s1 ≠ enlargeTexture s ∧
  textureSize s1 = textureSize s ∧
  textureLost s1 = false ∧
  length (images s1) = length (images s) ∧
  tileAllocMap s1 = [] ∧
  usageMap s1 !! "a" = Some 0%nat ∧
  textureLost s2 = false ∧
  usageMap s2 !! "a" = Some 0%nat ∧
  usageMap s2 !! "b" = Some 0%nat.
Proof.
  cbv zeta.
  split; [vm_compute; reflexivity|]. split; [vm_compute; reflexivity|].
  split; [vm_compute; reflexivity|].
  split; [intros i; change (tileAllocMap atlas_no_cell) with (@nil Z);
          by rewrite lookup_nil|].
  split.
  { intros Heq. apply (f_equal textureLost) in Heq. vm_compute in Heq. discriminate. }
  repeat (split; [vm_compute; reflexivity|]). vm_compute; reflexivity.
Qed.

(** A surface for tiles of side 254 has a single cell. *)
Definition atlas_single_cell : Texgen Q := set_textureLost (new_Texgen 254) false.

Definition atlas_single_cell_full : Texgen Q :=
  fst (allocationFor atlas_single_cell "1").

Lemma atlas_single_cell_wf : atlas_wf atlas_single_cell.
Proof. apply (reachable_wf 254); [lia|]. apply reach_acknowledge, reach_new. Qed.

Lemma atlas_single_cell_full_wf : atlas_wf atlas_single_cell_full.
Proof.
  apply (reachable_wf 254); [lia|].
  apply reach_allocationFor, reach_acknowledge, reach_new.
Qed.

Lemma allocationFor_correct_witness :
  allocationFor atlas_single_cell_full "1" = (atlas_single_cell_full, (0, 0)) ∧
  allocationFor atlas_single_cell "1" = (allocated atlas_single_cell "1" 0, (0, 0)) ∧
  allocationFor atlas_single_cell_full "2" = (enlargeTexture atlas_single_cell_full, (0, 0)) ∧
  textureSize (fst (allocationFor atlas_single_cell_full "2")) = 512 ∧
  usageMap (fst (allocationFor atlas_single_cell_full "2")) !! "2" = None.
Proof.
  assert (Hone : plain_token "1")
    by (unfold plain_token, Object_prototype_names; compute_done).
  assert (Htwo : plain_token "2")
    by (unfold plain_token, Object_prototype_names; compute_done).
  pose proof (allocationFor_correct atlas_single_cell_full "1" Hone
                atlas_single_cell_full_wf eq_refl) as (Hknown & _ & _).
  pose proof (allocationFor_correct atlas_single_cell "1" Hone
                atlas_single_cell_wf eq_refl) as (_ & Hfree & _).
  pose proof (allocationFor_correct atlas_single_cell_full "2" Htwo
                atlas_single_cell_full_wf eq_refl) as (_ & _ & Hfull).
  split; [|split].
  - apply (Hknown 0%nat). vm_compute. reflexivity.
  - destruct Hfree as (j & Hj & _ & _ & Heq & _).
    + vm_compute. reflexivity.
    + exists 0%nat. vm_compute. reflexivity.
    + replace j with 0%nat in Heq; [exact Heq|]. vm_compute in Hj. lia.
  - destruct Hfull as (Hc & Hsize & _ & _ & _ & _ & _ & _ & _ & _ & _ & Hmap & _).
    + vm_compute. reflexivity.
    + intros i Hi. vm_compute in Hi. replace i with 0%nat by lia. vm_compute. reflexivity.
    + split; [vm_compute; reflexivity|]. split; [exact Hsize|]. rewrite Hmap. reflexivity.
Defined.

Lemma lost_surface_inhibits_witness :
  (allocationFor (new_Texgen 1 : Texgen Q) "1" = (new_Texgen 1, (0, 0)) ∧
   deallocateUsage (new_Texgen 1 : Texgen Q) "1" = new_Texgen 1) ∧
  usageMap (deallocateUsage atlas_one_token "1") = delete "1" (usageMap atlas_one_token) ∧
  tileAllocMap (deallocateUsage atlas_one_token "1")
    = <[0%nat := 0]> (tileAllocMap atlas_one_token).
Proof.
  split.
  - apply (lost_surface_inhibits (new_Texgen 1) "1"). reflexivity.
  - destruct (lost_surface_inhibits atlas_one_token "1") as [_ Hclear].
    destruct Hclear as (Hmap & Hcell & _); [reflexivity|].
    split; [exact Hmap|]. apply Hcell. vm_compute. reflexivity.
Defined.

Lemma texture_size_powers_witness :
  textureSize (new_Texgen 1 : Texgen Q) = 256 ∧
  (∃ k, 0 ≤ k ∧ textureSize atlas_one_token = 2 ^ k) ∧
  tileCountSqrt atlas_one_token = textureSize atlas_one_token / (tileSize atlas_one_token + 2) ∧
  length (tileAllocMap atlas_one_token)
    = Z.to_nat (tileCountSqrt atlas_one_token * tileCountSqrt atlas_one_token).
Proof.
  destruct (texture_size_powers 1 atlas_one_token) as (H1 & _ & _ & H2 & _ & _ & _ & H3 & H4).
  - lia.
  - apply atlas_one_token_reachable.
  - exact (conj H1 (conj H2 (conj H3 H4))).
Defined.

(** ** The rotation helpers *)

Section RotationProperties.
Context {num : Type} `{JSNum num} `{CubeSymmetry num}.

(** A vertex array is the concatenation of its corners, three numbers
    each; a texcoord array has two numbers for each corner. *)
Definition flatten3 (vs : list (num * num * num)) : list num :=
  vs ≫= (λ v, [v.1.1; v.1.2; v.2]).

Definition flatten2 (ps : list (num * num)) : list num :=
  ps ≫= (λ p, [p.1; p.2]).

Lemma flatten3_app vs ws : flatten3 (vs ++ ws) = flatten3 vs ++ flatten3 ws.
Proof. unfold flatten3. by rewrite bind_app. Qed.

Lemma flatten2_app ps qs : flatten2 (ps ++ qs) = flatten2 ps ++ flatten2 qs.
Proof. unfold flatten2. by rewrite bind_app. Qed.

Lemma length_flatten3 vs : length (flatten3 vs) = (3 * length vs)%nat.
Proof. induction vs as [|v vs IH]; simpl; [done|]. rewrite IH. lia. Qed.

Lemma length_flatten2 ps : length (flatten2 ps) = (2 * length ps)%nat.
Proof. induction ps as [|p ps IH]; simpl; [done|]. rewrite IH. lia. Qed.

Lemma arr_get_app_r (a b : list num) (k : nat) :
  arr_get (a ++ b) (Z.of_nat (length a) + Z.of_nat k) = default nundef (b !! k).
Proof.
  unfold arr_get. destruct (Z.ltb_spec (Z.of_nat (length a) + Z.of_nat k) 0); [lia|].
  rewrite lookup_app_r by lia. do 2 f_equal. lia.
Qed.

(** Corner [length pre] of an array of corners. *)
Lemma arr_get_corner pre v post :
  let a := flatten3 (pre ++ v :: post) in
  let i := 3 * Z.of_nat (length pre) in
  (arr_get a i, arr_get a (i + 1), arr_get a (i + 2)) = v.
Proof.
  intros a i. subst a i. rewrite flatten3_app.
  replace (3 * Z.of_nat (length pre)) with (Z.of_nat (length (flatten3 pre)) + Z.of_nat 0)
    by (rewrite length_flatten3; lia).
  replace (Z.of_nat (length (flatten3 pre)) + Z.of_nat 0 + 1)
    with (Z.of_nat (length (flatten3 pre)) + Z.of_nat 1) by lia.
  replace (Z.of_nat (length (flatten3 pre)) + Z.of_nat 0 + 2)
    with (Z.of_nat (length (flatten3 pre)) + Z.of_nat 2) by lia.
  rewrite !arr_get_app_r. by destruct v as [[x y] z].
Qed.

Lemma arr_get_pair pre p post :
  let a := flatten2 (pre ++ p :: post) in
  let i := 2 * Z.of_nat (length pre) in
  (arr_get a i, arr_get a (i + 1)) = p.
Proof.
  intros a i. subst a i. rewrite flatten2_app.
  replace (2 * Z.of_nat (length pre)) with (Z.of_nat (length (flatten2 pre)) + Z.of_nat 0)
    by (rewrite length_flatten2; lia).
  replace (Z.of_nat (length (flatten2 pre)) + Z.of_nat 0 + 1)
    with (Z.of_nat (length (flatten2 pre)) + Z.of_nat 1) by lia.
  rewrite !arr_get_app_r. by destruct p as [x y].
Qed.

Lemma pushVertex_flatten3 out v : pushVertex out v = out ++ flatten3 [v].
Proof. by destruct v as [[x y] z]. Qed.

(** The ascending loop, started at corner [length pre]. *)
Lemma rotateVertices_up_corners rot vs : ∀ fuel pre out,
  (length vs ≤ fuel)%nat →
  rotateVertices_up fuel rot (flatten3 (pre ++ vs)) (3 * Z.of_nat (length pre)) out
  = out ++ flatten3 (applyCubeSymmetry rot (of_Z 1) <$> vs).
Proof.
  induction vs as [|v vs IH]; intros fuel pre out Hfuel.
  - rewrite !app_nil_r.
    destruct fuel; cbn [rotateVertices_up]; [done|].
    rewrite (proj2 (Z.ltb_ge _ _)); [done|]. rewrite length_flatten3. lia.
  - destruct fuel as [|fuel]; cbn [length] in Hfuel; [lia|].
    cbn [rotateVertices_up].
    rewrite (proj2 (Z.ltb_lt _ _))
      by (rewrite length_flatten3, length_app; cbn [length]; lia).
    rewrite (arr_get_corner pre v vs).
    replace (pre ++ v :: vs) with ((pre ++ [v]) ++ vs) by (by rewrite <- app_assoc).
    replace (3 * Z.of_nat (length pre) + 3) with (3 * Z.of_nat (length (pre ++ [v])))
      by (rewrite length_app; cbn [length]; lia).
    rewrite IH by lia. rewrite pushVertex_flatten3, <- app_assoc. done.
Qed.

(** The descending loop, started at the last corner of [pre]. *)
Lemma rotateVertices_down_corners rot post pre : ∀ fuel out,
  (length pre ≤ fuel)%nat →
  rotateVertices_down fuel rot (flatten3 (pre ++ post)) (3 * Z.of_nat (length pre) - 3) out
  = out ++ flatten3 (reverse (applyCubeSymmetry rot (of_Z 1) <$> pre)).
Proof.
  revert post. induction pre as [|v pre IH] using rev_ind; intros post fuel out Hfuel.
  - rewrite app_nil_r. destruct fuel; done.
  - rewrite length_app in Hfuel. cbn [length] in Hfuel.
    destruct fuel as [|fuel]; [lia|]. cbn [rotateVertices_down].
    rewrite (proj2 (Z.leb_le _ _)) by (rewrite length_app; cbn [length]; lia).
    rewrite <- app_assoc. cbn [app].
    replace (3 * Z.of_nat (length (pre ++ [v])) - 3) with (3 * Z.of_nat (length pre))
      by (rewrite length_app; cbn [length]; lia).
    rewrite (arr_get_corner pre v post).
    rewrite IH by lia.
    rewrite fmap_app, reverse_app.
    rewrite pushVertex_flatten3, <- app_assoc. done.
Qed.

Lemma rotateTexcoords_down_corners post pre : ∀ fuel out,
  (length pre ≤ fuel)%nat →
  rotateTexcoords_down fuel (flatten2 (pre ++ post)) (2 * Z.of_nat (length pre) - 2) out
  = out ++ flatten2 (reverse pre).
Proof.
  revert post. induction pre as [|p pre IH] using rev_ind; intros post fuel out Hfuel.
  - rewrite app_nil_r. destruct fuel; done.
  - rewrite length_app in Hfuel. cbn [length] in Hfuel.
    destruct fuel as [|fuel]; [lia|]. cbn [rotateTexcoords_down].
    rewrite (proj2 (Z.leb_le _ _)) by (rewrite length_app; cbn [length]; lia).
    rewrite <- app_assoc. cbn [app].
    replace (2 * Z.of_nat (length (pre ++ [p])) - 2) with (2 * Z.of_nat (length pre))
      by (rewrite length_app; cbn [length]; lia).
    pose proof (arr_get_pair pre p post) as Hp. cbv zeta in Hp.
    apply (f_equal (λ q : num * num, [q.1; q.2])) in Hp. cbn [fst snd] in Hp.
    rewrite Hp, IH by lia.
    rewrite reverse_app, <- app_assoc. done.
Qed.

(** C8: for a pure rotation [rotateVertices] transforms the corners in
    their order and [rotateTexcoords] returns the texcoords as they
    are; for a reflection [rotateVertices] yields the transformed corners
    in reverse order and [rotateTexcoords] the texcoord corners in reverse
    order. *)
Theorem rotation_winding (rot : nat) (vs : list (num * num * num))
    (ps : list (num * num)) (tc : list num) :
  (isReflection rot = false →
     rotateVertices rot (flatten3 vs)
       = flatten3 (applyCubeSymmetry rot (of_Z 1) <$> vs) ∧
     rotateTexcoords rot tc = tc) ∧
  (isReflection rot = true →
     rotateVertices rot (flatten3 vs)
       = flatten3 (reverse (applyCubeSymmetry rot (of_Z 1) <$> vs)) ∧
     rotateTexcoords rot (flatten2 ps) = flatten2 (reverse ps)).
Proof.
  unfold rotateVertices, rotateTexcoords. split; intros ->.
  - split; [|done].
    apply (rotateVertices_up_corners rot vs (length (flatten3 vs)) [] []).
    rewrite length_flatten3. lia.
  - split.
    + pose proof (rotateVertices_down_corners rot [] vs (length (flatten3 vs)) []) as Hd.
      rewrite app_nil_r in Hd. rewrite length_flatten3 in *.
      replace (Z.of_nat (3 * length vs) - 3) with (3 * Z.of_nat (length vs) - 3) by lia.
      apply Hd. lia.
    + pose proof (rotateTexcoords_down_corners [] ps (length (flatten2 ps)) []) as Hd.
      rewrite app_nil_r in Hd. rewrite length_flatten2 in *.
      replace (Z.of_nat (2 * length ps) - 2) with (2 * Z.of_nat (length ps) - 2) by lia.
      apply Hd. lia.
Qed.


End RotationProperties.

Lemma rotation_winding_witness :
  (rotateVertices 0 (flatten3 [(1, 2, 3); (4, 5, 6)]%Q)
     = flatten3 (applyCubeSymmetry 0 (of_Z 1) <$> [(1, 2, 3); (4, 5, 6)]%Q) ∧
   rotateTexcoords 0 [1; 2; 3; 4]%Q = [1; 2; 3; 4]%Q) ∧
  (rotateVertices 1 (flatten3 [(1, 2, 3); (4, 5, 6)]%Q)
     = flatten3 (reverse (applyCubeSymmetry 1 (of_Z 1) <$> [(1, 2, 3); (4, 5, 6)]%Q)) ∧
   rotateTexcoords 1 (flatten2 [(1, 2); (3, 4)]%Q) = flatten2 (reverse [(1, 2); (3, 4)]%Q)).
Proof.
  split.
  - apply (rotation_winding 0 [(1, 2, 3); (4, 5, 6)]%Q [] [1; 2; 3; 4]%Q). reflexivity.
  - apply (rotation_winding 1 [(1, 2, 3); (4, 5, 6)]%Q [(1, 2); (3, 4)]%Q []). reflexivity.
Defined.

(** ** The tile size of a block set *)

Section BlockSetProperties.
Context {num : Type} `{JSNum num} `{CubeSymmetry num}.
Implicit Types (bs : BlockSet num) (bt : BlockType num).

Lemma add_color bs bt :
  world_of bt = None → bs_tileSize (add bs bt) = bs_tileSize bs.
Proof. intros Hc. unfold add. by rewrite Hc. Qed.

Lemma add_established bs bt ts :
  bs_tileSize bs = Some ts → bs_tileSize (add bs bt) = Some ts.
Proof.
  intros Hts. unfold add. simpl. rewrite Hts.
  destruct (world_of bt) as [w|]; [|done].
  destruct (Z.eqb_spec ts (wx w)); congruence.
Qed.

Lemma add_first_world bs w o c :
  bs_tileSize bs = None → bs_tileSize (add bs (BlockType_World w o c)) = Some (wx w).
Proof. intros Hts. unfold add. simpl. by rewrite Hts. Qed.

Lemma foldl_add_colors l : ∀ bs,
  Forall (λ bt, world_of bt = None) l →
  bs_tileSize (foldl add bs l) = bs_tileSize bs.
Proof.
  induction l as [|bt l IH]; intros bs Hl; simpl; [done|].
  inversion Hl; subst. rewrite IH by done. by apply add_color.
Qed.

Lemma foldl_add_established l : ∀ bs ts,
  bs_tileSize bs = Some ts → bs_tileSize (foldl add bs l) = Some ts.
Proof.
  induction l as [|bt l IH]; intros bs ts Hts; simpl; [done|].
  apply IH. by apply add_established.
Qed.

(** C10: the [tileSize] getter of a block set without world types is 1;
    once a first world type has been added it is the side length of that
    world, whatever is added afterwards. *)
Theorem tileSize_established (colors rest : list (BlockType num)) (w : World num)
    (o : bool) (c : num * num * num) :
  Forall (λ bt, world_of bt = None) colors →
  get_tileSize (new_BlockSet colors) = 1 ∧
  get_tileSize (new_BlockSet (colors ++ [BlockType_World w o c])) = wx w ∧
  get_tileSize (new_BlockSet (colors ++ BlockType_World w o c :: rest)) = wx w ∧
  (∀ bt, get_tileSize (add (new_BlockSet (colors ++ BlockType_World w o c :: rest)) bt)
         = wx w).
Proof.
  intros Hcolors. unfold get_tileSize, new_BlockSet.
  assert (Hnone : bs_tileSize (foldl add
            {| bs_tileSize := None; types := [BlockType_air];
               rotatedBlockFaceData := [EMPTY_BLOCKRENDER];
               typesToRerender := [] |} colors) = None).
  { by rewrite foldl_add_colors. }
  assert (Hsome : ∀ l, bs_tileSize (foldl add
            {| bs_tileSize := None; types := [BlockType_air];
               rotatedBlockFaceData := [EMPTY_BLOCKRENDER];
               typesToRerender := [] |} (colors ++ BlockType_World w o c :: l))
            = Some (wx w)).
  { intros l. rewrite foldl_app. simpl.
    apply foldl_add_established. by apply add_first_world. }
  rewrite Hnone, (Hsome []), (Hsome rest).
  repeat split. intros bt.
  by rewrite (add_established _ bt (wx w)).
Qed.

End BlockSetProperties.

Lemma tileSize_established_witness :
  let red : BlockType Q := BlockType_Color (1, 0, 0, 1)%Q in
  let w2 : World Q := mkWorld 2 (λ _ _ _, red) (λ _ _ _, true) in
  let w3 : World Q := mkWorld 3 (λ _ _ _, red) (λ _ _ _, true) in
  get_tileSize (new_BlockSet [red; red]) = 1 ∧
  get_tileSize (new_BlockSet ([red; red] ++ [BlockType_World w2 true (1, 0, 0)%Q])) = 2 ∧
  get_tileSize (new_BlockSet ([red; red] ++ BlockType_World w2 true (1, 0, 0)%Q
                                :: [BlockType_World w3 true (1, 0, 0)%Q; red])) = 2.
Proof.
  intros red w2 w3.
  destruct (tileSize_established [red; red] [BlockType_World w3 true (1, 0, 0)%Q; red]
              w2 true (1, 0, 0)%Q) as (H1 & H2 & H3 & _).
  - repeat constructor.
  - exact (conj H1 (conj H2 H3)).
Defined.

(** ** Where the pixels of a tile are *)

(** The byte index at which [rebuildOne] stores pixel [(u, v)] of the
    tile at [coord]: the expression [c] of its pixel loops. *)
Definition tile_pixel (coord : Z * Z) (texWidth u v : Z) : Z :=
  ((coord.1 + u) * texWidth + coord.2 + v) * 4.

(** [pix] of [completed] addresses the tile with rows and columns
    exchanged. *)
Lemma pix_transposed (a b w x y : Z) : pix (a, b) w x y = tile_pixel (b, a) w y x.
Proof. unfold pix, tile_pixel. simpl. lia. Qed.

(** What [imageCoordsFor] returns for a token in cell [c]. *)
Definition cell_coords (borderTileSize tileCountSqrt : Z) (c : nat) : Z * Z :=
  (1 + borderTileSize * (Z.of_nat c / tileCountSqrt),
   1 + borderTileSize * (Z.of_nat c `mod` tileCountSqrt)).

(** The positions, relative to the tile, of the border pixels that
    [completed] writes. *)
Definition ring (ts x y : Z) : Prop :=
  (0 ≤ x < ts ∧ (y = -1 ∨ y = ts)) ∨ (-1 ≤ y ≤ ts ∧ (x = -1 ∨ x = ts)).

Lemma block_inj (b q q' o o' : Z) :
  0 ≤ o < b → 0 ≤ o' < b → b * q + o = b * q' + o' → q = q' ∧ o = o'.
Proof. intros Ho Ho' Heq. assert (q = q') by nia. split; [done|]. subst. lia. Qed.

Lemma addr_inj (w Y X k Y' X' k' : Z) :
  0 ≤ X < w → 0 ≤ X' < w → 0 ≤ k < 4 → 0 ≤ k' < 4 →
  (Y * w + X) * 4 + k = (Y' * w + X') * 4 + k' → Y = Y' ∧ X = X' ∧ k = k'.
Proof.
  intros HX HX' Hk Hk' Heq.
  destruct (block_inj 4 (Y * w + X) (Y' * w + X') k k') as [H1 H2]; [lia..|].
  destruct (block_inj w Y Y' X X') as [H3 H4]; [lia..|]. done.
Qed.

Section Grid.
Context (w ts tcs : Z).
Context (Hts : 1 ≤ ts) (Htcs : 0 < tcs) (Hfit : (ts + 2) * tcs ≤ w).

(** A cell of the bitmap. *)
Definition valid_cell (c : nat) : Prop := Z.of_nat c < tcs * tcs.

Lemma cell_bounds c :
  valid_cell c →
  0 ≤ Z.of_nat c / tcs < tcs ∧ 0 ≤ Z.of_nat c `mod` tcs < tcs.
Proof.
  intros Hc. split; [|by apply Z.mod_pos_bound].
  split; [apply Z.div_pos; lia|]. apply Z.div_lt_upper_bound; [done|]. apply Hc.
Qed.

Lemma cell_of_row_col c c' :
  Z.of_nat c / tcs = Z.of_nat c' / tcs →
  Z.of_nat c `mod` tcs = Z.of_nat c' `mod` tcs → c = c'.
Proof.
  intros Hq Hr.
  pose proof (Z.div_mod (Z.of_nat c) tcs ltac:(lia)).
  pose proof (Z.div_mod (Z.of_nat c') tcs ltac:(lia)).
  apply Nat2Z.inj. congruence.
Qed.

(** Row and column in the image of pixel [(u, v)] of cell [c]. *)
Lemma tile_pixel_addr c u v k :
  tile_pixel (cell_coords (ts + 2) tcs c) w u v + k
  = ((1 + (ts + 2) * (Z.of_nat c / tcs) + u) * w
     + (1 + (ts + 2) * (Z.of_nat c `mod` tcs) + v)) * 4 + k.
Proof. unfold tile_pixel, cell_coords. simpl. lia. Qed.

Lemma pix_addr c x y k :
  pix (cell_coords (ts + 2) tcs c) w x y + k
  = ((1 + (ts + 2) * (Z.of_nat c `mod` tcs) + y) * w
     + (1 + (ts + 2) * (Z.of_nat c / tcs) + x)) * 4 + k.
Proof. unfold pix, cell_coords. simpl. lia. Qed.

(** The columns of a cell lie in the image. *)
Lemma column_in_image q o : 0 ≤ q < tcs → 0 ≤ o < ts + 2 → 0 ≤ (ts + 2) * q + o < w.
Proof. intros Hq Ho. nia. Qed.

(** The pixels of a tile are bytes of a [w] by [w] image. *)
Lemma interior_in_image c u v k :
  valid_cell c → 0 ≤ u < ts → 0 ≤ v < ts → 0 ≤ k < 4 →
  0 ≤ tile_pixel (cell_coords (ts + 2) tcs c) w u v + k < 4 * w * w.
Proof.
  intros Hc Hu Hv Hk. rewrite tile_pixel_addr.
  destruct (cell_bounds c Hc) as [Hrow Hcol].
  pose proof (column_in_image (Z.of_nat c / tcs) (1 + u) Hrow ltac:(lia)).
  pose proof (column_in_image (Z.of_nat c `mod` tcs) (1 + v) Hcol ltac:(lia)).
  nia.
Qed.

(** Pixels of different tiles, or different pixels of a tile, are
    different bytes. *)
Lemma interior_inj c u v k c' u' v' k' :
  valid_cell c → valid_cell c' →
  0 ≤ u < ts → 0 ≤ v < ts → 0 ≤ k < 4 →
  0 ≤ u' < ts → 0 ≤ v' < ts → 0 ≤ k' < 4 →
  tile_pixel (cell_coords (ts + 2) tcs c) w u v + k
  = tile_pixel (cell_coords (ts + 2) tcs c') w u' v' + k' →
  c = c' ∧ u = u' ∧ v = v' ∧ k = k'.
Proof.
  intros Hc Hc' Hu Hv Hk Hu' Hv' Hk'. rewrite !tile_pixel_addr. intros Heq.
  destruct (cell_bounds c Hc) as [Hrow Hcol].
  destruct (cell_bounds c' Hc') as [Hrow' Hcol'].
  pose proof (column_in_image (Z.of_nat c `mod` tcs) (1 + v) Hcol ltac:(lia)).
  pose proof (column_in_image (Z.of_nat c' `mod` tcs) (1 + v') Hcol' ltac:(lia)).
  apply addr_inj in Heq as (HY & HX & ->); [|lia..].
  destruct (block_inj (ts + 2) (Z.of_nat c / tcs) (Z.of_nat c' / tcs) (1 + u) (1 + u'))
    as [Hq Hu2]; [lia..|].
  destruct (block_inj (ts + 2) (Z.of_nat c `mod` tcs) (Z.of_nat c' `mod` tcs) (1 + v) (1 + v'))
    as [Hr Hv2]; [lia..|].
  split; [by apply cell_of_row_col|]. lia.
Qed.

(** No border pixel that [completed] writes for a cell is a pixel of a
    tile. *)
Lemma ring_not_interior c0 x y k0 c u v k :
  valid_cell c0 → valid_cell c → ring ts x y → 0 ≤ k0 < 4 →
  0 ≤ u < ts → 0 ≤ v < ts → 0 ≤ k < 4 →
  pix (cell_coords (ts + 2) tcs c0) w x y + k0
  ≠ tile_pixel (cell_coords (ts + 2) tcs c) w u v + k.
Proof.
  intros Hc0 Hc Hring Hk0 Hu Hv Hk. rewrite pix_addr, tile_pixel_addr. intros Heq.
  destruct (cell_bounds c0 Hc0) as [Hrow0 Hcol0].
  destruct (cell_bounds c Hc) as [Hrow Hcol].
  assert (-1 ≤ x ≤ ts ∧ -1 ≤ y ≤ ts) as [Hx Hy] by (unfold ring in Hring; lia).
  pose proof (column_in_image (Z.of_nat c0 / tcs) (1 + x) Hrow0 ltac:(lia)).
  pose proof (column_in_image (Z.of_nat c `mod` tcs) (1 + v) Hcol ltac:(lia)).
  apply addr_inj in Heq as (HY & HX & _); [|lia..].
  destruct (block_inj (ts + 2) (Z.of_nat c0 `mod` tcs) (Z.of_nat c / tcs) (1 + y) (1 + u))
    as [_ Hyu]; [lia..|].
  destruct (block_inj (ts + 2) (Z.of_nat c0 / tcs) (Z.of_nat c `mod` tcs) (1 + x) (1 + v))
    as [_ Hxv]; [lia..|].
  unfold ring in Hring. lia.
Qed.

End Grid.

(** ** Synthesis *)

Section SynthesisProperties.
Context {num : Type} `{JSNum num} `{CubeSymmetry num}.
Implicit Types (s : Texgen num) (t : string) (arr : FaceArrays num).

Local Arguments multiplyVec3Z : simpl never.
Local Arguments store4 : simpl never.
Local Arguments allocationFor : simpl never.
Local Arguments deallocateUsage : simpl never.
Local Arguments completed : simpl never.
Local Arguments write_byte : simpl never.
Local Arguments data_get : simpl never.
Local Arguments quadVertices : simpl never.
Local Arguments calcTexCoords : simpl never.
Local Arguments sliceUsage : simpl never.
Local Arguments colorUsage : simpl never.

(** *** Pixel data *)

Lemma in_data_data_set img i v j : in_data (data_set img i v) j = in_data img j.
Proof.
  unfold in_data, data_length.
  by rewrite data_set_width, data_set_height.
Qed.

Lemma data_get_data_set img i v j :
  data_get (data_set img i v) j
  = if (j =? i) && in_data img i then v else data_get img j.
Proof.
  unfold data_get. rewrite in_data_data_set. unfold data_set.
  destruct (Z.eqb_spec j i) as [-> | Hne]; simpl.
  - destruct (in_data img i); simpl; [by rewrite Z.eqb_refl|done].
  - destruct (in_data img i); simpl; [|done].
    destruct (in_data img j); [|done]. by rewrite (proj2 (Z.eqb_neq j i)).
Qed.

Lemma image_at_write_byte s r i v :
  image_at (write_byte s r i v) r = data_set (image_at s r) i v.
Proof.
  unfold image_at, write_byte. simpl. rewrite list_lookup_alter_eq.
  destruct (images s !! r); simpl; [done|].
  unfold data_set, in_data, data_length. simpl.
  destruct (Z.leb_spec 0 i), (Z.ltb_spec i (4 * 0 * 0)); simpl; try done. lia.
Qed.

Lemma image_at_write_byte_ne s r r' i v :
  r ≠ r' → image_at (write_byte s r i v) r' = image_at s r'.
Proof.
  intros Hne. unfold image_at, write_byte. simpl.
  by rewrite list_lookup_alter_ne.
Qed.

Lemma image_ref_write_byte s r i v : image_ref (write_byte s r i v) = image_ref s.
Proof. unfold image_ref, write_byte. simpl. by rewrite length_alter. Qed.

(** The alpha byte read back after [writeColor] has stored a pixel. *)
Lemma store4_alpha s r c (v : num * num * num * num) :
  data_get (image_at (store4 s r c v) r) (c + 3)
  = if in_data (image_at s r) (c + 3) then to_byte v.2 else 0.
Proof.
  destruct v as [[[v0 v1] v2] v3]. unfold store4.
  rewrite image_at_write_byte, data_get_data_set, Z.eqb_refl. cbn [andb snd].
  rewrite !image_at_write_byte, !in_data_data_set.
  destruct (in_data (image_at s r) (c + 3)) eqn:Hin; [done|].
  unfold data_get. by rewrite !in_data_data_set, Hin.
Qed.

(** *** Predicates that the operations of the atlas keep *)

Record atlas_closed (P : Texgen num → Prop) : Prop := {
  closed_allocationFor : ∀ s t, P s → P (fst (allocationFor s t));
  closed_deallocateUsage : ∀ s t, P s → P (deallocateUsage s t);
  closed_completed : ∀ s t, P s → P (completed s t);
  closed_write_byte : ∀ s r i v, P s → P (write_byte s r i v)
}.

Lemma atlas_wf_closed : atlas_closed atlas_wf.
Proof.
  split; auto using allocationFor_wf, deallocateUsage_wf, completed_wf, write_byte_wf.
Qed.

Lemma reachable_closed ts : atlas_closed (reachable ts).
Proof. split; intros; by constructor. Qed.

Lemma calcTexCoords_fst s t flipped :
  fst (calcTexCoords s t flipped) = fst (allocationFor s t).
Proof.
  unfold calcTexCoords. rewrite <- uvFor_fst. by destruct (uvFor s t).
Qed.

Lemma pushQuad_eq s vs tc flipped transform depth t :
  pushQuad s vs tc flipped transform depth t
  = (fst (allocationFor s t), vs ++ quadVertices flipped transform depth,
     tc ++ snd (calcTexCoords s t flipped)).
Proof.
  unfold pushQuad. rewrite <- (calcTexCoords_fst s t flipped).
  destruct (calcTexCoords s t flipped) as [s' tc']. simpl.
  unfold quadVertices. rewrite !pushVertex_flatten3, <- !app_assoc. done.
Qed.

Section Closed.
Context (P : Texgen num → Prop) (HP : atlas_closed P).

Lemma store4_closed s r c v : P s → P (store4 s r c v).
Proof.
  destruct v as [[[v0 v1] v2] v3]. intros Hs. unfold store4.
  by do 4 apply (closed_write_byte P HP).
Qed.

Lemma foldl_closed {A B} (f : Texgen num * B → A → Texgen num * B) (l : list A) :
  (∀ st x, P (fst st) → P (fst (f st x))) →
  ∀ st, P (fst st) → P (fst (foldl f st l)).
Proof.
  intros Hf. induction l as [|x l IH]; intros st Hst; simpl; [done|].
  apply IH. by apply Hf.
Qed.

Lemma slice_pixel_closed lc world transform layer pixu pixv viewL viewH st u v :
  P st.1.1 →
  P (slice_pixel lc world transform layer pixu pixv viewL viewH st u v).1.1.
Proof.
  destruct st as [[s nL] nH]. cbn [fst]. intros Hs. unfold slice_pixel.
  destruct (multiplyVec3Z transform (u, v, layer)) as [[x y] z].
  pose proof (store4_closed s (l_texData lc)
                (((pixu + u) * l_texWidth lc + pixv + v) * 4)
                (writeColor (gt world x y z) (of_Z 255)) Hs) as Hs'.
  by destruct (0 <? _).
Qed.

Lemma slice_pixels_closed lc world transform layer pixu pixv s :
  P s → P (slice_pixels lc world transform layer pixu pixv s).1.1.
Proof.
  intros Hs. unfold slice_pixels.
  assert (Hin : ∀ l u st, P st.1.1 →
            P (foldl (λ st v, slice_pixel lc world transform layer pixu pixv
                                (multiplyVec3Z transform (0, 0, -1))
                                (multiplyVec3Z transform (0, 0, 1)) st u v) st l).1.1).
  { induction l as [|v l IH]; intros u st Hst; simpl; [done|].
    apply IH. by apply slice_pixel_closed. }
  generalize (seqZ 0 (l_tileSize lc)) at 2. intros l.
  generalize (s, false, false), (Hs : P (s, false, false).1.1).
  induction l as [|u l IH]; intros st Hst; simpl; [done|].
  apply IH. by apply Hin.
Qed.

End Closed.

(** *** One slice, step by step *)

(** [sliceWorld] with its intermediate atlas states named: [s1] after
    the tile has been looked up or allocated, [s2] after the pixels have
    been stored, [s3] after the border has been made, [s4] and [s5]
    after the low and the high quad. *)
Lemma sliceWorld_eq lc blockID world opaque dimName layer transform s arr :
  let t := sliceUsage blockID dimName layer in
  let s1 := fst (allocationFor s t) in
  let coord := snd (imageCoordsFor s t) in
  let px := slice_pixels lc world transform layer (fst coord) (snd coord) s1 in
  let s2 := px.1.1 in
  let nL := px.1.2 in
  let nH := px.2 in
  sliceWorld lc blockID world opaque dimName layer transform (s, arr) =
    if negb nL && negb nH then (deallocateUsage s2 t, arr)
    else
      let s3 := completed s2 t in
      let emitL := nL && (negb opaque || (layer =? 0)) in
      let emitH := nH && (negb opaque || (layer =? l_tileSize lc - 1)) in
      let s4 := if emitL then fst (allocationFor s3 t) else s3 in
      let arr4 :=
        if emitL then
          mkFaceArrays (texcoordsL arr ++ snd (calcTexCoords s3 t false)) (texcoordsH arr)
            (verticesL arr
               ++ quadVertices false transform (ndiv (of_Z layer) (of_Z (l_tileSize lc))))
            (verticesH arr)
        else arr in
      let s5 := if emitH then fst (allocationFor s4 t) else s4 in
      let arr5 :=
        if emitH then
          mkFaceArrays (texcoordsL arr4) (texcoordsH arr4 ++ snd (calcTexCoords s4 t true))
            (verticesL arr4)
            (verticesH arr4
               ++ quadVertices true transform (ndiv (of_Z (layer + 1)) (of_Z (l_tileSize lc))))
        else arr4 in
      (s5, arr5).
Proof.
  intros t s1 coord px s2 nL nH. subst s1 coord px s2 nL nH.
  unfold sliceWorld. fold t. rewrite <- (imageCoordsFor_fst s t).
  destruct (imageCoordsFor s t) as [s1 coord]. cbn [fst snd].
  destruct (slice_pixels lc world transform layer coord.1 coord.2 s1) as [[s2 nL] nH].
  cbn [fst snd].
  destruct (negb nL && negb nH); [done|].
  rewrite !pushQuad_eq.
  destruct (nL && (negb opaque || (layer =? 0)));
    destruct (nH && (negb opaque || (layer =? l_tileSize lc - 1)));
    rewrite ?pushQuad_eq; reflexivity.
Qed.

Section ClosedSlices.
Context (P : Texgen num → Prop) (HP : atlas_closed P).

Lemma sliceWorld_closed lc blockID world opaque dimName layer transform st :
  P (fst st) → P (fst (sliceWorld lc blockID world opaque dimName layer transform st)).
Proof.
  destruct st as [s arr]. cbn [fst]. intros Hs. rewrite sliceWorld_eq. cbv zeta.
  assert (P (slice_pixels lc world transform layer
               (imageCoordsFor s (sliceUsage blockID dimName layer)).2.1
               (imageCoordsFor s (sliceUsage blockID dimName layer)).2.2
               (allocationFor s (sliceUsage blockID dimName layer)).1).1.1) as Hs2.
  { apply slice_pixels_closed; [done|]. by apply (closed_allocationFor P HP). }
  destruct (negb _ && negb _); cbn [fst].
  - by apply (closed_deallocateUsage P HP).
  - repeat match goal with
           | |- P (if ?b then _ else _) => destruct b
           | |- P (fst (allocationFor _ _)) => apply (closed_allocationFor P HP)
           | |- P (completed _ _) => apply (closed_completed P HP)
           end; done.
Qed.

Lemma slice_layers_closed lc blockID world opaque dimName transform layers : ∀ st,
  P (fst st) →
  P (fst (slice_layers lc blockID world opaque dimName transform layers st)).
Proof.
  induction layers as [|layer layers IH]; intros st Hst; cbn [slice_layers]; [done|].
  destruct (textureLost (fst st)); [done|].
  apply IH. by apply sliceWorld_closed.
Qed.

Lemma world_faces_closed lc blockID world opaque st m :
  P (fst st) → P (fst (world_faces lc blockID world opaque st m)).
Proof.
  destruct st as [s faceData]. cbn [fst]. intros Hs. unfold world_faces.
  destruct opaque.
  - destruct (textureLost s); [done|]. cbn [fst].
    by do 2 apply sliceWorld_closed.
  - pose proof (slice_layers_closed lc blockID world false (fst m) (snd m)
                  (seqZ 0 (l_tileSize lc)) (s, mkFaceArrays [] [] [] []) Hs) as Hst.
    destruct (slice_layers _ _ _ _ _ _ _ _) as [s' [arr'|]]; done.
Qed.

Lemma color_faces_closed usageIndex st m :
  P (fst st) → P (fst (color_faces usageIndex st m)).
Proof.
  destruct st as [s faceData]. cbn [fst]. intros Hs. unfold color_faces.
  rewrite !pushQuad_eq. cbn [fst].
  by do 2 apply (closed_allocationFor P HP).
Qed.

Lemma rebuild_faces_closed s blockID blockType :
  P s → P (fst (rebuild_faces s blockID blockType)).
Proof.
  intros Hs. unfold rebuild_faces. destruct blockType as [[[[r g] b] a]|world opaque c].
  - pose proof (closed_allocationFor P HP s (colorUsage blockID) Hs) as Hs1.
    rewrite <- (imageCoordsFor_fst s (colorUsage blockID)) in Hs1.
    destruct (imageCoordsFor s (colorUsage blockID)) as [s1 coord]. cbn [fst snd] in *.
    apply (foldl_closed P (color_faces (colorUsage blockID))).
    { intros st x. apply color_faces_closed. }
    cbn [fst]. apply (closed_completed P HP).
    generalize (seqZ 0 (l_tileSize (rebuild_locals s))) at 2. intros l.
    revert s1 Hs1. induction l as [|u l IH]; intros s1 Hs1; cbn [foldl]; [done|].
    apply IH.
    generalize (seqZ 0 (l_tileSize (rebuild_locals s))). intros l'.
    revert s1 Hs1. induction l' as [|v l' IH']; intros s1 Hs1; cbn [foldl]; [done|].
    apply IH'. by apply store4_closed.
  - apply (foldl_closed P (world_faces (rebuild_locals s) blockID world opaque)); [|done].
    intros st x. apply world_faces_closed.
Qed.

Lemma rebuildOne_closed s blockID blockType :
  P s → P (fst (rebuildOne s blockID blockType)).
Proof.
  intros Hs. unfold rebuildOne.
  pose proof (rebuild_faces_closed s blockID blockType Hs) as Hs'.
  destruct (rebuild_faces s blockID blockType) as [s' faceData].
  by destruct blockType.
Qed.

End ClosedSlices.

(** *** A transparent world *)

(** The alpha byte that [world.gt(x,y,z).writeColor(255, texData, c)]
    stores. *)
Definition written_alpha (world : World num) (x y z : Z) : Z :=
  to_byte (writeColor (gt world x y z) (of_Z 255)).2.

(** The layers that [rebuildOne] slices along one axis. *)
Definition sliced_layers (opaque : bool) (tileSize : Z) : list Z :=
  if opaque then [0; tileSize - 1] else seqZ 0 tileSize.

Section Transparent.
Context (world : World num).
Context (Htransparent : ∀ x y z, written_alpha world x y z = 0).

Lemma slice_pixel_transparent lc transform layer pixu pixv viewL viewH st u v :
  let st' := slice_pixel lc world transform layer pixu pixv viewL viewH st u v in
  st'.1.2 = st.1.2 ∧ st'.2 = st.2.
Proof.
  destruct st as [[s nL] nH]. unfold slice_pixel.
  destruct (multiplyVec3Z transform (u, v, layer)) as [[x y] z].
  rewrite store4_alpha. fold (written_alpha world x y z). rewrite Htransparent.
  by destruct (in_data _ _).
Qed.

Lemma slice_pixels_transparent lc transform layer pixu pixv s :
  let px := slice_pixels lc world transform layer pixu pixv s in
  px.1.2 = false ∧ px.2 = false.
Proof.
  unfold slice_pixels.
  assert (Hin : ∀ l u st,
            let st' := foldl (λ st v, slice_pixel lc world transform layer pixu pixv
                                (multiplyVec3Z transform (0, 0, -1))
                                (multiplyVec3Z transform (0, 0, 1)) st u v) st l in
            st'.1.2 = st.1.2 ∧ st'.2 = st.2).
  { induction l as [|v l IH]; intros u st; cbn [foldl]; [done|].
    destruct (IH u (slice_pixel lc world transform layer pixu pixv
                      (multiplyVec3Z transform (0, 0, -1))
                      (multiplyVec3Z transform (0, 0, 1)) st u v)) as [-> ->].
    apply slice_pixel_transparent. }
  assert (Hout : ∀ l l' st,
            let st' := foldl (λ st u,
                                foldl (λ st v, slice_pixel lc world transform layer pixu pixv
                                         (multiplyVec3Z transform (0, 0, -1))
                                         (multiplyVec3Z transform (0, 0, 1)) st u v) st l')
                         st l in
            st'.1.2 = st.1.2 ∧ st'.2 = st.2).
  { induction l as [|u l IH]; intros l' st; cbn [foldl]; [done|].
    destruct (IH l' (foldl (λ st v, slice_pixel lc world transform layer pixu pixv
                                      (multiplyVec3Z transform (0, 0, -1))
                                      (multiplyVec3Z transform (0, 0, 1)) st u v)
                       st l')) as [-> ->].
    apply Hin. }
  apply (Hout (seqZ 0 (l_tileSize lc)) (seqZ 0 (l_tileSize lc)) (s, false, false)).
Qed.

(** A slice of a transparent world stores its pixels and releases the
    tile; the four arrays stay as they are. *)
Lemma sliceWorld_transparent lc blockID opaque dimName layer transform s arr :
  let t := sliceUsage blockID dimName layer in
  let coord := snd (imageCoordsFor s t) in
  sliceWorld lc blockID world opaque dimName layer transform (s, arr)
  = (deallocateUsage
       (slice_pixels lc world transform layer (fst coord) (snd coord)
          (fst (allocationFor s t))).1.1 t,
     arr).
Proof.
  intros t coord. rewrite sliceWorld_eq. cbv zeta. fold t. fold coord.
  destruct (slice_pixels_transparent lc transform layer coord.1 coord.2
              (allocationFor s t).1) as [-> ->].
  done.
Qed.

End Transparent.

(** *** What a slice does to the usage map *)

Lemma allocationFor_usageMap s t t' i :
  usageMap (fst (allocationFor s t)) !! t' = Some i →
  t' = t ∨ usageMap s !! t' = Some i.
Proof.
  unfold allocationFor. destruct (textureLost s); [by right|].
  destruct (usageMap s !! t); [by right|].
  pose proof (tileAlloc_outcome s) as Ho. destruct (tileAlloc s) as [[s1 j] e].
  destruct Ho as [[-> ->] | (-> & -> & ->)]; cbn [fst usageMap set_usageMap enlargeTexture].
  - destruct (decide (t = t')) as [<- | Hne]; [by left|].
    rewrite lookup_insert_ne by done. by right.
  - by rewrite lookup_empty.
Qed.

Lemma deallocateUsage_usageMap s t :
  usageMap (deallocateUsage s t)
  = if textureLost s then usageMap s else delete t (usageMap s).
Proof.
  unfold deallocateUsage. destruct (textureLost s); [done|].
  by destruct (usageMap s !! t).
Qed.

Lemma write_byte_set_images s r i v : ∃ l,
  write_byte s r i v = set_images s l ∧ length l = length (images s).
Proof. eexists. split; [reflexivity|]. by rewrite length_alter. Qed.

Lemma set_images_set_images s l l' : set_images (set_images s l) l' = set_images s l'.
Proof. done. Qed.

(** Storing pixels changes nothing but the pixel data. *)
Definition only_images (s s' : Texgen num) : Prop :=
  ∃ l, s' = set_images s l ∧ length l = length (images s).

Lemma only_images_refl s : only_images s s.
Proof. exists (images s). split; [by destruct s|done]. Qed.

Lemma only_images_trans s1 s2 s3 :
  only_images s1 s2 → only_images s2 s3 → only_images s1 s3.
Proof.
  intros (l & -> & Hl) (l' & -> & Hl'). exists l'. split; [done|].
  by rewrite Hl'.
Qed.

Lemma store4_only_images s r c v : only_images s (store4 s r c v).
Proof.
  destruct v as [[[v0 v1] v2] v3]. unfold store4.
  repeat (eapply only_images_trans; [|apply write_byte_set_images]).
  apply only_images_refl.
Qed.

Lemma slice_pixels_only_images lc world transform layer pixu pixv s :
  only_images s (slice_pixels lc world transform layer pixu pixv s).1.1.
Proof.
  unfold slice_pixels.
  assert (Hin : ∀ l u st,
            only_images st.1.1
              (foldl (λ st v, slice_pixel lc world transform layer pixu pixv
                                (multiplyVec3Z transform (0, 0, -1))
                                (multiplyVec3Z transform (0, 0, 1)) st u v) st l).1.1).
  { induction l as [|v l IH]; intros u st; cbn [foldl]; [apply only_images_refl|].
    eapply only_images_trans; [|apply IH].
    destruct st as [[s0 nL] nH]. unfold slice_pixel.
    destruct (multiplyVec3Z transform (u, v, layer)) as [[x y] z].
    destruct (0 <? _); apply store4_only_images. }
  assert (Hout : ∀ l l' st,
            only_images st.1.1
              (foldl (λ st u,
                        foldl (λ st v, slice_pixel lc world transform layer pixu pixv
                                         (multiplyVec3Z transform (0, 0, -1))
                                         (multiplyVec3Z transform (0, 0, 1)) st u v) st l')
                 st l).1.1).
  { induction l as [|u l IH]; intros l' st; cbn [foldl]; [apply only_images_refl|].
    eapply only_images_trans; [|apply IH]. apply Hin. }
  apply (Hout (seqZ 0 (l_tileSize lc)) (seqZ 0 (l_tileSize lc)) (s, false, false)).
Qed.

(** *** Released tokens *)

(** The bitmap of [s] against that of [s0], the tokens in [T] having
    been released since: every other token is where it was, no cell has
    become occupied, the cells that the tokens in [T] held are free and
    the other cells are as they were. *)
Record cells_released (s0 s : Texgen num) (T : string → Prop) : Prop := {
  rel_length : length (tileAllocMap s) = length (tileAllocMap s0);
  rel_kept : ∀ t i, usageMap s0 !! t = Some i → usageMap s !! t = Some i ∨ T t;
  rel_no_leak : ∀ i, tileAllocMap s !! i = Some 1 → tileAllocMap s0 !! i = Some 1;
  rel_free : ∀ t i, T t → usageMap s0 !! t = Some i →
               (i < length (tileAllocMap s0))%nat → tileAllocMap s !! i = Some 0;
  rel_others : ∀ i, (∀ t, T t → usageMap s0 !! t ≠ Some i) →
                 tileAllocMap s !! i = tileAllocMap s0 !! i
}.

(** Since [s0] no token has been registered, and the tokens in [T] are
    not registered; unless the texture is lost, their cells are free. *)
Definition released (s0 s : Texgen num) (T : string → Prop) : Prop :=
  atlas_wf s ∧
  (∀ t i, usageMap s !! t = Some i → usageMap s0 !! t = Some i ∧ ¬ T t) ∧
  (textureLost s = false → cells_released s0 s T).

Lemma released_lost s0 s T : atlas_wf s → textureLost s = true → released s0 s T.
Proof.
  intros Hwf Hlost. split; [done|]. split.
  - intros t i. by rewrite (wf_lost s Hwf Hlost), lookup_empty.
  - by rewrite Hlost.
Qed.

Lemma released_weaken s0 s (T T' : string → Prop) :
  released s0 s T → (∀ t, T' t ↔ T t) → released s0 s T'.
Proof.
  intros (Hwf & Hrel & Hcells) HT. split; [done|]. split.
  - intros t i Ht. destruct (Hrel t i Ht) as [? ?]. split; [done|]. by rewrite HT.
  - intros Hl. destruct (Hcells Hl) as [Hlen Hkept Hleak Hfree Hothers]. split.
    + done.
    + intros t i Ht. destruct (Hkept t i Ht); [by left|right; by apply HT].
    + done.
    + intros t i Ht. apply Hfree. by apply HT.
    + intros i Hi. apply Hothers. intros t Ht. apply Hi. by apply HT.
Qed.

Lemma released_refl s : atlas_wf s → released s s (λ _, False).
Proof.
  intros Hwf. split; [done|]. split.
  - intros t i Ht. split; [done|]. tauto.
  - intros _. split; try done. intros t i Ht. by left.
Qed.

Lemma deallocateUsage_set_images s l t :
  deallocateUsage (set_images s l) t = set_images (deallocateUsage s t) l.
Proof.
  unfold deallocateUsage. cbn [textureLost usageMap set_images].
  destruct (textureLost s); [done|]. by destruct (usageMap s !! t).
Qed.

Lemma deallocateUsage_tileAllocMap s t :
  textureLost s = false →
  tileAllocMap (deallocateUsage s t)
  = match usageMap s !! t with
    | Some i => <[i := 0]> (tileAllocMap s)
    | None => tileAllocMap s
    end.
Proof.
  intros Hl. unfold deallocateUsage. rewrite Hl. by destruct (usageMap s !! t).
Qed.

Section TransparentBlock.
Context (world : World num).
Context (Htransparent : ∀ x y z, written_alpha world x y z = 0).

(** What a slice of a transparent world leaves of the allocator, when
    the texture is not lost afterwards: the token of the slice is not
    registered; the cell it had is free; if it had none, the cell that
    [allocationFor] marked for it is free again, so the bitmap is as it
    was. *)
Lemma sliceWorld_transparent_state lc blockID opaque dimName layer transform s arr :
  atlas_wf s →
  let t := sliceUsage blockID dimName layer in
  let s' := (sliceWorld lc blockID world opaque dimName layer transform (s, arr)).1 in
  textureLost s' = false →
  textureLost s = false ∧
  usageMap s' = delete t (usageMap s) ∧
  tileAllocMap s'
  = match usageMap s !! t with
    | Some i => <[i := 0]> (tileAllocMap s)
    | None => tileAllocMap s
    end.
Proof.
  intros Hwf t s'. subst s'. rewrite sliceWorld_transparent by done. cbn [fst]. fold t.
  destruct (slice_pixels_only_images lc world transform layer
              (imageCoordsFor s t).2.1 (imageCoordsFor s t).2.2 (allocationFor s t).1)
    as (l & -> & _).
  rewrite deallocateUsage_set_images. cbn [textureLost usageMap tileAllocMap set_images].
  intros Hl'.
  assert (Hl1 : textureLost (allocationFor s t).1 = false).
  { rewrite <- Hl'. unfold deallocateUsage.
    destruct (textureLost (allocationFor s t).1) eqn:E; [by rewrite E|].
    destruct (usageMap (allocationFor s t).1 !! t); cbn; by rewrite E. }
  assert (Hl : textureLost s = false).
  { destruct (textureLost s) eqn:Hl; [|done].
    rewrite (allocationFor_lost s t Hl) in Hl1. cbn [fst] in Hl1. congruence. }
  split; [done|].
  rewrite deallocateUsage_usageMap, deallocateUsage_tileAllocMap, Hl1 by done.
  destruct (usageMap s !! t) as [i|] eqn:Hi.
  - rewrite (allocationFor_known s t i Hl Hi). cbn [fst]. by rewrite Hi.
  - destruct (allocationFor_fresh s t Hwf Hl Hi) as [(j & _ & Hfree & _ & Heq) | [_ Heq]].
    + rewrite Heq. cbn [fst usageMap tileAllocMap allocated set_usageMap set_tileAllocMap
                        set_freePointer].
      rewrite lookup_insert_eq, delete_insert_eq, (delete_id _ _ Hi).
      split; [done|]. by rewrite list_insert_insert_eq, list_insert_id.
    + by rewrite Heq in Hl1.
Qed.

Lemma sliceWorld_released lc blockID opaque dimName layer transform s0 s arr T :
  released s0 s T →
  released s0 (sliceWorld lc blockID world opaque dimName layer transform (s, arr)).1
    (λ t, T t ∨ t = sliceUsage blockID dimName layer).
Proof.
  intros (Hwf & Hr & Hcells).
  pose proof (sliceWorld_transparent_state lc blockID opaque dimName layer transform s arr Hwf)
    as Hstate. cbv zeta in Hstate.
  split; [|split].
  { by apply (sliceWorld_closed atlas_wf atlas_wf_closed _ _ _ _ _ _ _ (s, arr)). }
  { rewrite sliceWorld_transparent by done. cbn [fst].
    set (t := sliceUsage blockID dimName layer).
    destruct (slice_pixels_only_images lc world transform layer
                (imageCoordsFor s t).2.1 (imageCoordsFor s t).2.2 (allocationFor s t).1)
      as (l & -> & _).
    rewrite deallocateUsage_usageMap. cbn [textureLost usageMap set_images].
    pose proof (allocationFor_wf s t Hwf) as Hwf1.
    destruct (textureLost (allocationFor s t).1) eqn:Hlost.
    - rewrite (wf_lost _ Hwf1 Hlost). intros t' i. by rewrite lookup_empty.
    - intros t' i [Hne Ht']%lookup_delete_Some.
      apply allocationFor_usageMap in Ht' as [-> | Ht']; [done|].
      destruct (Hr _ _ Ht') as [? ?]. split; [done|]. intros [? | ->]; done. }
  intros Hl'. destruct (Hstate Hl') as (Hl & Hmap & Hbits).
  set (t := sliceUsage blockID dimName layer) in *.
  set (s' := (sliceWorld lc blockID world opaque dimName layer transform (s, arr)).1) in *.
  destruct (Hcells Hl) as [Hlen Hkept Hleak Hfree Hothers].
  destruct (usageMap s !! t) as [j|] eqn:Hj.
  - destruct (Hr _ _ Hj) as [Hj0 _]. split.
    + by rewrite Hbits, length_insert.
    + intros t' i Ht'. destruct (Hkept t' i Ht') as [Hin | ?]; [|by right; left].
      destruct (decide (t' = t)) as [-> | Hne]; [by right; right|].
      left. by rewrite Hmap, lookup_delete_ne.
    + intros i. rewrite Hbits. destruct (decide (i = j)) as [-> | Hne].
      * intros Hi. assert (j < length (tileAllocMap s))%nat as Hlt.
        { apply lookup_lt_Some in Hi. by rewrite length_insert in Hi. }
        by rewrite list_lookup_insert_eq in Hi.
      * rewrite list_lookup_insert_ne by done. apply Hleak.
    + intros t' i [Ht' | ->] Hi0 Hlt.
      * rewrite Hbits. destruct (decide (i = j)) as [-> | Hne].
        -- apply list_lookup_insert_eq. by rewrite Hlen.
        -- rewrite list_lookup_insert_ne by done. by eapply Hfree.
      * rewrite Hj0 in Hi0. injection Hi0 as <-. rewrite Hbits.
        apply list_lookup_insert_eq. by rewrite Hlen.
    + intros i Hi. rewrite Hbits.
      assert (i ≠ j) as Hne.
      { intros ->. apply (Hi t); [by right|done]. }
      rewrite list_lookup_insert_ne by done. apply Hothers.
      intros t' Ht'. apply Hi. by left.
  - split.
    + by rewrite Hbits.
    + intros t' i Ht'. destruct (Hkept t' i Ht') as [Hin | ?]; [|by right; left].
      left. rewrite Hmap, lookup_delete_ne; [done|]. intros <-. congruence.
    + intros i. rewrite Hbits. apply Hleak.
    + intros t' i [Ht' | ->] Hi0 Hlt; rewrite Hbits.
      * by eapply Hfree.
      * destruct (Hkept _ _ Hi0) as [Hin | Ht]; [congruence|]. by eapply Hfree.
    + intros i Hi. rewrite Hbits. apply Hothers. intros t' Ht'. apply Hi. by left.
Qed.

Lemma slice_layers_released lc blockID opaque dimName transform s0 layers : ∀ s arr T,
  released s0 s T →
  let r := slice_layers lc blockID world opaque dimName transform layers (s, arr) in
  released s0 r.1 (λ t, T t ∨ ∃ layer, layer ∈ layers ∧ t = sliceUsage blockID dimName layer) ∧
  (r.2 = None ∨ r.2 = Some arr).
Proof.
  induction layers as [|layer layers IH]; intros s arr T Hrel; cbn [slice_layers fst snd].
  - split; [|by right]. eapply released_weaken; [done|].
    intros t. split; [|by left].
    intros [? | (layer & Hl & _)]; [done|]. by apply elem_of_nil in Hl.
  - destruct (textureLost s) eqn:Hlost; cbn [fst snd].
    { split; [|by left]. apply released_lost; [by destruct Hrel|done]. }
    pose proof (sliceWorld_released lc blockID opaque dimName layer transform s0 s arr T Hrel)
      as Hrel'.
    rewrite sliceWorld_transparent in * by done. cbn [fst] in Hrel'.
    destruct (IH _ arr _ Hrel') as [Hr Harr]. split; [|done].
    eapply released_weaken; [exact Hr|]. cbn beta.
    intros t. split.
    + intros [? | (layer' & [-> | Hl]%elem_of_cons & ->)]; eauto.
    + intros [[? | ->] | (layer' & Hl & ->)]; [by left| |].
      * right. exists layer. split; [by left|done].
      * right. exists layer'. split; [by right|done].
Qed.

(** The faces of one axis: nothing but empty geometry is recorded, and
    the tokens of the axis are released. *)
Lemma world_faces_transparent lc blockID opaque s0 st m T :
  released s0 st.1 T →
  (∀ face g, st.2 !! face = Some g → g = EMPTY_GEOMETRY) →
  let r := world_faces lc blockID world opaque st m in
  released s0 r.1
    (λ t, T t ∨ ∃ layer, layer ∈ sliced_layers opaque (l_tileSize lc) ∧
                         t = sliceUsage blockID (fst m) layer) ∧
  (∀ face g, r.2 !! face = Some g → g = EMPTY_GEOMETRY).
Proof.
  destruct st as [s faceData]. cbn [fst snd].
  intros Hrel Hfaces. unfold world_faces, sliced_layers.
  assert (Hins : ∀ face g,
            (<["h" +:+ m.1 := mkGeometry [] []]>
               (<["l" +:+ m.1 := mkGeometry [] []]> faceData)) !! face = Some g →
            g = EMPTY_GEOMETRY).
  { intros face g [[_ <-] | [_ [[_ <-] | [_ Hg]]%lookup_insert_Some]]%lookup_insert_Some;
      [done|done|by eapply Hfaces]. }
  destruct opaque.
  - destruct (textureLost s) eqn:Hlost; cbn [fst snd].
    { split; [|done]. apply released_lost; [by destruct Hrel|done]. }
    rewrite !sliceWorld_transparent by done. cbn [fst snd verticesL verticesH texcoordsL texcoordsH].
    split; [|done].
    pose proof (sliceWorld_released lc blockID true m.1 0 m.2 s0 s
                  (mkFaceArrays [] [] [] []) T Hrel) as Hrel1.
    rewrite sliceWorld_transparent in Hrel1 by done. cbn [fst] in Hrel1.
    pose proof (sliceWorld_released lc blockID true m.1 (l_tileSize lc - 1) m.2 s0 _
                  (mkFaceArrays [] [] [] []) _ Hrel1) as Hrel2.
    rewrite sliceWorld_transparent in Hrel2 by done. cbn [fst] in Hrel2.
    eapply released_weaken; [exact Hrel2|]. cbn beta.
    intros t. split.
    + intros [? | (layer & Hl & ->)]; [by left; left|].
      apply elem_of_cons in Hl as [-> | Hl]; [by left; right|].
      apply list_elem_of_singleton in Hl as ->. by right.
    + intros [[? | ->] | ->]; [by left| |].
      * right. exists 0. split; [by left|done].
      * right. exists (l_tileSize lc - 1). split; [by right; left|done].
  - destruct (slice_layers_released lc blockID false m.1 m.2 s0 (seqZ 0 (l_tileSize lc))
                s (mkFaceArrays [] [] [] []) T Hrel) as [Hr Harr].
    destruct (slice_layers _ _ _ _ _ _ _ _) as [s' res]. cbn [fst snd] in *.
    destruct Harr as [-> | ->]; cbn [fst snd]; done.
Qed.

Lemma rebuild_world_transparent lc blockID opaque s0 mappings : ∀ st T,
  released s0 st.1 T →
  (∀ face g, st.2 !! face = Some g → g = EMPTY_GEOMETRY) →
  let r := foldl (world_faces lc blockID world opaque) st mappings in
  released s0 r.1
    (λ t, T t ∨ ∃ m layer, m ∈ mappings ∧
                           layer ∈ sliced_layers opaque (l_tileSize lc) ∧
                           t = sliceUsage blockID (fst m) layer) ∧
  (∀ face g, r.2 !! face = Some g → g = EMPTY_GEOMETRY).
Proof.
  induction mappings as [|m mappings IH]; intros st T Hrel Hfaces; cbn [foldl].
  - split; [|done]. eapply released_weaken; [done|].
    intros t. split; [|by left].
    intros [? | (m & layer & Hm & _)]; [done|]. by apply elem_of_nil in Hm.
  - destruct (world_faces_transparent lc blockID opaque s0 st m T Hrel Hfaces)
      as [Hrel1 Hfaces1].
    destruct (IH _ _ Hrel1 Hfaces1) as [Hrel2 Hfaces2]. split; [|done].
    eapply released_weaken; [exact Hrel2|]. cbn beta.
    intros t. split.
    + intros [? | (m' & layer & [-> | Hm]%elem_of_cons & Hl & ->)].
      * by left; left.
      * left; right. by exists layer.
      * right. by exists m', layer.
    + intros [[? | (layer & Hl & ->)] | (m' & layer & Hm & Hl & ->)].
      * by left.
      * right. exists m, layer. split; [by left|done].
      * right. exists m', layer. split; [by right|done].
Qed.

End TransparentBlock.

Lemma rotateVertices_nil rot : rotateVertices rot [] = [].
Proof. unfold rotateVertices. by destruct (isReflection rot). Qed.

Lemma rotateTexcoords_nil rot : rotateTexcoords rot [] = [].
Proof. unfold rotateTexcoords. by destruct (isReflection rot). Qed.

Lemma TILE_MAPPINGS_names dimName :
  dimName ∈ ["z"; "x"; "y"] ↔ ∃ m, m ∈ TILE_MAPPINGS ∧ m.1 = dimName.
Proof.
  change ["z"; "x"; "y"] with (fst <$> TILE_MAPPINGS).
  rewrite list_elem_of_fmap. split; intros (m & ? & ?); by exists m.
Qed.

(** C5: for a world block type whose voxels all store alpha 0, every
    slice leaves both visibility flags false, appends nothing to the
    vertex and texcoord arrays and ends with [deallocateUsage] instead of
    [completed], which releases the tile of the slice: unless the texture
    was lost, the token is no longer registered and its cell is free in
    the bitmap, the cell it had before the slice or, if it had none, the
    cell that the slice took for it.  So every face that [rebuildOne]
    records, canonical or rotated, has no vertices and no texcoords;
    afterwards no token of a sliced layer is registered and, unless the
    texture was lost, no cell has become occupied, every cell that a
    token of a sliced layer held is free and every other cell is as it
    was. *)
Theorem transparent_world_culled (s : Texgen num) (blockID : nat) (world : World num)
    (opaque : bool) (c : num * num * num) :
  atlas_wf s →
  (∀ x y z, written_alpha world x y z = 0) →
  (∀ lc dimName layer transform s' arr,
     let t := sliceUsage blockID dimName layer in
     let coord := snd (imageCoordsFor s' t) in
     let px := slice_pixels lc world transform layer (fst coord) (snd coord)
                 (fst (allocationFor s' t)) in
     px.1.2 = false ∧ px.2 = false ∧
     sliceWorld lc blockID world opaque dimName layer transform (s', arr)
       = (deallocateUsage px.1.1 t, arr)) ∧
  (∀ lc dimName layer transform s' arr,
     atlas_wf s' →
     let t := sliceUsage blockID dimName layer in
     let r := (sliceWorld lc blockID world opaque dimName layer transform (s', arr)).1 in
     textureLost r = false →
     usageMap r = delete t (usageMap s') ∧
     tileAllocMap r
     = match usageMap s' !! t with
       | Some i => <[i := 0]> (tileAllocMap s')
       | None => tileAllocMap s'
       end) ∧
  (∀ face g,
     (rebuild_faces s blockID (BlockType_World world opaque c)).2 !! face = Some g →
     vertices g = [] ∧ texcoords g = []) ∧
  (∀ rot faces face g,
     (rebuildOne s blockID (BlockType_World world opaque c)).2 !! rot = Some faces →
     faces !! face = Some g →
     vertices g = [] ∧ texcoords g = []) ∧
  (∀ dimName layer,
     dimName ∈ ["z"; "x"; "y"] → layer ∈ sliced_layers opaque (tileSize s) →
     usageMap (rebuild_faces s blockID (BlockType_World world opaque c)).1
       !! sliceUsage blockID dimName layer = None) ∧
  (let r := (rebuildOne s blockID (BlockType_World world opaque c)).1 in
   let held (i : nat) :=
     ∃ dimName layer,
       dimName ∈ ["z"; "x"; "y"] ∧ layer ∈ sliced_layers opaque (tileSize s) ∧
       usageMap s !! sliceUsage blockID dimName layer = Some i in
   textureLost r = false →
   length (tileAllocMap r) = length (tileAllocMap s) ∧
   (∀ i, tileAllocMap r !! i = Some 1 → tileAllocMap s !! i = Some 1) ∧
   (∀ i, held i → (i < length (tileAllocMap s))%nat → tileAllocMap r !! i = Some 0) ∧
   (∀ i, ¬ held i → tileAllocMap r !! i = tileAllocMap s !! i)).
Proof.
  intros Hwf Htransparent.
  split.
  { intros lc dimName layer transform s' arr t coord px.
    destruct (slice_pixels_transparent world Htransparent lc transform layer
                coord.1 coord.2 (allocationFor s' t).1) as [HL HH].
    split; [done|]. split; [done|]. by apply sliceWorld_transparent. }
  split.
  { intros lc dimName layer transform s' arr Hwf' t r Hl.
    by destruct (sliceWorld_transparent_state world Htransparent lc blockID opaque
                   dimName layer transform s' arr Hwf' Hl) as (_ & ? & ?). }
  set (lc := rebuild_locals s).
  assert (Hrel0 : released s s (λ _, False)) by (by apply released_refl).
  assert (Hfaces0 : ∀ face (g : Geometry num), (∅ : gmap string (Geometry num)) !! face = Some g
                                → g = EMPTY_GEOMETRY).
  { intros face g. by rewrite lookup_empty. }
  destruct (rebuild_world_transparent world Htransparent lc blockID opaque s TILE_MAPPINGS
              (s, ∅) _ Hrel0 Hfaces0) as [Hrel Hfaces].
  change (foldl (world_faces lc blockID world opaque) (s, ∅) TILE_MAPPINGS)
    with (rebuild_faces s blockID (BlockType_World world opaque c)) in Hrel, Hfaces.
  destruct Hrel as (_ & Hrel & Hcells).
  split; [|split; [|split]].
  - intros face g Hg. by rewrite (Hfaces face g Hg).
  - intros rot faces face g. unfold rebuildOne.
    destruct (rebuild_faces s blockID (BlockType_World world opaque c)) as [s' faceData].
    cbn [snd] in *.
    intros (rot' & -> & _)%list_lookup_fmap_Some.
    unfold rotateFaceData. rewrite lookup_fmap.
    destruct (faceData !! face) as [g0|] eqn:Hg0; [|done].
    rewrite (Hfaces face g0 Hg0). intros [= <-]. cbn [vertices texcoords EMPTY_GEOMETRY].
    by rewrite rotateVertices_nil, rotateTexcoords_nil.
  - intros dimName layer Hdim Hlayer.
    destruct (usageMap (rebuild_faces s blockID (BlockType_World world opaque c)).1
                !! sliceUsage blockID dimName layer) as [i|] eqn:Hi; [|done].
    destruct (Hrel _ _ Hi) as [_ Hnot]. exfalso. apply Hnot. right.
    apply TILE_MAPPINGS_names in Hdim as (m & Hm & <-).
    by exists m, layer.
  - assert ((rebuildOne s blockID (BlockType_World world opaque c)).1
            = (rebuild_faces s blockID (BlockType_World world opaque c)).1) as ->.
    { unfold rebuildOne. by destruct (rebuild_faces _ _ _). }
    cbv zeta. intros Hl.
    destruct (Hcells Hl) as [Hlen Hkept Hleak Hfree Hothers].
    split; [done|]. split; [done|]. split.
    + intros i (dimName & layer & Hdim & Hlayer & Hi) Hlt.
      apply (Hfree (sliceUsage blockID dimName layer)); [|done|done].
      right. apply TILE_MAPPINGS_names in Hdim as (m & Hm & <-). by exists m, layer.
    + intros i Hnot. apply Hothers.
      intros t [[] | (m & layer & Hm & Hlayer & ->)] Hi. apply Hnot.
      exists m.1, layer. split; [|done].
      apply TILE_MAPPINGS_names. by exists m.
Qed.

(** *** An opaque world *)

(** [n] copies of a quad, one after the other. *)
Definition quads (n : nat) (q : list num) : list num := mjoin (replicate n q).

Lemma quads_snoc n q : quads n q ++ q = quads (S n) q.
Proof.
  unfold quads. induction n as [|n IH]; simpl.
  - by rewrite app_nil_r.
  - simpl in IH. by rewrite <- app_assoc, IH.
Qed.

Lemma calcTexCoords_length s t flipped : length (snd (calcTexCoords s t flipped)) = 12%nat.
Proof. unfold calcTexCoords. by destruct (uvFor s t). Qed.

(** The arrays of an axis hold at most [k] low quads, all at depth
    [0 / tileSize], and at most [k] high quads, all at depth
    [tileSize / tileSize]. *)
Definition outer_quads (tileSize : Z) (transform : mat4) (k : nat)
    (vL tL vH tH : list num) : Prop :=
  (∃ n, (n ≤ k)%nat ∧
        vL = quads n (quadVertices false transform (ndiv (of_Z 0) (of_Z tileSize))) ∧
        length tL = (12 * n)%nat) ∧
  (∃ n, (n ≤ k)%nat ∧
        vH = quads n (quadVertices true transform (ndiv (of_Z tileSize) (of_Z tileSize))) ∧
        length tH = (12 * n)%nat).

(** One slice of an opaque block: a low quad only for layer 0, a high
    quad only for the last layer. *)
Lemma sliceWorld_opaque lc blockID world dimName layer transform s arr :
  let r := sliceWorld lc blockID world true dimName layer transform (s, arr) in
  (verticesL r.2 = verticesL arr ∧ texcoordsL r.2 = texcoordsL arr ∨
   layer = 0 ∧
   verticesL r.2
     = verticesL arr ++ quadVertices false transform (ndiv (of_Z 0) (of_Z (l_tileSize lc))) ∧
   ∃ tc, length tc = 12%nat ∧ texcoordsL r.2 = texcoordsL arr ++ tc) ∧
  (verticesH r.2 = verticesH arr ∧ texcoordsH r.2 = texcoordsH arr ∨
   layer = l_tileSize lc - 1 ∧
   verticesH r.2
     = verticesH arr
         ++ quadVertices true transform (ndiv (of_Z (l_tileSize lc)) (of_Z (l_tileSize lc))) ∧
   ∃ tc, length tc = 12%nat ∧ texcoordsH r.2 = texcoordsH arr ++ tc).
Proof.
  cbv zeta. rewrite sliceWorld_eq. cbv zeta.
  destruct (negb _ && negb _); cbn [snd]; [by split; left|].
  cbn [negb orb].
  match goal with |- context [slice_pixels ?a ?b ?c ?d ?e ?f ?g] =>
    destruct (slice_pixels a b c d e f g) as [[s2 nL] nH] end.
  cbn [fst snd]. split.
  - destruct (nH && (layer =? l_tileSize lc - 1)); cbn [verticesL texcoordsL];
      (destruct nL; cbn [andb]; [|by left]);
      (destruct (Z.eqb_spec layer 0) as [Hz | Hnz]; [|by left]);
      cbn [verticesL texcoordsL]; right; rewrite Hz at 1 2;
      (split; [done|]; split; [done|]);
      (eexists; split; [|reflexivity]); apply calcTexCoords_length.
  - destruct (nL && (layer =? 0)); cbn [verticesH texcoordsH];
      (destruct nH; cbn [andb]; [|by left]);
      (destruct (Z.eqb_spec layer (l_tileSize lc - 1)) as [Hz | Hnz]; [|by left]);
      cbn [verticesH texcoordsH]; right;
      replace (layer + 1) with (l_tileSize lc) by lia;
      (split; [done|]; split; [done|]);
      (eexists; split; [|reflexivity]); apply calcTexCoords_length.
Qed.

Lemma sliceWorld_outer lc blockID world dimName layer transform s arr k :
  outer_quads (l_tileSize lc) transform k
    (verticesL arr) (texcoordsL arr) (verticesH arr) (texcoordsH arr) →
  let r := sliceWorld lc blockID world true dimName layer transform (s, arr) in
  outer_quads (l_tileSize lc) transform (S k)
    (verticesL r.2) (texcoordsL r.2) (verticesH r.2) (texcoordsH r.2).
Proof.
  intros [(nL & HnL & HvL & HtL) (nH & HnH & HvH & HtH)]. cbv zeta.
  destruct (sliceWorld_opaque lc blockID world dimName layer transform s arr) as [HL HH].
  cbv zeta in HL, HH. split.
  - destruct HL as [[-> ->] | (_ & -> & tc & Htc & ->)].
    + exists nL. split; [lia|done].
    + exists (S nL). split; [lia|]. rewrite HvL, quads_snoc, length_app, HtL, Htc.
      split; [done|lia].
  - destruct HH as [[-> ->] | (_ & -> & tc & Htc & ->)].
    + exists nH. split; [lia|done].
    + exists (S nH). split; [lia|]. rewrite HvH, quads_snoc, length_app, HtH, Htc.
      split; [done|lia].
Qed.

(** The faces that an opaque block records hold outer quads only. *)
Definition outer_face (tileSize : Z) (face : string) (g : Geometry num) : Prop :=
  ∃ dimName transform, (dimName, transform) ∈ TILE_MAPPINGS ∧
    ((face = "l" +:+ dimName ∧
      ∃ n, (n ≤ 2)%nat ∧
        vertices g = quads n (quadVertices false transform (ndiv (of_Z 0) (of_Z tileSize))) ∧
        length (texcoords g) = (12 * n)%nat)
     ∨
     (face = "h" +:+ dimName ∧
      ∃ n, (n ≤ 2)%nat ∧
        vertices g
          = quads n (quadVertices true transform (ndiv (of_Z tileSize) (of_Z tileSize))) ∧
        length (texcoords g) = (12 * n)%nat)).

Lemma world_faces_opaque lc blockID world st m :
  m ∈ TILE_MAPPINGS →
  (∀ face g, st.2 !! face = Some g → outer_face (l_tileSize lc) face g) →
  ∀ face g, (world_faces lc blockID world true st m).2 !! face = Some g →
            outer_face (l_tileSize lc) face g.
Proof.
  destruct st as [s faceData]. destruct m as [dimName transform]. cbn [fst snd].
  intros Hm Hfaces face g. unfold world_faces. cbn [fst snd].
  destruct (textureLost s); cbn [fst snd]; [apply Hfaces|].
  assert (outer_quads (l_tileSize lc) transform 0 [] [] [] []) as Houter.
  { split; exists 0%nat; done. }
  apply (sliceWorld_outer lc blockID world dimName 0 transform s
           (mkFaceArrays [] [] [] [])) in Houter.
  cbv zeta in Houter.
  destruct (sliceWorld lc blockID world true dimName 0 transform
              (s, mkFaceArrays [] [] [] [])) as [s1 arr1]. cbn [snd] in Houter.
  apply (sliceWorld_outer lc blockID world dimName (l_tileSize lc - 1) transform s1 arr1)
    in Houter. cbv zeta in Houter.
  destruct (sliceWorld lc blockID world true dimName (l_tileSize lc - 1) transform
              (s1, arr1)) as [s2 arr2]. cbn [snd] in Houter.
  destruct Houter as [HL HH].
  intros [[<- <-] | [_ [[<- <-] | [_ Hg]]%lookup_insert_Some]]%lookup_insert_Some.
  - exists dimName, transform. split; [done|]. right. split; [done|]. exact HH.
  - exists dimName, transform. split; [done|]. left. split; [done|]. exact HL.
  - by apply Hfaces.
Qed.

(** C4: a slice of an opaque world block type appends a low quad only
    for layer 0 and a high quad only for layer [tileSize - 1], so never
    for a layer strictly between them, whatever the world holds; and
    every face that [rebuildOne] records for such a block consists of low
    quads of layer 0 (depth [0 / tileSize]) or of high quads of layer
    [tileSize - 1] (depth [tileSize / tileSize]). *)
Theorem opaque_world_outer_layers (s : Texgen num) (blockID : nat) (world : World num)
    (c : num * num * num) :
  (∀ lc dimName layer transform s' arr,
     let r := sliceWorld lc blockID world true dimName layer transform (s', arr) in
     (verticesL r.2 = verticesL arr ∧ texcoordsL r.2 = texcoordsL arr ∨
      layer = 0 ∧
      verticesL r.2
        = verticesL arr
            ++ quadVertices false transform (ndiv (of_Z 0) (of_Z (l_tileSize lc))) ∧
      ∃ tc, length tc = 12%nat ∧ texcoordsL r.2 = texcoordsL arr ++ tc) ∧
     (verticesH r.2 = verticesH arr ∧ texcoordsH r.2 = texcoordsH arr ∨
      layer = l_tileSize lc - 1 ∧
      verticesH r.2
        = verticesH arr
            ++ quadVertices true transform
                 (ndiv (of_Z (l_tileSize lc)) (of_Z (l_tileSize lc))) ∧
      ∃ tc, length tc = 12%nat ∧ texcoordsH r.2 = texcoordsH arr ++ tc)) ∧
  (∀ face g,
     (rebuild_faces s blockID (BlockType_World world true c)).2 !! face = Some g →
     outer_face (tileSize s) face g).
Proof.
  split; [intros; apply sliceWorld_opaque|].
  unfold rebuild_faces. set (lc := rebuild_locals s).
  change (tileSize s) with (l_tileSize lc).
  assert (Hfold : ∀ mappings st,
            (∀ m, m ∈ mappings → m ∈ TILE_MAPPINGS) →
            (∀ face g, st.2 !! face = Some g → outer_face (l_tileSize lc) face g) →
            ∀ face g, (foldl (world_faces lc blockID world true) st mappings).2 !! face
                      = Some g →
                      outer_face (l_tileSize lc) face g).
  { induction mappings as [|m mappings IH]; intros st Hsub Hst; cbn [foldl]; [done|].
    apply IH.
    - intros m' Hm'. apply Hsub. by right.
    - apply world_faces_opaque; [|done]. apply Hsub. by left. }
  apply Hfold; [done|]. intros face g. cbn [snd]. by rewrite lookup_empty.
Qed.

(** *** Loops that store pixels *)

Section PixelLoops.
Context {S A : Type} (π : S → ImageData) (good : S → Prop) (f : S → A → S).

(** A loop leaves alone every byte that none of its iterations
    touches. *)
Lemma foldl_frame (touched : A → Z → Prop) (l : list A) :
  (∀ st x, x ∈ l → good st → good (f st x)) →
  (∀ st x a, x ∈ l → good st → ¬ touched x a →
             data_get (π (f st x)) a = data_get (π st) a) →
  ∀ st, good st →
    good (foldl f st l) ∧
    ∀ a, (∀ x, x ∈ l → ¬ touched x a) → data_get (π (foldl f st l)) a = data_get (π st) a.
Proof.
  induction l as [|x l IH]; intros Hgood Hframe st Hst; cbn [foldl]; [done|].
  destruct (IH (λ st y Hy, Hgood st y (list_elem_of_further _ _ _ Hy))
               (λ st y a Hy, Hframe st y a (list_elem_of_further _ _ _ Hy))
               (f st x) (Hgood _ _ (list_elem_of_here _ _) Hst)) as [Hg Hfr].
  split; [done|].
  intros a Ha. rewrite Hfr.
  - apply Hframe; [by left|done|]. apply Ha. by left.
  - intros y Hy. apply Ha. by right.
Qed.

(** When the iterations write different bytes, each byte written holds
    what its iteration wrote. *)
Lemma foldl_writes (wrote : A → Z → Z → Prop) (l : list A) :
  (∀ st x, x ∈ l → good st → good (f st x)) →
  (∀ st x a b, x ∈ l → good st → wrote x a b → data_get (π (f st x)) a = b) →
  (∀ st x a, x ∈ l → good st → (∀ b, ¬ wrote x a b) →
             data_get (π (f st x)) a = data_get (π st) a) →
  (∀ i j x y a b b', l !! i = Some x → l !! j = Some y →
                     wrote x a b → wrote y a b' → i = j) →
  ∀ st, good st →
    ∀ x a b, x ∈ l → wrote x a b → data_get (π (foldl f st l)) a = b.
Proof.
  induction l as [|x l IH]; intros Hgood Hwrite Hframe Hdisj st Hst y a b Hy Hw.
  { by apply elem_of_nil in Hy. }
  cbn [foldl].
  assert (Hdisj' : ∀ i j x y a b b', l !! i = Some x → l !! j = Some y →
                     wrote x a b → wrote y a b' → i = j).
  { intros i j x' y' a' b1 b2 Hi Hj H1 H2.
    assert (Datatypes.S i = Datatypes.S j) by (by eapply (Hdisj (Datatypes.S i) (Datatypes.S j))).
    lia. }
  pose proof (λ st y Hy, Hgood st y (list_elem_of_further _ _ _ Hy)) as Hgood'.
  pose proof (λ st y a Hy, Hframe st y a (list_elem_of_further _ _ _ Hy)) as Hframe'.
  pose proof (λ st y a b Hy, Hwrite st y a b (list_elem_of_further _ _ _ Hy)) as Hwrite'.
  pose proof (Hgood _ _ (list_elem_of_here _ _) Hst) as Hst'.
  apply elem_of_cons in Hy as [-> | Hy]; [|by apply (IH Hgood' Hwrite' Hframe' Hdisj' _ Hst' y)].
  destruct (foldl_frame (λ z a, ∃ b, wrote z a b) l Hgood') with (st := f st x) as [_ Hfr].
  - intros st' z a' Hz Hst'' Hn. apply Hframe'; [done|done|].
    intros b' Hb'. apply Hn. eauto.
  - done.
  - rewrite Hfr; [apply Hwrite; [by left|done|done]|].
    intros z [j Hj]%list_elem_of_lookup [b' Hb'].
    assert (0%nat = Datatypes.S j) by (by eapply (Hdisj 0%nat (Datatypes.S j) x z a b b')).
    lia.
Qed.

End PixelLoops.

(** *** The pixels and the flags of a slice *)

(** Byte [k] of a pixel as [writeColor] stores it. *)
Definition byte_at (v : num * num * num * num) (k : Z) : Z :=
  if k =? 0 then to_byte v.1.1.1
  else if k =? 1 then to_byte v.1.1.2
  else if k =? 2 then to_byte v.1.2
  else to_byte v.2.

(** Byte [k] of pixel [(u, v)] of a layer. *)
Definition pixel_byte (world : World num) (transform : mat4) (layer u v k : Z) : Z :=
  let '(x, y, z) := multiplyVec3Z transform (u, v, layer) in
  byte_at (writeColor (gt world x y z) (of_Z 255)) k.

(** The visibility flags, from the world alone. *)
Definition flag_pixel (world : World num) (transform : mat4) (layer : Z)
    (viewL viewH : Z * Z * Z) (fl : bool * bool) (u v : Z) : bool * bool :=
  let '(x, y, z) := multiplyVec3Z transform (u, v, layer) in
  if 0 <? written_alpha world x y z then
    (if negb (wopaque world (x + viewL.1.1) (y + viewL.1.2) (z + viewL.2))
     then true else fl.1,
     if negb (wopaque world (x + viewH.1.1) (y + viewH.1.2) (z + viewH.2))
     then true else fl.2)
  else fl.

Definition layer_flags (tileSize : Z) (world : World num) (transform : mat4) (layer : Z)
    : bool * bool :=
  let viewL := multiplyVec3Z transform (0, 0, -1) in
  let viewH := multiplyVec3Z transform (0, 0, 1) in
  foldl (λ fl u,
           foldl (λ fl v, flag_pixel world transform layer viewL viewH fl u v)
                 fl (seqZ 0 tileSize))
        (false, false) (seqZ 0 tileSize).

(** The surface [r] of the atlas is a square of side [w]. *)
Definition square_surface (r : nat) (w : Z) (s : Texgen num) : Prop :=
  width (image_at s r) = w ∧ height (image_at s r) = w.

Lemma square_in_data r w s a :
  square_surface r w s → 0 ≤ a < 4 * w * w → in_data (image_at s r) a = true.
Proof.
  intros [Hw Hh] Ha. unfold in_data, data_length. rewrite Hw, Hh.
  apply andb_true_intro. split; [apply Z.leb_le|apply Z.ltb_lt]; lia.
Qed.

Lemma store4_square r w s c v :
  square_surface r w s → square_surface r w (store4 s r c v).
Proof.
  destruct v as [[[v0 v1] v2] v3]. unfold square_surface, store4.
  by rewrite !image_at_write_byte, !data_set_width, !data_set_height.
Qed.

Lemma store4_data s r c (v : num * num * num * num) a :
  data_get (image_at (store4 s r c v) r) a
  = if (a =? c + 3) && in_data (image_at s r) (c + 3) then to_byte v.2
    else if (a =? c + 2) && in_data (image_at s r) (c + 2) then to_byte v.1.2
    else if (a =? c + 1) && in_data (image_at s r) (c + 1) then to_byte v.1.1.2
    else if (a =? c) && in_data (image_at s r) c then to_byte v.1.1.1
    else data_get (image_at s r) a.
Proof.
  destruct v as [[[v0 v1] v2] v3]. unfold store4. cbn [fst snd].
  rewrite !image_at_write_byte, !data_get_data_set, !in_data_data_set. done.
Qed.

Lemma store4_written r w s c v k :
  square_surface r w s → 0 ≤ k < 4 → 0 ≤ c → c + 3 < 4 * w * w →
  data_get (image_at (store4 s r c v) r) (c + k) = byte_at v k.
Proof.
  intros Hsq Hk Hc0 Hc3. rewrite store4_data.
  rewrite !(square_in_data r w s) by (done || lia). rewrite !andb_true_r.
  unfold byte_at.
  destruct (Z.eqb_spec k 0) as [-> | ?];
    [|destruct (Z.eqb_spec k 1) as [-> | ?];
      [|destruct (Z.eqb_spec k 2) as [-> | ?]; [|assert (k = 3) as -> by lia]]];
    repeat match goal with
           | |- context [?a =? ?b] => destruct (Z.eqb_spec a b); try lia
           end; done.
Qed.

Lemma store4_frame s r c v a :
  (∀ k, 0 ≤ k < 4 → a ≠ c + k) →
  data_get (image_at (store4 s r c v) r) a = data_get (image_at s r) a.
Proof.
  intros Ha. rewrite store4_data.
  pose proof (Ha 0 ltac:(lia)). pose proof (Ha 1 ltac:(lia)).
  pose proof (Ha 2 ltac:(lia)). pose proof (Ha 3 ltac:(lia)).
  repeat match goal with
         | |- context [?a =? ?b] => destruct (Z.eqb_spec a b); try lia
         end; done.
Qed.

Section SlicePixels.
Context (lc : Locals) (world : World num) (transform : mat4) (layer : Z).
Context (coord : Z * Z) (w : Z).
Context (Hwidth : l_texWidth lc = w).
Context (Hrange : ∀ u v k, 0 ≤ u < l_tileSize lc → 0 ≤ v < l_tileSize lc → 0 ≤ k < 4 →
                   0 ≤ tile_pixel coord w u v + k < 4 * w * w).
Context (Hinj : ∀ u v k u' v' k',
            0 ≤ u < l_tileSize lc → 0 ≤ v < l_tileSize lc → 0 ≤ k < 4 →
            0 ≤ u' < l_tileSize lc → 0 ≤ v' < l_tileSize lc → 0 ≤ k' < 4 →
            tile_pixel coord w u v + k = tile_pixel coord w u' v' + k' →
            u = u' ∧ v = v' ∧ k = k').

Let viewL := multiplyVec3Z transform (0, 0, -1).
Let viewH := multiplyVec3Z transform (0, 0, 1).
Let step (st : Texgen num * bool * bool) (u v : Z) : Texgen num * bool * bool :=
  slice_pixel lc world transform layer coord.1 coord.2 viewL viewH st u v.
Let good (st : Texgen num * bool * bool) : Prop :=
  square_surface (l_texData lc) w st.1.1.
Let π (st : Texgen num * bool * bool) : ImageData := image_at st.1.1 (l_texData lc).

Lemma slice_pixel_fst st u v :
  (step st u v).1.1
  = store4 st.1.1 (l_texData lc) (tile_pixel coord w u v)
      (let '(x, y, z) := multiplyVec3Z transform (u, v, layer) in
       writeColor (gt world x y z) (of_Z 255)).
Proof.
  destruct st as [[s nL] nH]. subst step. cbv beta. unfold slice_pixel, tile_pixel.
  rewrite Hwidth.
  destruct (multiplyVec3Z transform (u, v, layer)) as [[x y] z].
  by destruct (0 <? _).
Qed.

Lemma slice_pixel_good st u v : good st → good (step st u v).
Proof. intros Hst. unfold good. rewrite slice_pixel_fst. by apply store4_square. Qed.

Lemma slice_pixel_flags st u v :
  good st → 0 ≤ u < l_tileSize lc → 0 ≤ v < l_tileSize lc →
  ((step st u v).1.2, (step st u v).2)
  = flag_pixel world transform layer viewL viewH (st.1.2, st.2) u v.
Proof.
  intros Hst Hu Hv. destruct st as [[s nL] nH]. subst step. cbv beta.
  unfold slice_pixel, flag_pixel. rewrite Hwidth.
  destruct (multiplyVec3Z transform (u, v, layer)) as [[x y] z].
  rewrite store4_alpha.
  rewrite (square_in_data (l_texData lc) w s).
  - fold (written_alpha world x y z). by destruct (0 <? _).
  - exact Hst.
  - pose proof (Hrange u v 3 Hu Hv ltac:(lia)) as Hr. unfold tile_pixel in Hr. lia.
Qed.

Lemma slice_pixel_written st u v k :
  good st → 0 ≤ u < l_tileSize lc → 0 ≤ v < l_tileSize lc → 0 ≤ k < 4 →
  data_get (π (step st u v)) (tile_pixel coord w u v + k)
  = pixel_byte world transform layer u v k.
Proof.
  intros Hst Hu Hv Hk. unfold π. rewrite slice_pixel_fst.
  rewrite (store4_written _ w); [..|done|done| |].
  - unfold pixel_byte. by destruct (multiplyVec3Z transform (u, v, layer)) as [[x y] z].
  - pose proof (Hrange u v 0 Hu Hv ltac:(lia)). lia.
  - pose proof (Hrange u v 3 Hu Hv ltac:(lia)). lia.
Qed.

Lemma slice_pixel_frame st u v a :
  (∀ k, 0 ≤ k < 4 → a ≠ tile_pixel coord w u v + k) →
  data_get (π (step st u v)) a = data_get (π st) a.
Proof. intros Ha. unfold π. rewrite slice_pixel_fst. by apply store4_frame. Qed.

(** The inner loop, over [v], for a row [u]. *)
Lemma slice_row st u :
  good st → 0 ≤ u < l_tileSize lc →
  let st' := foldl (λ st v, step st u v) st (seqZ 0 (l_tileSize lc)) in
  good st' ∧
  (st'.1.2, st'.2)
    = foldl (λ fl v, flag_pixel world transform layer viewL viewH fl u v)
        (st.1.2, st.2) (seqZ 0 (l_tileSize lc)) ∧
  (∀ v k, 0 ≤ v < l_tileSize lc → 0 ≤ k < 4 →
     data_get (π st') (tile_pixel coord w u v + k) = pixel_byte world transform layer u v k) ∧
  (∀ a, (∀ v k, 0 ≤ v < l_tileSize lc → 0 ≤ k < 4 → a ≠ tile_pixel coord w u v + k) →
     data_get (π st') a = data_get (π st) a).
Proof.
  intros Hst Hu. cbv zeta.
  assert (Hmem : ∀ v, v ∈ seqZ 0 (l_tileSize lc) → 0 ≤ v < l_tileSize lc).
  { intros v Hv%elem_of_seqZ. lia. }
  split; [|split; [|split]].
  - apply (foldl_frame π good (λ st v, step st u v) (λ _ _, True)); [|done|done].
    intros st' v _. apply slice_pixel_good.
  - revert Hmem st Hst. generalize (seqZ 0 (l_tileSize lc)).
    induction l as [|v l IH]; intros Hmem st Hst; cbn [foldl]; [done|].
    rewrite IH.
    + f_equal. apply slice_pixel_flags; [done|done|]. apply Hmem. by left.
    + intros v' Hv'. apply Hmem. by right.
    + by apply slice_pixel_good.
  - intros v k Hv Hk.
    apply (foldl_writes π good (λ st v, step st u v)
             (λ v a b, ∃ k, 0 ≤ k < 4 ∧ a = tile_pixel coord w u v + k ∧
                            b = pixel_byte world transform layer u v k)
             (seqZ 0 (l_tileSize lc))) with (x := v).
    + intros st' v' _. apply slice_pixel_good.
    + intros st' v' a b Hv' Hst' (k' & Hk' & -> & ->).
      apply slice_pixel_written; auto.
    + intros st' v' a Hv' Hst' Hn. apply slice_pixel_frame.
      intros k' Hk' ->. eapply Hn. eauto.
    + intros i j x y a b b' [-> Hi]%lookup_seqZ [-> Hj]%lookup_seqZ
        (k1 & Hk1 & -> & _) (k2 & Hk2 & Heq & _).
      apply Hinj in Heq; [lia|lia..].
    + done.
    + apply elem_of_seqZ. lia.
    + eauto.
  - intros a Ha.
    apply (foldl_frame π good (λ st v, step st u v)
             (λ v a, ∃ k, 0 ≤ k < 4 ∧ a = tile_pixel coord w u v + k)
             (seqZ 0 (l_tileSize lc))); [| |done|].
    + intros st' v' _. apply slice_pixel_good.
    + intros st' v' a' Hv' Hst' Hn. apply slice_pixel_frame.
      intros k' Hk' ->. apply Hn. eauto.
    + intros v Hv (k & Hk & ->). by eapply (Ha v k); [apply Hmem|..].
Qed.

(** The pixel loops of a slice: the flags are those of the layer, the
    pixels of the tile hold the layer, and no other byte has changed. *)
Lemma slice_pixels_spec s :
  square_surface (l_texData lc) w s →
  let px := slice_pixels lc world transform layer coord.1 coord.2 s in
  square_surface (l_texData lc) w px.1.1 ∧
  (px.1.2, px.2) = layer_flags (l_tileSize lc) world transform layer ∧
  (∀ u v k, 0 ≤ u < l_tileSize lc → 0 ≤ v < l_tileSize lc → 0 ≤ k < 4 →
     data_get (image_at px.1.1 (l_texData lc)) (tile_pixel coord w u v + k)
     = pixel_byte world transform layer u v k) ∧
  (∀ a, (∀ u v k, 0 ≤ u < l_tileSize lc → 0 ≤ v < l_tileSize lc → 0 ≤ k < 4 →
                  a ≠ tile_pixel coord w u v + k) →
     data_get (image_at px.1.1 (l_texData lc)) a = data_get (image_at s (l_texData lc)) a).
Proof.
  intros Hs. cbv zeta. unfold slice_pixels. fold viewL viewH.
  change (λ st u, foldl (λ st0 v, slice_pixel lc world transform layer coord.1 coord.2
                                   viewL viewH st0 u v) st (seqZ 0 (l_tileSize lc)))
    with (λ st u, foldl (λ st0 v, step st0 u v) st (seqZ 0 (l_tileSize lc))).
  set (row := λ st u, foldl (λ st0 v, step st0 u v) st (seqZ 0 (l_tileSize lc))).
  assert (Hmem : ∀ u, u ∈ seqZ 0 (l_tileSize lc) → 0 ≤ u < l_tileSize lc).
  { intros u Hu%elem_of_seqZ. lia. }
  assert (Hgood : ∀ st u, u ∈ seqZ 0 (l_tileSize lc) → good st → good (row st u)).
  { intros st u Hu Hst. by apply slice_row; [|apply Hmem]. }
  change (good (s, false, false)) in Hs.
  split; [|split; [|split]].
  - by apply (foldl_frame π good row (λ _ _, True)).
  - unfold layer_flags. fold viewL viewH.
    assert (Hflags : ∀ l st,
              (∀ u, u ∈ l → u ∈ seqZ 0 (l_tileSize lc)) → good st →
              ((foldl row st l).1.2, (foldl row st l).2)
              = foldl (λ fl u,
                         foldl (λ fl v, flag_pixel world transform layer viewL viewH fl u v)
                           fl (seqZ 0 (l_tileSize lc)))
                  (st.1.2, st.2) l).
    { induction l as [|u l IH]; intros st Hsub Hst; cbn [foldl]; [done|].
      rewrite IH.
      - f_equal. apply slice_row; [done|]. apply Hmem, Hsub. by left.
      - intros u' Hu'. apply Hsub. by right.
      - apply Hgood; [|done]. apply Hsub. by left. }
    by apply (Hflags (seqZ 0 (l_tileSize lc)) (s, false, false)).
  - intros u v k Hu Hv Hk.
    apply (foldl_writes π good row
             (λ u a b, ∃ v k, 0 ≤ v < l_tileSize lc ∧ 0 ≤ k < 4 ∧
                              a = tile_pixel coord w u v + k ∧
                              b = pixel_byte world transform layer u v k)
             (seqZ 0 (l_tileSize lc))) with (x := u).
    + done.
    + intros st' u' a b Hu' Hst' (v' & k' & Hv' & Hk' & -> & ->).
      by apply slice_row; [|apply Hmem|..].
    + intros st' u' a Hu' Hst' Hn.
      apply slice_row; [done|by apply Hmem|].
      intros v' k' Hv' Hk' ->. eapply Hn. eauto 10.
    + intros i j x y a b b' [-> Hi]%lookup_seqZ [-> Hj]%lookup_seqZ
        (v1 & k1 & Hv1 & Hk1 & -> & _) (v2 & k2 & Hv2 & Hk2 & Heq & _).
      apply Hinj in Heq; [lia|lia..].
    + done.
    + apply elem_of_seqZ. lia.
    + eauto 10.
  - intros a Ha.
    apply (foldl_frame π good row
             (λ u a, ∃ v k, 0 ≤ v < l_tileSize lc ∧ 0 ≤ k < 4 ∧
                            a = tile_pixel coord w u v + k)
             (seqZ 0 (l_tileSize lc))); [done| |done|].
    + intros st' u' a' Hu' Hst' Hn.
      apply slice_row; [done|by apply Hmem|].
      intros v' k' Hv' Hk' ->. apply Hn. eauto 10.
    + intros u Hu (v & k & Hv & Hk & ->). by eapply (Ha u v k); [apply Hmem|..].
Qed.

End SlicePixels.

(** *** The border leaves the tiles alone *)

Lemma copy_frame img dst src a :
  (∀ k, 0 ≤ k < 4 → a ≠ dst + k) → data_get (copy img dst src) a = data_get img a.
Proof.
  intros Ha. unfold copy. rewrite !data_get_data_set.
  pose proof (Ha 0 ltac:(lia)). pose proof (Ha 1 ltac:(lia)).
  pose proof (Ha 2 ltac:(lia)). pose proof (Ha 3 ltac:(lia)).
  repeat match goal with
         | |- context [?a =? ?b] => destruct (Z.eqb_spec a b); try lia
         end; done.
Qed.

(** [completed] changes border pixels only. *)
Lemma completed_image_frame ts coords img a :
  (∀ x y k, ring ts x y → 0 ≤ k < 4 → a ≠ pix coords (width img) x y + k) →
  data_get (completed_image ts coords img) a = data_get img a.
Proof.
  intros Ha. unfold completed_image.
  set (w := width img).
  set (rows := λ img0 x, copy (copy img0 (pix coords w x (-1)) (pix coords w x 0))
                           (pix coords w x ts) (pix coords w x (ts - 1))).
  set (cols := λ img0 y, copy (copy img0 (pix coords w (-1) y) (pix coords w 0 y))
                           (pix coords w ts y) (pix coords w (ts - 1) y)).
  destruct (foldl_frame (λ i, i) (λ _, True) cols
              (λ y a, ∃ x k, ring ts x y ∧ 0 ≤ k < 4 ∧ a = pix coords w x y + k)
              (seqZ (-1) (ts + 2))) with (st := foldl rows img (seqZ 0 ts)) as [_ Hc];
    [done| |done|].
  { intros img0 y a' Hy%elem_of_seqZ _ Hn. unfold cols.
    rewrite !copy_frame; [done|..]; intros k Hk ->; apply Hn.
    - exists (-1), k. unfold ring. split; [right; lia|done].
    - exists ts, k. unfold ring. split; [right; lia|done]. }
  rewrite Hc.
  - destruct (foldl_frame (λ i, i) (λ _, True) rows
                (λ x a, ∃ y k, ring ts x y ∧ 0 ≤ k < 4 ∧ a = pix coords w x y + k)
                (seqZ 0 ts)) with (st := img) as [_ Hr]; [done| |done|].
    { intros img0 x a' Hx%elem_of_seqZ _ Hn. unfold rows.
      rewrite !copy_frame; [done|..]; intros k Hk ->; apply Hn.
      - exists (-1), k. unfold ring. split; [left; lia|done].
      - exists ts, k. unfold ring. split; [left; lia|done]. }
    apply Hr. intros x _ (y & k & Hring & Hk & ->). by eapply Ha.
  - intros y _ (x & k & Hring & Hk & ->). by eapply Ha.
Qed.

(** *** A pass without growth *)

(** A well-formed atlas whose surface is valid. *)
Record atlas_ok (s : Texgen num) : Prop := {
  ok_wf : atlas_wf s;
  ok_bijection : bijection s;
  ok_valid : textureLost s = false
}.

Lemma wf_bijection_closed : atlas_closed (λ s, atlas_wf s ∧ bijection s).
Proof.
  split.
  - intros s t [Hwf Hbij]. split; [by apply allocationFor_wf|by apply allocationFor_bijection].
  - intros s t [Hwf Hbij]. split; [by apply deallocateUsage_wf|by apply deallocateUsage_bijection].
  - intros s t [Hwf Hbij]. split; [by apply completed_wf|].
    rewrite completed_eq. by apply set_images_bijection, allocationFor_bijection.
  - intros s r i v [Hwf Hbij]. split; [by apply write_byte_wf|by apply set_images_bijection].
Qed.

(** Once the texture is lost it stays lost until it is acknowledged. *)
Lemma lost_closed : atlas_closed (λ s, textureLost s = true).
Proof.
  split.
  - intros s t Hl. by rewrite allocationFor_lost.
  - intros s t Hl. unfold deallocateUsage. by rewrite Hl.
  - intros s t Hl. rewrite completed_eq. by rewrite allocationFor_lost.
  - done.
Qed.

(** The texture coordinates of the tile in cell [c]: what
    [calcTexCoords] returns for a token registered there. *)
Definition tile_texcoords (s : Texgen num) (c : nat) (flipped : bool) : list num :=
  let uv0 := nadd (borderUVOffset s) (nmul (borderTileUVSize s) (of_Z (tileCoords s c).1)) in
  let uv1 := nadd (borderUVOffset s) (nmul (borderTileUVSize s) (of_Z (tileCoords s c).2)) in
  let texO := if flipped then tileUVSize s else of_Z 0 in
  let texD := if flipped then of_Z 0 else tileUVSize s in
  [ nadd uv1 texO; nadd uv0 texO;
    nadd uv1 (tileUVSize s); nadd uv0 (of_Z 0);
    nadd uv1 (of_Z 0); nadd uv0 (tileUVSize s);
    nadd uv1 texD; nadd uv0 texD;
    nadd uv1 (of_Z 0); nadd uv0 (tileUVSize s);
    nadd uv1 (tileUVSize s); nadd uv0 (of_Z 0) ].

Section KnownToken.
Context (s : Texgen num) (t : string) (c : nat).
Context (Hvalid : textureLost s = false) (Hc : usageMap s !! t = Some c).

Lemma imageCoordsFor_known :
  imageCoordsFor s t = (s, cell_coords (borderTileSize s) (tileCountSqrt s) c).
Proof. unfold imageCoordsFor. by rewrite (allocationFor_known s t c). Qed.

Lemma calcTexCoords_known flipped :
  calcTexCoords s t flipped = (s, tile_texcoords s c flipped).
Proof. unfold calcTexCoords, uvFor. by rewrite (allocationFor_known s t c). Qed.

Lemma completed_known :
  completed s t
  = set_images s
      (alter (completed_image (tileSize s)
                (cell_coords (borderTileSize s) (tileCountSqrt s) c))
         (image_ref s) (images s)).
Proof. unfold completed. by rewrite imageCoordsFor_known. Qed.

End KnownToken.

(** The constants of the surface, which only growth changes. *)
Record same_surface (s s' : Texgen num) : Prop := {
  ss_tileSize : tileSize s' = tileSize s;
  ss_textureSize : textureSize s' = textureSize s;
  ss_tileUVSize : tileUVSize s' = tileUVSize s;
  ss_borderUVOffset : borderUVOffset s' = borderUVOffset s;
  ss_borderTileUVSize : borderTileUVSize s' = borderTileUVSize s;
  ss_tileCountSqrt : tileCountSqrt s' = tileCountSqrt s;
  ss_images : length (images s') = length (images s);
  ss_width : width (image s') = width (image s)
}.

Lemma same_surface_refl s : same_surface s s.
Proof. by split. Qed.

Lemma same_surface_trans s1 s2 s3 :
  same_surface s1 s2 → same_surface s2 s3 → same_surface s1 s3.
Proof. intros [] []. split; congruence. Qed.

Lemma same_surface_locals s s' : same_surface s s' → rebuild_locals s' = rebuild_locals s.
Proof.
  intros []. unfold rebuild_locals, image_ref. by f_equal; [|f_equal|].
Qed.

Lemma same_surface_texcoords s s' c flipped :
  same_surface s s' → tile_texcoords s' c flipped = tile_texcoords s c flipped.
Proof.
  intros [_ _ H3 H4 H5 H6 _ _]. unfold tile_texcoords, tileCoords.
  by rewrite H3, H4, H5, H6.
Qed.

Lemma allocation_run s t :
  atlas_ok s → textureLost (fst (allocationFor s t)) = false →
  ∃ c, (c < length (tileAllocMap s))%nat ∧
       snd (allocationFor s t) = tileCoords s c ∧
       (usageMap s !! t = Some c ∧ fst (allocationFor s t) = s ∨
        usageMap s !! t = None ∧ tileAllocMap s !! c = Some 0 ∧
        fst (allocationFor s t) = allocated s t c).
Proof.
  intros [Hwf Hbij Hvalid] Hlost.
  destruct (usageMap s !! t) as [c|] eqn:Hc.
  - exists c. rewrite (allocationFor_known s t c) by done.
    split; [|split; [done|by left]].
    eapply lookup_lt_Some. by eapply bij_occupied.
  - destruct (allocationFor_fresh s t Hwf Hvalid Hc) as [(j & Hj & Hf & _ & Heq) | [_ Heq]].
    + eexists. rewrite Heq. split; [by eapply lookup_lt_Some|]. split; [done|]. by right.
    + by rewrite Heq in Hlost.
Qed.

(** The grid of cells of a well-formed atlas. *)
Lemma wf_grid s :
  atlas_wf s →
  1 ≤ tileSize s ∧ 0 < tileCountSqrt s ∧
  (tileSize s + 2) * tileCountSqrt s ≤ textureSize s.
Proof.
  intros [Ht Hfit _ Hcount _ _ _ _ _]. split; [done|]. rewrite Hcount. split.
  - apply Z.div_str_pos. lia.
  - apply Z.mul_div_le. lia.
Qed.

Lemma wf_valid_cell s c :
  atlas_wf s → (c < length (tileAllocMap s))%nat → valid_cell (tileCountSqrt s) c.
Proof. intros Hwf Hc. unfold valid_cell. rewrite (wf_length s Hwf) in Hc. lia. Qed.

(** The tile in cell [c] holds the pixels [content]. *)
Definition tile_holds (s : Texgen num) (c : nat) (content : Z → Z → Z → Z) : Prop :=
  ∀ u v k, 0 ≤ u < tileSize s → 0 ≤ v < tileSize s → 0 ≤ k < 4 →
    data_get (image s)
      (tile_pixel (cell_coords (borderTileSize s) (tileCountSqrt s) c)
         (width (image s)) u v + k)
    = content u v k.

(** The tile in cell [c] holds in [s'] what it holds in [s]. *)
Definition tile_same (s s' : Texgen num) (c : nat) : Prop :=
  ∀ u v k, 0 ≤ u < tileSize s → 0 ≤ v < tileSize s → 0 ≤ k < 4 →
    data_get (image s')
      (tile_pixel (cell_coords (borderTileSize s) (tileCountSqrt s) c)
         (width (image s)) u v + k)
    = data_get (image s)
        (tile_pixel (cell_coords (borderTileSize s) (tileCountSqrt s) c)
           (width (image s)) u v + k).

(** What a slice appends for a tile in cell [c]. *)
Definition slice_arrays (s : Texgen num) (tileSize : Z) (opaque : bool) (transform : mat4)
    (layer : Z) (fl : bool * bool) (c : nat) (arr : FaceArrays num) : FaceArrays num :=
  let emitL := fl.1 && (negb opaque || (layer =? 0)) in
  let emitH := fl.2 && (negb opaque || (layer =? tileSize - 1)) in
  let arr4 :=
    if emitL then
      mkFaceArrays (texcoordsL arr ++ tile_texcoords s c false) (texcoordsH arr)
        (verticesL arr ++ quadVertices false transform (ndiv (of_Z layer) (of_Z tileSize)))
        (verticesH arr)
    else arr in
  if emitH then
    mkFaceArrays (texcoordsL arr4) (texcoordsH arr4 ++ tile_texcoords s c true)
      (verticesL arr4)
      (verticesH arr4 ++ quadVertices true transform (ndiv (of_Z (layer + 1)) (of_Z tileSize)))
  else arr4.

Lemma image_set_images_alter s (f : ImageData → ImageData) :
  images s ≠ [] →
  image (set_images s (alter f (image_ref s) (images s))) = f (image s).
Proof.
  intros Hne. unfold image, image_at, image_ref. cbn [images set_images].
  rewrite length_alter, list_lookup_alter_eq.
  destruct (images s !! pred (length (images s))) as [img|] eqn:Himg; [done|].
  apply lookup_ge_None in Himg. destruct (images s); [done|]. simpl in Himg. lia.
Qed.

Lemma tile_same_refl s c : tile_same s s c.
Proof. by intros u v k. Qed.

Lemma tile_same_trans s1 s2 s3 c :
  same_surface s1 s2 → tile_same s1 s2 c → tile_same s2 s3 c → tile_same s1 s3 c.
Proof.
  intros Hss H12 H23 u v k Hu Hv Hk.
  rewrite <- (H12 u v k Hu Hv Hk). destruct Hss.
  specialize (H23 u v k). unfold borderTileSize in *.
  rewrite ss_tileSize0, ss_tileCountSqrt0, ss_width0 in H23. apply H23; lia.
Qed.

Lemma tile_holds_same s s' c content :
  same_surface s s' → tile_holds s c content → tile_same s s' c → tile_holds s' c content.
Proof.
  intros Hss Hh Hsame u v k Hu Hv Hk. destruct Hss. unfold borderTileSize.
  rewrite ss_tileSize0, ss_tileCountSqrt0, ss_width0 in *.
  rewrite <- (Hh u v k) by lia. apply Hsame; lia.
Qed.

(** The pixel loops of a slice whose tile is cell [c]. *)
Lemma slice_pixels_run lc world transform layer s c :
  atlas_ok s → rebuild_locals s = lc → (c < length (tileAllocMap s))%nat →
  let coord := cell_coords (borderTileSize s) (tileCountSqrt s) c in
  let px := slice_pixels lc world transform layer coord.1 coord.2 s in
  only_images s px.1.1 ∧
  same_surface s px.1.1 ∧
  (px.1.2, px.2) = layer_flags (l_tileSize lc) world transform layer ∧
  tile_holds px.1.1 c (pixel_byte world transform layer) ∧
  (∀ c', c' ≠ c → (c' < length (tileAllocMap s))%nat → tile_same s px.1.1 c').
Proof.
  intros [Hwf Hbij Hvalid] <- Hc coord px.
  destruct (wf_grid s Hwf) as (Hts & Htcs & Hfit).
  destruct (wf_image s Hwf) as (Hne & Hw & Hh).
  pose proof (wf_valid_cell s c Hwf Hc) as Hcv.
  assert (Honly : only_images s px.1.1) by apply slice_pixels_only_images.
  destruct (slice_pixels_spec (rebuild_locals s) world transform layer coord (textureSize s))
    with (s := s) as (Hsq & Hfl & Hwritten & Hframe).
  - done.
  - intros u v k Hu Hv Hk. by apply (interior_in_image _ (tileSize s)).
  - intros u v k u' v' k' Hu Hv Hk Hu' Hv' Hk' Heq.
    by apply (interior_inj (textureSize s) (tileSize s) (tileCountSqrt s)) in Heq as (_ & ? & ? & ?).
  - split; [exact Hw|exact Hh].
  - fold px in Hsq, Hfl, Hwritten, Hframe.
    destruct Honly as (l & Hpx & Hl).
    assert (Href : image_ref px.1.1 = image_ref s).
    { rewrite Hpx. unfold image_ref. cbn [images set_images]. by rewrite Hl. }
    assert (Himg : image px.1.1 = image_at px.1.1 (image_ref s)).
    { unfold image. by rewrite Href. }
    assert (Hss : same_surface s px.1.1).
    { split; try (rewrite Hpx; done).
      rewrite Himg, Hw. exact (proj1 Hsq). }
    split; [by exists l|]. split; [done|]. split; [done|]. split.
    + intros u v k Hu Hv Hk. destruct Hss. unfold borderTileSize.
      rewrite ss_tileSize0, ss_tileCountSqrt0, ss_width0, Himg, Hw in *.
      apply Hwritten; cbn [l_tileSize rebuild_locals]; lia.
    + intros c' Hne' Hc' u v k Hu Hv Hk. rewrite Himg, Hw.
      apply Hframe. intros u' v' k' Hu' Hv' Hk' Heq.
      apply (interior_inj (textureSize s) (tileSize s) (tileCountSqrt s)) in Heq;
        try done; [by destruct Heq|by apply wf_valid_cell].
Qed.

(** The border of a registered tile: no tile changes. *)
Lemma completed_run s t c :
  atlas_ok s → usageMap s !! t = Some c →
  only_images s (completed s t) ∧
  same_surface s (completed s t) ∧
  ∀ c', (c' < length (tileAllocMap s))%nat → tile_same s (completed s t) c'.
Proof.
  intros [Hwf Hbij Hvalid] Hc.
  destruct (wf_grid s Hwf) as (Hts & Htcs & Hfit).
  destruct (wf_image s Hwf) as (Hne & Hw & Hh).
  assert (Hcv : valid_cell (tileCountSqrt s) c).
  { apply wf_valid_cell; [done|]. eapply lookup_lt_Some. by eapply bij_occupied. }
  rewrite (completed_known s t c) by done.
  set (coords := cell_coords (borderTileSize s) (tileCountSqrt s) c).
  assert (Himg : image (set_images s (alter (completed_image (tileSize s) coords)
                                        (image_ref s) (images s)))
                 = completed_image (tileSize s) coords (image s)).
  { by apply image_set_images_alter. }
  split; [|split].
  - eexists. split; [done|]. by rewrite length_alter.
  - split; try done.
    + cbn [images set_images]. by rewrite length_alter.
    + rewrite Himg. apply completed_image_dims.
  - intros c' Hc' u v k Hu Hv Hk. rewrite Himg.
    apply completed_image_frame. intros x y k0 Hring Hk0. rewrite Hw.
    apply not_eq_sym.
    apply (ring_not_interior (textureSize s) (tileSize s) (tileCountSqrt s)); try done.
    by apply wf_valid_cell.
Qed.

(** Everything but the allocator is the same in [s] and [s']. *)
Record same_pixels (s s' : Texgen num) : Prop := {
  sp_tileSize : tileSize s' = tileSize s;
  sp_textureSize : textureSize s' = textureSize s;
  sp_tileUVSize : tileUVSize s' = tileUVSize s;
  sp_borderUVOffset : borderUVOffset s' = borderUVOffset s;
  sp_borderTileUVSize : borderTileUVSize s' = borderTileUVSize s;
  sp_tileCountSqrt : tileCountSqrt s' = tileCountSqrt s;
  sp_images : images s' = images s
}.

Lemma same_pixels_refl s : same_pixels s s.
Proof. by split. Qed.

Lemma same_pixels_sym s s' : same_pixels s s' → same_pixels s' s.
Proof. intros []. by split. Qed.

Lemma same_pixels_image s s' : same_pixels s s' → image s' = image s.
Proof. intros []. unfold image, image_at, image_ref. by rewrite sp_images0. Qed.

Lemma same_pixels_surface s s' : same_pixels s s' → same_surface s s'.
Proof.
  intros Hsp. pose proof (same_pixels_image s s' Hsp) as Himg.
  destruct Hsp. split; try done; congruence.
Qed.

Lemma same_pixels_set_images s s' l :
  same_pixels s s' → same_pixels (set_images s l) (set_images s' l).
Proof. intros []. by split. Qed.

Lemma same_pixels_allocated s t c : same_pixels s (allocated s t c).
Proof. by split. Qed.

Lemma same_pixels_deallocateUsage s t : same_pixels s (deallocateUsage s t).
Proof.
  unfold deallocateUsage. destruct (textureLost s); [by split|].
  by destruct (usageMap s !! t); split.
Qed.

Lemma tile_holds_pixels s s' c content :
  same_pixels s s' → tile_holds s c content → tile_holds s' c content.
Proof.
  intros Hsp Hh u v k. pose proof (same_pixels_image s s' Hsp) as Himg.
  destruct Hsp. unfold borderTileSize.
  rewrite Himg, sp_tileSize0, sp_tileCountSqrt0. apply Hh.
Qed.

Lemma tile_same_pixels_r s0 s s' c :
  same_pixels s s' → tile_same s0 s c → tile_same s0 s' c.
Proof.
  intros Hsp Hh u v k. rewrite (same_pixels_image s s' Hsp). apply Hh.
Qed.

Lemma tile_same_pixels_l s s' s1 c :
  same_pixels s s' → tile_same s' s1 c → tile_same s s1 c.
Proof.
  intros Hsp Hh u v k. pose proof (same_pixels_image s s' Hsp) as Himg.
  specialize (Hh u v k). destruct Hsp. unfold borderTileSize in *.
  rewrite Himg, sp_tileSize0, sp_tileCountSqrt0 in Hh. apply Hh.
Qed.

(** The rest of a slice once the tile is allocated, which is all that a
    predicate closed under the operations needs. *)
Lemma sliceWorld_closed_alloc (P : Texgen num → Prop) lc blockID world opaque dimName
    layer transform s arr :
  atlas_closed P →
  P (fst (allocationFor s (sliceUsage blockID dimName layer))) →
  P (fst (sliceWorld lc blockID world opaque dimName layer transform (s, arr))).
Proof.
  intros HP Hs1. rewrite sliceWorld_eq. cbv zeta.
  assert (P (slice_pixels lc world transform layer
               (imageCoordsFor s (sliceUsage blockID dimName layer)).2.1
               (imageCoordsFor s (sliceUsage blockID dimName layer)).2.2
               (allocationFor s (sliceUsage blockID dimName layer)).1).1.1) as Hs2.
  { by apply slice_pixels_closed. }
  destruct (negb _ && negb _); cbn [fst].
  - by apply (closed_deallocateUsage P HP).
  - repeat match goal with
           | |- P (if ?b then _ else _) => destruct b
           | |- P (fst (allocationFor _ _)) => apply (closed_allocationFor P HP)
           | |- P (completed _ _) => apply (closed_completed P HP)
           end; done.
Qed.

(** One slice of a pass without growth.  The tile of the slice is some
    cell [c]: the one its token has, or a free one.  Afterwards the tile
    holds the layer, no other tile has changed, and the arrays have
    grown by the quads of the layer, with the texture coordinates of
    [c]; the token is registered if and only if the layer is visible. *)
Lemma sliceWorld_run lc blockID world opaque dimName layer transform s arr
    (t := sliceUsage blockID dimName layer)
    (fl := layer_flags (l_tileSize lc) world transform layer)
    (r := sliceWorld lc blockID world opaque dimName layer transform (s, arr)) :
  atlas_ok s → rebuild_locals s = lc → textureLost r.1 = false →
  ∃ c,
    (c < length (tileAllocMap s))%nat ∧
    (usageMap s !! t = Some c ∧ fst (allocationFor s t) = s ∨
     usageMap s !! t = None ∧ tileAllocMap s !! c = Some 0 ∧
     fst (allocationFor s t) = allocated s t c) ∧
    only_images
      (if fl.1 || fl.2 then fst (allocationFor s t)
       else deallocateUsage (fst (allocationFor s t)) t) r.1 ∧
    same_surface s r.1 ∧
    atlas_ok r.1 ∧
    r.2 = slice_arrays s (l_tileSize lc) opaque transform layer fl c arr ∧
    tile_holds r.1 c (pixel_byte world transform layer) ∧
    (∀ c', c' ≠ c → (c' < length (tileAllocMap s))%nat → tile_same s r.1 c').
Proof.
  intros Hok Hlc Hr.
  assert (Hok' : atlas_wf r.1 ∧ bijection r.1).
  { apply (sliceWorld_closed _ wf_bijection_closed _ _ _ _ _ _ _ (s, arr)).
    by destruct Hok. }
  assert (Hs1 : textureLost (fst (allocationFor s t)) = false).
  { destruct (textureLost (fst (allocationFor s t))) eqn:Hl; [|done].
    pose proof (sliceWorld_closed_alloc (λ s, textureLost s = true) lc blockID world opaque
                  dimName layer transform s arr lost_closed Hl) as Hl'.
    fold r in Hl'. congruence. }
  destruct (allocation_run s t Hok Hs1) as (c & Hc & Hcoords & Hcase).
  exists c. split; [done|]. split; [done|].
  set (s1 := fst (allocationFor s t)) in *.
  assert (Hsp1 : same_pixels s s1).
  { destruct Hcase as [[_ ->] | (_ & _ & ->)];
      [apply same_pixels_refl|apply same_pixels_allocated]. }
  assert (Hmap1 : usageMap s1 !! t = Some c).
  { destruct Hcase as [[? ->] | (_ & _ & ->)]; [done|].
    cbn [usageMap allocated set_usageMap]. apply lookup_insert_eq. }
  assert (Hlen1 : length (tileAllocMap s1) = length (tileAllocMap s)).
  { destruct Hcase as [[_ ->] | (_ & _ & ->)]; [done|].
    cbn [tileAllocMap allocated set_usageMap set_tileAllocMap]. apply length_insert. }
  assert (Hok1 : atlas_ok s1).
  { destruct Hok as [Hwf Hbij _]. split; [by apply allocationFor_wf| |done].
    by apply allocationFor_bijection. }
  assert (Hlc1 : rebuild_locals s1 = lc).
  { rewrite <- Hlc. apply same_surface_locals. by apply same_pixels_surface. }
  assert (Hcoord : snd (imageCoordsFor s t)
                   = cell_coords (borderTileSize s1) (tileCountSqrt s1) c).
  { unfold imageCoordsFor. fold s1.
    rewrite (surjective_pairing (allocationFor s t)). fold s1. rewrite Hcoords.
    destruct Hsp1. unfold cell_coords, tileCoords. cbn [fst snd].
    by rewrite sp_tileCountSqrt0. }
  destruct (slice_pixels_run lc world transform layer s1 c Hok1 Hlc1)
    as (Honly2 & Hss2 & Hfl & Hholds2 & Hsame2); [by rewrite Hlen1|].
  subst r. rewrite sliceWorld_eq in *. cbv zeta in *. fold t in Hr, Hok' |- *.
  fold s1 in Hr, Hok' |- *. rewrite Hcoord in *.
  set (px := slice_pixels lc world transform layer
               (cell_coords (borderTileSize s1) (tileCountSqrt s1) c).1
               (cell_coords (borderTileSize s1) (tileCountSqrt s1) c).2 s1) in *.
  fold fl in Hfl.
  assert (px.1.2 = fl.1 ∧ px.2 = fl.2) as [HfL HfH].
  { by rewrite <- Hfl. }
  rewrite HfL, HfH in *.
  assert (Hok2 : atlas_ok px.1.1).
  { destruct Hok1 as [Hwf1 Hbij1 Hv1]. destruct Honly2 as (l2 & Hpx & Hl2).
    split; [by apply (slice_pixels_closed _ atlas_wf_closed)| |by rewrite Hpx].
    rewrite Hpx. by apply set_images_bijection. }
  assert (Hmap2 : usageMap px.1.1 !! t = Some c).
  { destruct Honly2 as (l2 & -> & _). done. }
  destruct fl as [fL fH] eqn:Hfleq. cbn [fst snd] in *.
  destruct (fL || fH) eqn:Hvis.
  - (* visible: border and quads *)
    assert (negb fL && negb fH = false) as Hnot by (destruct fL, fH; done).
    rewrite Hnot in *.
    destruct (completed_run px.1.1 t c Hok2 Hmap2) as (Honly3 & Hss3 & Hsame3).
    set (s3 := completed px.1.1 t) in *.
    assert (Hmap3 : usageMap s3 !! t = Some c).
    { destruct Honly3 as (l3 & -> & _). done. }
    assert (Hv3 : textureLost s3 = false).
    { destruct Honly3 as (l3 & -> & _). by destruct Hok2. }
    assert (Hss : same_surface s s3).
    { eapply same_surface_trans; [by apply same_pixels_surface|].
      eapply same_surface_trans; done. }
    assert (Hself : ∀ b : bool, (if b then (allocationFor s3 t).1 else s3) = s3).
    { intros []; [|done]. by rewrite (allocationFor_known s3 t c). }
    rewrite !Hself in *.
    rewrite !(calcTexCoords_known s3 t c) by done. cbn [fst snd].
    rewrite !(same_surface_texcoords s s3) by done.
    split; [|split; [done|split; [|split; [|split]]]].
    + destruct Honly2 as (l2 & Hpx & Hl2). destruct Honly3 as (l3 & Hs3 & Hl3).
      exists l3. rewrite Hs3, Hpx. split; [done|].
      rewrite Hl3, Hpx. done.
    + destruct Hok'. by split.
    + unfold slice_arrays. cbn [fst snd]. reflexivity.
    + apply (tile_holds_same px.1.1 s3); [exact Hss3|exact Hholds2|]. apply Hsame3.
      destruct Honly2 as (l2 & -> & _). cbn [tileAllocMap set_images].
      by rewrite Hlen1.
    + intros c' Hne Hc'.
      eapply tile_same_pixels_l; [exact Hsp1|].
      apply (tile_same_trans s1 px.1.1 s3);
        [exact Hss2|by apply Hsame2; [|rewrite Hlen1]|].
      apply Hsame3. destruct Honly2 as (l2 & -> & _). cbn [tileAllocMap set_images].
      by rewrite Hlen1.
  - (* not visible: the tile is released *)
    assert (negb fL && negb fH = true) as Hnot by (destruct fL, fH; done).
    rewrite Hnot in *. cbn [fst snd] in *.
    destruct Honly2 as (l2 & Hpx & Hl2).
    assert (Hdealloc : deallocateUsage px.1.1 t = set_images (deallocateUsage s1 t) l2).
    { rewrite Hpx. apply deallocateUsage_set_images. }
    assert (Hsp : same_pixels px.1.1 (deallocateUsage px.1.1 t))
      by apply same_pixels_deallocateUsage.
    split; [|split; [|split; [|split; [|split]]]].
    + exists l2. split; [done|].
      rewrite Hl2. by rewrite (sp_images _ _ (same_pixels_deallocateUsage s1 t)).
    + apply (same_surface_trans s s1); [by apply same_pixels_surface|].
      apply (same_surface_trans s1 px.1.1); [done|]. by apply same_pixels_surface.
    + destruct Hok'. by split.
    + unfold slice_arrays. cbn [fst snd].
      assert (fL = false ∧ fH = false) as [-> ->] by (destruct fL, fH; done).
      done.
    + by apply (tile_holds_pixels px.1.1).
    + intros c' Hne Hc'.
      eapply tile_same_pixels_l; [exact Hsp1|].
      eapply tile_same_pixels_r; [exact Hsp|].
      apply Hsame2; [done|by rewrite Hlen1].
Qed.

(** *** The slices of one block *)

(** The tokens of the slices of a block are different for different
    axes or layers. *)
Lemma sliceUsage_inj blockID (m m' : string * mat4) (layer layer' : Z) :
  m ∈ TILE_MAPPINGS → m' ∈ TILE_MAPPINGS →
  sliceUsage blockID m.1 layer = sliceUsage blockID m'.1 layer' →
  m = m' ∧ layer = layer'.
Proof.
  intros Hm Hm'. unfold sliceUsage. intros Heq.
  apply String.app_inj in Heq. apply String.app_inj in Heq.
  unfold TILE_MAPPINGS in Hm, Hm'.
  repeat (apply elem_of_cons in Hm as [-> | Hm]); [| | |by apply elem_of_nil in Hm];
    (repeat (apply elem_of_cons in Hm' as [-> | Hm']); [| | |by apply elem_of_nil in Hm']);
    cbn [fst] in Heq; try discriminate Heq;
    (do 2 apply String.app_inj in Heq; apply pretty_Z_inj in Heq; done).
Qed.

Section Block.
Context (lc : Locals) (blockID : nat) (world : World num) (opaque : bool).

(** A slice: an entry of [TILE_MAPPINGS] and a layer. *)
Definition slice_key : Type := (string * mat4) * Z.

Definition key_token (k : slice_key) : string := sliceUsage blockID k.1.1 k.2.

Definition key_flags (k : slice_key) : bool * bool :=
  layer_flags (l_tileSize lc) world k.1.2 k.2.

Definition key_visible (k : slice_key) : bool := (key_flags k).1 || (key_flags k).2.

Definition key_content (k : slice_key) : Z → Z → Z → Z :=
  pixel_byte world k.1.2 k.2.

Definition key_ok (k : slice_key) : Prop := k.1 ∈ TILE_MAPPINGS.

(** The atlas after the slice [k]. *)
Definition slice_step (s : Texgen num) (k : slice_key) : Texgen num :=
  (sliceWorld lc blockID world opaque k.1.1 k.2 k.1.2 (s, mkFaceArrays [] [] [] [])).1.

Lemma sliceWorld_fst s arr k :
  (sliceWorld lc blockID world opaque k.1.1 k.2 k.1.2 (s, arr)).1 = slice_step s k.
Proof.
  unfold slice_step. rewrite !sliceWorld_eq. cbv zeta.
  destruct (negb _ && negb _); [done|]. cbn [fst].
  by destruct (_ && _), (_ && _).
Qed.

(** The slice [k] is settled in [s]: its token is registered and its
    tile holds the layer if the layer is visible, and its token is not
    registered otherwise. *)
Definition settled (s : Texgen num) (k : slice_key) : Prop :=
  (key_visible k = true →
     ∃ c, usageMap s !! key_token k = Some c ∧ tile_holds s c (key_content k)) ∧
  (key_visible k = false → usageMap s !! key_token k = None).

Lemma key_token_inj k k' : key_ok k → key_ok k' → key_token k = key_token k' → k = k'.
Proof.
  destruct k as [m layer], k' as [m' layer']. unfold key_ok, key_token. cbn [fst snd].
  intros Hk Hk' Heq. by apply sliceUsage_inj in Heq as [-> ->].
Qed.

(** What one slice of a pass without growth does. *)
Lemma slice_step_run s k :
  atlas_ok s → rebuild_locals s = lc → textureLost (slice_step s k) = false →
  let s' := slice_step s k in
  atlas_ok s' ∧ same_surface s s' ∧
  (∀ t, t ≠ key_token k → usageMap s' !! t = usageMap s !! t) ∧
  (∀ c, key_visible k = true → usageMap s !! key_token k = Some c →
        usageMap s' !! key_token k = Some c) ∧
  settled s' k ∧
  (∀ t c, t ≠ key_token k → usageMap s !! t = Some c → tile_same s s' c) ∧
  (settled s k → usageMap s' = usageMap s ∧ tileAllocMap s' = tileAllocMap s ∧
                 ∀ t c, usageMap s !! t = Some c → tile_same s s' c).
Proof.
  intros Hok Hlc Hlost. cbv zeta. revert Hlost. unfold slice_step.
  set (arr := mkFaceArrays [] [] [] []). intros Hlost.
  destruct (sliceWorld_run lc blockID world opaque k.1.1 k.2 k.1.2 s arr Hok Hlc Hlost)
    as (c & Hc & Hcase & Honly & Hss & Hok' & _ & Hholds & Hsame).
  fold (key_token k) in Hcase, Honly. fold (key_flags k) in Honly.
  fold (key_visible k) in Honly.
  set (s' := (sliceWorld lc blockID world opaque k.1.1 k.2 k.1.2 (s, arr)).1) in *.
  destruct Hok as [Hwf Hbij Hvalid].
  assert (Hmap : usageMap s' = if key_visible k
                               then (match usageMap s !! key_token k with
                                     | Some _ => usageMap s
                                     | None => <[key_token k := c]> (usageMap s)
                                     end)
                               else delete (key_token k) (usageMap s)).
  { destruct Honly as (l & -> & _). cbn [usageMap set_images].
    destruct (key_visible k).
    - destruct Hcase as [[-> ->] | (-> & _ & ->)]; done.
    - rewrite deallocateUsage_usageMap.
      destruct Hcase as [[Hk ->] | (Hk & _ & ->)].
      + by rewrite Hvalid.
      + cbn [textureLost usageMap allocated set_usageMap set_tileAllocMap set_freePointer].
        rewrite Hvalid. rewrite delete_insert_eq. by rewrite delete_id. }
  assert (Hbits : tileAllocMap s' = if key_visible k
                                    then (match usageMap s !! key_token k with
                                          | Some _ => tileAllocMap s
                                          | None => <[c := 1]> (tileAllocMap s)
                                          end)
                                    else <[c := 0]> (tileAllocMap s)).
  { destruct Honly as (l & -> & _). cbn [tileAllocMap set_images].
    destruct (key_visible k).
    - destruct Hcase as [[-> ->] | (-> & _ & ->)]; done.
    - unfold deallocateUsage.
      destruct Hcase as [[Hk ->] | (Hk & _ & ->)].
      + by rewrite Hvalid, Hk.
      + cbn [textureLost usageMap allocated set_usageMap set_tileAllocMap set_freePointer].
        rewrite Hvalid, lookup_insert_eq. unfold tileFree, allocated.
        cbn [tileAllocMap set_tileAllocMap set_usageMap set_freePointer].
        by rewrite list_insert_insert_eq. }
  assert (Hother : ∀ t c', t ≠ key_token k → usageMap s !! t = Some c' → c' ≠ c).
  { intros t c' Hne Ht ->. destruct Hcase as [[Hk _] | (_ & Hfree & _)].
    - apply Hne. by eapply bij_distinct.
    - pose proof (bij_occupied s Hbij _ _ Ht). congruence. }
  split; [done|]. split; [done|]. split; [|split; [|split; [|split]]].
  - intros t Hne. rewrite Hmap. destruct (key_visible k).
    + destruct (usageMap s !! key_token k); [done|]. by rewrite lookup_insert_ne.
    + by rewrite lookup_delete_ne.
  - intros c0 Hvis Hc0. rewrite Hmap, Hvis, Hc0. done.
  - split.
    + intros Hvis. exists c. split; [|done]. rewrite Hmap, Hvis.
      destruct Hcase as [[Hk _] | (Hk & _ & _)]; rewrite Hk; [done|].
      apply lookup_insert_eq.
    + intros Hvis. rewrite Hmap, Hvis. apply lookup_delete_eq.
  - intros t c' Hne Ht. apply Hsame; [by eapply Hother|].
    eapply lookup_lt_Some. by eapply bij_occupied.
  - intros [Hsv Hsi].
    destruct (key_visible k) eqn:Hvis.
    + destruct (Hsv eq_refl) as (c0 & Hc0 & Hh0).
      destruct Hcase as [[Hk _] | (Hk & _ & _)]; [|congruence].
      assert (c0 = c) as -> by congruence.
      rewrite Hmap, Hbits, Hk. split; [done|]. split; [done|].
      intros t c' Ht. destruct (decide (t = key_token k)) as [-> | Hne].
      * assert (c' = c) as -> by congruence.
        intros u v kk Hu Hv Hkk. rewrite (Hh0 u v kk Hu Hv Hkk).
        destruct Hss. unfold tile_holds, borderTileSize in Hholds.
        rewrite ss_tileSize0, ss_tileCountSqrt0, ss_width0 in Hholds. by apply Hholds.
      * apply Hsame; [by eapply Hother|].
        eapply lookup_lt_Some. by eapply bij_occupied.
    + pose proof (Hsi eq_refl) as Hk.
      destruct Hcase as [[Hk' _] | (_ & Hfree & _)]; [congruence|].
      rewrite Hmap, Hbits. split; [by apply delete_id|].
      split; [by apply list_insert_id|].
      intros t c' Ht. apply Hsame; [|eapply lookup_lt_Some; by eapply bij_occupied].
      apply (Hother t); [|done]. intros ->. congruence.
Qed.

Lemma slice_step_lost s k : textureLost s = true → textureLost (slice_step s k) = true.
Proof.
  intros Hl. unfold slice_step.
  by apply (sliceWorld_closed (λ s, textureLost s = true) lost_closed _ _ _ _ _ _ _ (s, _)).
Qed.

Lemma foldl_slice_step_lost ks : ∀ s,
  textureLost s = true → textureLost (foldl slice_step s ks) = true.
Proof.
  induction ks as [|k ks IH]; intros s Hl; cbn [foldl]; [done|].
  by apply IH, slice_step_lost.
Qed.

(** A slice keeps the other slices settled. *)
Lemma slice_step_settled s k k' :
  atlas_ok s → rebuild_locals s = lc → textureLost (slice_step s k) = false →
  key_ok k → key_ok k' → settled s k' → settled (slice_step s k) k'.
Proof.
  intros Hok Hlc Hlost Hk Hk' Hs.
  destruct (slice_step_run s k Hok Hlc Hlost) as (_ & Hss & Hother & _ & Hsettled & Hsame & _).
  destruct (decide (k' = k)) as [-> | Hne]; [done|].
  assert (Htok : key_token k' ≠ key_token k).
  { intros Heq. by apply key_token_inj in Heq. }
  destruct Hs as [Hv Hi]. split.
  - intros Hvis. destruct (Hv Hvis) as (c & Hc & Hh). exists c.
    split; [by rewrite Hother|].
    apply (tile_holds_same s); [done|done|]. by apply (Hsame (key_token k')).
  - intros Hvis. rewrite Hother by done. by apply Hi.
Qed.

(** A run of slices without growth. *)
Lemma slice_steps_run ks : ∀ s,
  atlas_ok s → rebuild_locals s = lc → (∀ k, k ∈ ks → key_ok k) →
  textureLost (foldl slice_step s ks) = false →
  let s' := foldl slice_step s ks in
  atlas_ok s' ∧ same_surface s s' ∧
  (∀ k, key_ok k → settled s k → settled s' k) ∧
  (∀ k c, key_ok k → key_visible k = true →
          usageMap s !! key_token k = Some c → usageMap s' !! key_token k = Some c) ∧
  (∀ k, k ∈ ks → settled s' k) ∧
  ((∀ k, k ∈ ks → settled s k) →
     usageMap s' = usageMap s ∧ tileAllocMap s' = tileAllocMap s ∧
     ∀ t c, usageMap s !! t = Some c → tile_same s s' c).
Proof.
  induction ks as [|k ks IH]; intros s Hok Hlc Hks Hlost; cbn [foldl] in *.
  { split; [done|]. split; [apply same_surface_refl|]. split; [done|]. split; [done|].
    split; [by intros k Hk%elem_of_nil|]. intros _. split; [done|]. split; [done|].
    intros t c _. apply tile_same_refl. }
  assert (Hlost1 : textureLost (slice_step s k) = false).
  { destruct (textureLost (slice_step s k)) eqn:Hl; [|done].
    by rewrite (foldl_slice_step_lost ks _ Hl) in Hlost. }
  assert (Hk : key_ok k) by (apply Hks; by left).
  destruct (slice_step_run s k Hok Hlc Hlost1)
    as (Hok1 & Hss1 & Hother1 & Hcell1 & Hsettled1 & Hsame1 & Hstable1).
  assert (Hlc1 : rebuild_locals (slice_step s k) = lc).
  { rewrite <- Hlc. by apply same_surface_locals. }
  destruct (IH (slice_step s k) Hok1 Hlc1 (λ k' Hk', Hks k' (list_elem_of_further _ _ _ Hk'))
              Hlost) as (Hok' & Hss' & Hpres & Hcell & Hsettled & Hstable).
  split; [done|]. split; [by eapply same_surface_trans|].
  split; [|split; [|split]].
  - intros k' Hk' Hs. apply Hpres; [done|]. by apply slice_step_settled.
  - intros k' c Hk' Hvis Hc. apply Hcell; [done|done|].
    destruct (decide (key_token k' = key_token k)) as [Heq | Hne].
    + apply key_token_inj in Heq as ->; [|done..]. by apply Hcell1.
    + by rewrite Hother1.
  - intros k' [-> | Hk']%elem_of_cons; [by apply Hpres|by apply Hsettled].
  - intros Hall.
    destruct (Hstable1 (Hall k (list_elem_of_here _ _))) as (Hm1 & Hb1 & Ht1).
    destruct Hstable as (Hm & Hb & Ht).
    { intros k' Hk'. apply slice_step_settled; try done.
      - apply Hks. by right.
      - apply Hall. by right. }
    split; [congruence|]. split; [congruence|].
    intros t c Hc. apply (tile_same_trans s (slice_step s k)); [done|by eapply Ht1|].
    apply (Ht t). by rewrite Hm1.
Qed.

(** The cell of a slice, when its token is registered. *)
Definition key_cell (s : Texgen num) (k : slice_key) : nat :=
  default 0%nat (usageMap s !! key_token k).

(** The arrays after the slice [k], from the atlas as it is at the
    end. *)
Definition key_arrays (s : Texgen num) (arr : FaceArrays num) (k : slice_key)
    : FaceArrays num :=
  slice_arrays s (l_tileSize lc) opaque k.1.2 k.2 (key_flags k) (key_cell s k) arr.

Definition dim_keys (m : string * mat4) : list slice_key :=
  (λ layer, (m, layer)) <$> sliced_layers opaque (l_tileSize lc).

Definition dim_arrays (s : Texgen num) (m : string * mat4) : FaceArrays num :=
  foldl (key_arrays s) (mkFaceArrays [] [] [] []) (dim_keys m).

Definition dim_faces (s : Texgen num) (faceData : gmap string (Geometry num))
    (m : string * mat4) : gmap string (Geometry num) :=
  <["h" +:+ m.1 := mkGeometry (verticesH (dim_arrays s m)) (texcoordsH (dim_arrays s m))]>
    (<["l" +:+ m.1 := mkGeometry (verticesL (dim_arrays s m)) (texcoordsL (dim_arrays s m))]>
       faceData).

(** The faces of the block, from the atlas as it is at the end. *)
Definition block_faces (s : Texgen num) : gmap string (Geometry num) :=
  foldl (dim_faces s) ∅ TILE_MAPPINGS.

Definition block_keys : list slice_key := TILE_MAPPINGS ≫= dim_keys.

Lemma slice_arrays_invisible s ts tr layer fl c arr :
  fl.1 || fl.2 = false → slice_arrays s ts opaque tr layer fl c arr = arr.
Proof.
  intros Hfl. unfold slice_arrays.
  assert (fl.1 = false ∧ fl.2 = false) as [-> ->] by (destruct fl.1, fl.2; done).
  done.
Qed.

Lemma key_arrays_ext s s' k arr :
  same_surface s s' → (key_visible k = true → key_cell s' k = key_cell s k) →
  key_arrays s' arr k = key_arrays s arr k.
Proof.
  intros Hss Hcell. unfold key_arrays.
  destruct (key_visible k) eqn:Hvis.
  - rewrite Hcell by done. unfold slice_arrays.
    by rewrite !(same_surface_texcoords s s').
  - by rewrite !slice_arrays_invisible.
Qed.

Lemma sliceWorld_arrays s arr k :
  atlas_ok s → rebuild_locals s = lc → textureLost (slice_step s k) = false →
  sliceWorld lc blockID world opaque k.1.1 k.2 k.1.2 (s, arr)
  = (slice_step s k, key_arrays (slice_step s k) arr k).
Proof.
  intros Hok Hlc Hlost.
  rewrite (surjective_pairing (sliceWorld _ _ _ _ _ _ _ _)), sliceWorld_fst.
  f_equal.
  pose proof Hlost as Hlost'. rewrite <- (sliceWorld_fst s arr) in Hlost'.
  destruct (sliceWorld_run lc blockID world opaque k.1.1 k.2 k.1.2 s arr Hok Hlc Hlost')
    as (c & Hc & Hcase & Honly & Hss & _ & Harr & _).
  rewrite sliceWorld_fst in Honly, Hss.
  rewrite Harr. fold (key_flags k). unfold key_arrays.
  destruct (key_visible k) eqn:Hvis; unfold key_visible in Hvis.
  - assert (key_cell (slice_step s k) k = c) as ->.
    { unfold key_cell. destruct Honly as (l & -> & _). fold (key_flags k).
      rewrite Hvis. cbn [usageMap set_images]. fold (key_token k) in Hcase |- *.
      destruct Hcase as [[Hk ->] | (_ & _ & ->)]; [by rewrite Hk|].
      cbn [usageMap allocated set_usageMap]. by rewrite lookup_insert_eq. }
    unfold slice_arrays. by rewrite !(same_surface_texcoords s (slice_step s k)).
  - by rewrite !slice_arrays_invisible.
Qed.

(** The slices of one axis. *)
Lemma run_layers m layers : ∀ s arr,
  m ∈ TILE_MAPPINGS → atlas_ok s → rebuild_locals s = lc →
  let keys := (λ layer, (m, layer)) <$> layers in
  textureLost (foldl slice_step s keys) = false →
  foldl (λ st layer, sliceWorld lc blockID world opaque m.1 layer m.2 st) (s, arr) layers
  = (foldl slice_step s keys, foldl (key_arrays (foldl slice_step s keys)) arr keys).
Proof.
  induction layers as [|layer layers IH]; intros s arr Hm Hok Hlc keys Hlost;
    subst keys; cbn [foldl fmap list_fmap] in *; [done|].
  set (k := (m, layer)) in *.
  assert (Hlost1 : textureLost (slice_step s k) = false).
  { destruct (textureLost (slice_step s k)) eqn:Hl; [|done].
    by rewrite (foldl_slice_step_lost _ _ Hl) in Hlost. }
  change (sliceWorld lc blockID world opaque m.1 layer m.2 (s, arr))
    with (sliceWorld lc blockID world opaque k.1.1 k.2 k.1.2 (s, arr)).
  rewrite sliceWorld_arrays by done.
  destruct (slice_step_run s k Hok Hlc Hlost1) as (Hok1 & Hss1 & _ & _ & Hsettled1 & _).
  assert (Hlc1 : rebuild_locals (slice_step s k) = lc).
  { rewrite <- Hlc. by apply same_surface_locals. }
  rewrite IH by done. f_equal. f_equal.
  assert (Hkeys : ∀ k', k' ∈ (λ layer, (m, layer)) <$> layers → key_ok k').
  { intros k' (layer' & -> & _)%list_elem_of_fmap. exact Hm. }
  destruct (slice_steps_run _ (slice_step s k) Hok1 Hlc1 Hkeys Hlost)
    as (_ & Hss & _ & Hcell & _).
  symmetry. apply key_arrays_ext; [done|].
  intros Hvis. unfold key_cell.
  destruct Hsettled1 as [Hv _]. destruct (Hv Hvis) as (c & Hc & _).
  by rewrite (Hcell k c Hm Hvis Hc), Hc.
Qed.

Lemma slice_layers_run dimName transform layers : ∀ st,
  textureLost (slice_layers lc blockID world opaque dimName transform layers st).1 = false →
  slice_layers lc blockID world opaque dimName transform layers st
  = (let r := foldl (λ st layer, sliceWorld lc blockID world opaque dimName layer transform st)
                st layers in
     (r.1, Some r.2)).
Proof.
  induction layers as [|layer layers IH]; intros st Hlost; cbn [slice_layers foldl] in *;
    [done|].
  destruct (textureLost st.1) eqn:Hl; [cbn [fst] in Hlost; congruence|].
  by apply IH.
Qed.

Lemma run_layers_fst m layers : ∀ s arr,
  (foldl (λ st layer, sliceWorld lc blockID world opaque m.1 layer m.2 st) (s, arr) layers).1
  = foldl slice_step s ((λ layer, (m, layer)) <$> layers).
Proof.
  induction layers as [|layer layers IH]; intros s arr; cbn [foldl fmap list_fmap]; [done|].
  rewrite (surjective_pairing (sliceWorld _ _ _ _ _ _ _ _)).
  rewrite IH. f_equal. apply (sliceWorld_fst s arr (m, layer)).
Qed.

(** One axis of a pass that does not lose the texture. *)
Lemma world_faces_run s faceData m :
  m ∈ TILE_MAPPINGS → atlas_ok s → rebuild_locals s = lc →
  textureLost (world_faces lc blockID world opaque (s, faceData) m).1 = false →
  world_faces lc blockID world opaque (s, faceData) m
  = (foldl slice_step s (dim_keys m),
     dim_faces (foldl slice_step s (dim_keys m)) faceData m).
Proof.
  intros Hm Hok Hlc Hlost.
  assert (Hfold :
    world_faces lc blockID world opaque (s, faceData) m
    = let r := foldl (λ st layer, sliceWorld lc blockID world opaque m.1 layer m.2 st)
                 (s, mkFaceArrays [] [] [] []) (sliced_layers opaque (l_tileSize lc)) in
      (r.1, <["h" +:+ m.1 := mkGeometry (verticesH r.2) (texcoordsH r.2)]>
              (<["l" +:+ m.1 := mkGeometry (verticesL r.2) (texcoordsL r.2)]> faceData))).
  { pose proof (slice_layers_run m.1 m.2 (seqZ 0 (l_tileSize lc))
                  (s, mkFaceArrays [] [] [] [])) as Hsl.
    revert Hlost Hsl. unfold world_faces, sliced_layers. destruct opaque.
    - intros _ _. by rewrite (ok_valid s Hok).
    - destruct (slice_layers _ _ _ _ _ _ _ _) as [s' res].
      intros Hlost Hsl.
      assert (textureLost s' = false) as Hlost' by (by destruct res).
      specialize (Hsl Hlost'). cbv zeta in Hsl. by injection Hsl as -> ->. }
  rewrite Hfold in Hlost |- *. cbv zeta in Hlost |- *.
  rewrite run_layers_fst in Hlost. cbn [fst] in Hlost.
  by rewrite run_layers.
Qed.

(** All the axes. *)
Lemma faces_run ms : ∀ s faceData,
  (∀ m, m ∈ ms → m ∈ TILE_MAPPINGS) → atlas_ok s → rebuild_locals s = lc →
  textureLost (foldl (world_faces lc blockID world opaque) (s, faceData) ms).1 = false →
  foldl (world_faces lc blockID world opaque) (s, faceData) ms
  = (foldl slice_step s (ms ≫= dim_keys),
     foldl (dim_faces (foldl slice_step s (ms ≫= dim_keys))) faceData ms).
Proof.
  induction ms as [|m ms IH]; intros s faceData Hms Hok Hlc Hlost; [done|].
  cbn [foldl] in Hlost |- *.
  assert (Hm : m ∈ TILE_MAPPINGS) by (apply Hms; left).
  assert (Hlost1 : textureLost (world_faces lc blockID world opaque (s, faceData) m).1 = false).
  { destruct (textureLost (world_faces lc blockID world opaque (s, faceData) m).1) eqn:Hl;
      [|done].
    rewrite <- Hlost. symmetry.
    apply (foldl_closed (λ s, textureLost s = true)); [|done].
    intros st x. apply (world_faces_closed _ lost_closed). }
  rewrite world_faces_run in Hlost |- * by done.
  rewrite world_faces_run in Hlost1 by done. cbn [fst] in Hlost1.
  assert (Hkeys : ∀ k, k ∈ dim_keys m → key_ok k).
  { intros k (layer & -> & _)%list_elem_of_fmap. exact Hm. }
  destruct (slice_steps_run _ s Hok Hlc Hkeys Hlost1) as (Hok1 & Hss1 & _ & _ & Hsettled1 & _).
  assert (Hlc1 : rebuild_locals (foldl slice_step s (dim_keys m)) = lc).
  { rewrite <- Hlc. by apply same_surface_locals. }
  assert (Hms' : ∀ m', m' ∈ ms → m' ∈ TILE_MAPPINGS) by (intros m' Hm'; apply Hms; by right).
  rewrite IH in Hlost |- * by done. cbn [fst] in Hlost.
  cbn [mbind list_bind]. rewrite foldl_app. f_equal. f_equal.
  assert (Hkeys' : ∀ k, k ∈ ms ≫= dim_keys → key_ok k).
  { intros k (m' & (layer & -> & _)%list_elem_of_fmap & Hm')%list_elem_of_bind.
    by apply Hms'. }
  destruct (slice_steps_run _ _ Hok1 Hlc1 Hkeys' Hlost) as (_ & Hss & _ & Hcell & _).
  unfold dim_faces, dim_arrays.
  assert (Harr : ∀ keys arr, (∀ k, k ∈ keys → k ∈ dim_keys m) →
            foldl (key_arrays (foldl slice_step s (dim_keys m))) arr keys
            = foldl (key_arrays (foldl slice_step (foldl slice_step s (dim_keys m))
                                   (ms ≫= dim_keys))) arr keys).
  { induction keys as [|k keys IHk]; intros arr Hin; cbn [foldl]; [done|].
    rewrite IHk by (intros k' Hk'; apply Hin; by right). f_equal.
    symmetry. apply key_arrays_ext; [done|]. intros Hvis. unfold key_cell.
    assert (Hk : k ∈ dim_keys m) by (apply Hin; left).
    destruct (Hsettled1 k Hk) as [Hv _]. destruct (Hv Hvis) as (c & Hc & _).
    by rewrite (Hcell k c (Hkeys k Hk) Hvis Hc), Hc. }
  by rewrite (Harr (dim_keys m)).
Qed.

Lemma block_faces_ext s s' :
  same_surface s s' → usageMap s' = usageMap s → block_faces s' = block_faces s.
Proof.
  intros Hss Hmap.
  assert (Harr : ∀ keys arr, foldl (key_arrays s') arr keys = foldl (key_arrays s) arr keys).
  { induction keys as [|k keys IH]; intros arr; cbn [foldl]; [done|].
    rewrite IH. f_equal. apply key_arrays_ext; [done|].
    intros _. unfold key_cell. by rewrite Hmap. }
  unfold block_faces.
  assert (Hdims : ∀ ms faceData,
            foldl (dim_faces s') faceData ms = foldl (dim_faces s) faceData ms).
  { induction ms as [|m ms IH]; intros faceData; cbn [foldl]; [done|].
    rewrite IH. f_equal. unfold dim_faces, dim_arrays. by rewrite Harr. }
  apply Hdims.
Qed.

(** A pass over a world block that does not lose the texture. *)
Lemma world_run s :
  atlas_ok s → rebuild_locals s = lc →
  let r := foldl (world_faces lc blockID world opaque) (s, ∅) TILE_MAPPINGS in
  textureLost r.1 = false →
  r = (foldl slice_step s block_keys, block_faces (foldl slice_step s block_keys)).
Proof.
  intros Hok Hlc r Hlost. subst r. by apply faces_run.
Qed.

Lemma block_keys_ok k : k ∈ block_keys → key_ok k.
Proof.
  by intros (m & (layer & -> & _)%list_elem_of_fmap & Hm)%list_elem_of_bind.
Qed.

(** Two passes over the same world block, neither losing the texture:
    the second one allocates and releases nothing, returns the same
    faces and leaves the pixels of every live tile as they are. *)
Lemma world_twice s :
  atlas_ok s → rebuild_locals s = lc →
  let r1 := foldl (world_faces lc blockID world opaque) (s, ∅) TILE_MAPPINGS in
  let r2 := foldl (world_faces lc blockID world opaque) (r1.1, ∅) TILE_MAPPINGS in
  textureLost r1.1 = false → textureLost r2.1 = false →
  usageMap r2.1 = usageMap r1.1 ∧ tileAllocMap r2.1 = tileAllocMap r1.1 ∧
  r2.2 = r1.2 ∧
  ∀ t c, usageMap r1.1 !! t = Some c → tile_same r1.1 r2.1 c.
Proof.
  intros Hok Hlc r1 r2 Hlost1 Hlost2.
  pose proof (world_run s Hok Hlc Hlost1) as Hr1. fold r1 in Hr1.
  set (s1 := foldl slice_step s block_keys) in *.
  assert (Hs1 : r1.1 = s1) by (by rewrite Hr1).
  rewrite Hs1 in Hlost1.
  destruct (slice_steps_run _ s Hok Hlc block_keys_ok Hlost1)
    as (Hok1 & Hss1 & _ & _ & Hsettled1 & _).
  fold s1 in Hok1, Hss1, Hsettled1.
  assert (Hlc1 : rebuild_locals s1 = lc).
  { rewrite <- Hlc. by apply same_surface_locals. }
  subst r2. rewrite Hs1 in Hlost2 |- *.
  pose proof (world_run s1 Hok1 Hlc1 Hlost2) as Hr2.
  set (s2 := foldl slice_step s1 block_keys) in *.
  rewrite Hr2 in Hlost2 |- *. cbn [fst snd] in Hlost2 |- *.
  destruct (slice_steps_run _ s1 Hok1 Hlc1 block_keys_ok Hlost2)
    as (_ & Hss2 & _ & _ & _ & Hstable).
  fold s2 in Hss2, Hstable.
  destruct (Hstable Hsettled1) as (Hmap & Halloc & Hsame).
  split; [done|]. split; [done|]. split; [|done].
  rewrite Hr1. cbn [snd]. by apply block_faces_ext.
Qed.

Lemma world_run_surface s :
  atlas_ok s → rebuild_locals s = lc →
  let r := foldl (world_faces lc blockID world opaque) (s, ∅) TILE_MAPPINGS in
  textureLost r.1 = false → same_surface s r.1.
Proof.
  intros Hok Hlc r Hlost.
  pose proof (world_run s Hok Hlc Hlost) as Hr. fold r in Hr.
  rewrite Hr in Hlost |- *. cbn [fst] in Hlost |- *.
  by destruct (slice_steps_run _ s Hok Hlc block_keys_ok Hlost) as (_ & Hss & _).
Qed.

End Block.

(** *** A colour block *)

(** The world all of whose cells have the colour: the pixel loops of
    the colour branch store what the loops of a slice of it store. *)
Definition color_world (color : num * num * num * num) : World num :=
  mkWorld 1 (λ _ _ _, BlockType_Color color) (λ _ _ _, false).

(** The pixel loops of the colour branch. *)
Definition color_pixels (lc : Locals) (color : num * num * num * num) (pixu pixv : Z)
    (s : Texgen num) : Texgen num :=
  let '(r, g, b, a) := color in
  let rgba := (nmul (of_Z 255) r, nmul (of_Z 255) g,
               nmul (of_Z 255) b, nmul (of_Z 255) a) in
  foldl (λ texgen u,
           foldl (λ texgen v,
                    let c := ((pixu + u) * l_texWidth lc + pixv + v) * 4 in
                    store4 texgen (l_texData lc) c rgba)
                 texgen (seqZ 0 (l_tileSize lc)))
        s (seqZ 0 (l_tileSize lc)).

Lemma rebuild_faces_color s blockID color (t := colorUsage blockID) :
  rebuild_faces s blockID (BlockType_Color color)
  = foldl (color_faces t)
      (completed (color_pixels (rebuild_locals s) color (imageCoordsFor s t).2.1
                    (imageCoordsFor s t).2.2 (imageCoordsFor s t).1) t, ∅)
      TILE_MAPPINGS.
Proof.
  unfold rebuild_faces, color_pixels. subst t.
  destruct (imageCoordsFor s (colorUsage blockID)) as [s1 coord].
  by destruct color as [[[r g] b] a].
Qed.

Lemma color_pixels_slice lc color transform layer pixu pixv s :
  color_pixels lc color pixu pixv s
  = (slice_pixels lc (color_world color) transform layer pixu pixv s).1.1.
Proof.
  unfold color_pixels, slice_pixels. destruct color as [[[r g] b] a].
  set (viewL := multiplyVec3Z transform (0, 0, -1)).
  set (viewH := multiplyVec3Z transform (0, 0, 1)).
  set (rgba := (nmul (of_Z 255) r, nmul (of_Z 255) g, nmul (of_Z 255) b, nmul (of_Z 255) a)).
  assert (Hin : ∀ l u st,
    foldl (λ texgen v, store4 texgen (l_texData lc)
                         (((pixu + u) * l_texWidth lc + pixv + v) * 4) rgba) st.1.1 l
    = (foldl (λ st v, slice_pixel lc (color_world (r, g, b, a)) transform layer pixu pixv
                        viewL viewH st u v) st l).1.1).
  { induction l as [|v l IH]; intros u st; cbn [foldl]; [done|].
    rewrite <- IH. f_equal.
    destruct st as [[s0 nL] nH]. unfold slice_pixel.
    destruct (multiplyVec3Z transform (u, v, layer)) as [[x y] z].
    cbn [gt color_world writeColor fst snd].
    by destruct (0 <? _). }
  assert (Hout : ∀ l st,
    foldl (λ texgen u,
             foldl (λ texgen v, store4 texgen (l_texData lc)
                                  (((pixu + u) * l_texWidth lc + pixv + v) * 4) rgba)
               texgen (seqZ 0 (l_tileSize lc))) st.1.1 l
    = (foldl (λ st u,
                foldl (λ st v, slice_pixel lc (color_world (r, g, b, a)) transform layer
                                 pixu pixv viewL viewH st u v)
                  st (seqZ 0 (l_tileSize lc))) st l).1.1).
  { induction l as [|u l IH]; intros st; cbn [foldl]; [done|].
    rewrite <- IH. f_equal. apply Hin. }
  apply (Hout _ (s, false, false)).
Qed.

(** What the colour branch puts under the two keys of an axis, for a
    tile in cell [c]. *)
Definition color_geometry (s : Texgen num) (c : nat) (faceData : gmap string (Geometry num))
    (m : string * mat4) : gmap string (Geometry num) :=
  <["h" +:+ m.1 := mkGeometry (quadVertices true m.2 (of_Z 1)) (tile_texcoords s c false)]>
    (<["l" +:+ m.1 := mkGeometry (quadVertices false m.2 (of_Z 0)) (tile_texcoords s c false)]>
       faceData).

Lemma color_faces_known s t c faceData m :
  textureLost s = false → usageMap s !! t = Some c →
  color_faces t (s, faceData) m = (s, color_geometry s c faceData m).
Proof.
  intros Hvalid Hc. unfold color_faces. rewrite pushQuad_eq.
  rewrite (allocationFor_known s t c) by done. cbn [fst].
  rewrite pushQuad_eq. rewrite (allocationFor_known s t c) by done. cbn [fst].
  by rewrite !(calcTexCoords_known s t c).
Qed.

Lemma color_faces_fold s t c ms : ∀ faceData,
  textureLost s = false → usageMap s !! t = Some c →
  foldl (color_faces t) (s, faceData) ms = (s, foldl (color_geometry s c) faceData ms).
Proof.
  induction ms as [|m ms IH]; intros faceData Hvalid Hc; cbn [foldl]; [done|].
  rewrite (color_faces_known s t c) by done. by apply IH.
Qed.

Lemma color_geometry_ext s s' c ms : ∀ faceData,
  same_surface s s' →
  foldl (color_geometry s' c) faceData ms = foldl (color_geometry s c) faceData ms.
Proof.
  induction ms as [|m ms IH]; intros faceData Hss; cbn [foldl]; [done|].
  rewrite IH by done. unfold color_geometry.
  by rewrite (same_surface_texcoords s s').
Qed.

(** A pass over a colour block that does not lose the texture.  The
    tile of the block is some cell [c]: the one its token has, or a free
    one.  Afterwards the token is registered there, the tile holds the
    colour, no other tile has changed, and the faces carry the texture
    coordinates of [c]. *)
Lemma color_run s blockID color
    (t := colorUsage blockID)
    (r := rebuild_faces s blockID (BlockType_Color color)) :
  atlas_ok s → textureLost r.1 = false →
  ∃ c,
    (c < length (tileAllocMap s))%nat ∧
    (usageMap s !! t = Some c ∧ fst (allocationFor s t) = s ∨
     usageMap s !! t = None ∧ tileAllocMap s !! c = Some 0 ∧
     fst (allocationFor s t) = allocated s t c) ∧
    only_images (fst (allocationFor s t)) r.1 ∧
    same_surface s r.1 ∧
    atlas_ok r.1 ∧
    r.2 = foldl (color_geometry s c) ∅ TILE_MAPPINGS ∧
    tile_holds r.1 c (pixel_byte (color_world color) [] 0) ∧
    (∀ c', c' ≠ c → (c' < length (tileAllocMap s))%nat → tile_same s r.1 c').
Proof.
  intros Hok Hr.
  assert (Hok' : atlas_wf r.1 ∧ bijection r.1).
  { apply (rebuild_faces_closed _ wf_bijection_closed). by destruct Hok. }
  subst r. rewrite rebuild_faces_color in *. fold t in Hr, Hok' |- *.
  rewrite (color_pixels_slice _ color [] 0) in *.
  rewrite (imageCoordsFor_fst s t) in *.
  set (lc := rebuild_locals s) in *.
  assert (Hs1 : textureLost (fst (allocationFor s t)) = false).
  { destruct (textureLost (fst (allocationFor s t))) eqn:Hl; [|done].
    rewrite <- Hr. symmetry.
    apply (foldl_closed (λ s, textureLost s = true) (color_faces t)).
    { intros st x. apply (color_faces_closed _ lost_closed). }
    cbn [fst]. apply (closed_completed _ lost_closed).
    by apply (slice_pixels_closed _ lost_closed). }
  destruct (allocation_run s t Hok Hs1) as (c & Hc & Hcoords & Hcase).
  exists c. split; [done|]. split; [done|].
  set (s1 := fst (allocationFor s t)) in *.
  assert (Hsp1 : same_pixels s s1).
  { destruct Hcase as [[_ ->] | (_ & _ & ->)];
      [apply same_pixels_refl|apply same_pixels_allocated]. }
  assert (Hmap1 : usageMap s1 !! t = Some c).
  { destruct Hcase as [[? ->] | (_ & _ & ->)]; [done|].
    cbn [usageMap allocated set_usageMap]. apply lookup_insert_eq. }
  assert (Hlen1 : length (tileAllocMap s1) = length (tileAllocMap s)).
  { destruct Hcase as [[_ ->] | (_ & _ & ->)]; [done|].
    cbn [tileAllocMap allocated set_usageMap set_tileAllocMap]. apply length_insert. }
  assert (Hok1 : atlas_ok s1).
  { destruct Hok as [Hwf Hbij _]. split; [by apply allocationFor_wf| |done].
    by apply allocationFor_bijection. }
  assert (Hlc1 : rebuild_locals s1 = lc).
  { apply same_surface_locals. by apply same_pixels_surface. }
  assert (Hcoord : snd (imageCoordsFor s t)
                   = cell_coords (borderTileSize s1) (tileCountSqrt s1) c).
  { unfold imageCoordsFor. fold s1.
    rewrite (surjective_pairing (allocationFor s t)). fold s1. rewrite Hcoords.
    destruct Hsp1. unfold cell_coords, tileCoords. cbn [fst snd].
    by rewrite sp_tileCountSqrt0. }
  destruct (slice_pixels_run lc (color_world color) [] 0 s1 c Hok1 Hlc1)
    as (Honly2 & Hss2 & _ & Hholds2 & Hsame2); [by rewrite Hlen1|].
  rewrite Hcoord in *.
  set (px := slice_pixels lc (color_world color) [] 0
               (cell_coords (borderTileSize s1) (tileCountSqrt s1) c).1
               (cell_coords (borderTileSize s1) (tileCountSqrt s1) c).2 s1) in *.
  assert (Hok2 : atlas_ok px.1.1).
  { destruct Hok1 as [Hwf1 Hbij1 Hv1]. destruct Honly2 as (l2 & Hpx & Hl2).
    split; [by apply (slice_pixels_closed _ atlas_wf_closed)| |by rewrite Hpx].
    rewrite Hpx. by apply set_images_bijection. }
  assert (Hmap2 : usageMap px.1.1 !! t = Some c).
  { destruct Honly2 as (l2 & -> & _). done. }
  destruct (completed_run px.1.1 t c Hok2 Hmap2) as (Honly3 & Hss3 & Hsame3).
  set (s3 := completed px.1.1 t) in *.
  assert (Hmap3 : usageMap s3 !! t = Some c).
  { destruct Honly3 as (l3 & -> & _). done. }
  assert (Hv3 : textureLost s3 = false).
  { destruct Honly3 as (l3 & -> & _). by destruct Hok2. }
  assert (Hss : same_surface s s3).
  { eapply same_surface_trans; [by apply same_pixels_surface|].
    eapply same_surface_trans; done. }
  rewrite (color_faces_fold s3 t c) in * by done. cbn [fst snd] in *.
  split; [|split; [done|split; [|split; [|split]]]].
  - by apply (only_images_trans s1 px.1.1 s3).
  - destruct Hok'. by split.
  - by apply color_geometry_ext.
  - apply (tile_holds_same px.1.1 s3); [exact Hss3|exact Hholds2|]. apply Hsame3.
    destruct Honly2 as (l2 & -> & _). cbn [tileAllocMap set_images].
    by rewrite Hlen1.
  - intros c' Hne Hc'.
    eapply tile_same_pixels_l; [exact Hsp1|].
    apply (tile_same_trans s1 px.1.1 s3);
      [exact Hss2|by apply Hsame2; [|rewrite Hlen1]|].
    apply Hsame3. destruct Honly2 as (l2 & -> & _). cbn [tileAllocMap set_images].
    by rewrite Hlen1.
Qed.

Lemma tile_holds_agree s s' c content :
  same_surface s s' → tile_holds s c content → tile_holds s' c content → tile_same s s' c.
Proof.
  intros Hss Hh Hh' u v k Hu Hv Hk. rewrite (Hh u v k Hu Hv Hk).
  specialize (Hh' u v k). destruct Hss. unfold borderTileSize in *.
  rewrite ss_tileSize0, ss_tileCountSqrt0, ss_width0 in Hh'. apply Hh'; lia.
Qed.

(** Two passes over the same colour block, neither losing the texture. *)
Lemma color_twice s blockID color :
  atlas_ok s →
  let r1 := rebuild_faces s blockID (BlockType_Color color) in
  let r2 := rebuild_faces r1.1 blockID (BlockType_Color color) in
  textureLost r1.1 = false → textureLost r2.1 = false →
  usageMap r2.1 = usageMap r1.1 ∧ tileAllocMap r2.1 = tileAllocMap r1.1 ∧
  r2.2 = r1.2 ∧
  ∀ t c, usageMap r1.1 !! t = Some c → tile_same r1.1 r2.1 c.
Proof.
  intros Hok r1 r2 Hlost1 Hlost2.
  destruct (color_run s blockID color Hok Hlost1)
    as (c & Hc & Hcase & Honly & Hss & Hok1 & Hfaces & Hholds & _).
  fold r1 in Honly, Hss, Hok1, Hfaces, Hholds.
  assert (Hmap1 : usageMap r1.1 !! colorUsage blockID = Some c).
  { destruct Honly as (l & -> & _). cbn [usageMap set_images].
    destruct Hcase as [[? ->] | (_ & _ & ->)]; [done|].
    cbn [usageMap allocated set_usageMap]. apply lookup_insert_eq. }
  destruct (color_run r1.1 blockID color Hok1 Hlost2)
    as (c2 & Hc2 & Hcase2 & Honly2 & Hss2 & Hok2 & Hfaces2 & Hholds2 & Hsame2).
  fold r2 in Honly2, Hss2, Hok2, Hfaces2, Hholds2, Hsame2.
  destruct Hcase2 as [[Hknown Halloc] | [Hnone _]]; [|congruence].
  assert (c2 = c) as -> by congruence.
  rewrite Halloc in Honly2. destruct Honly2 as (l & Hr2 & Hl).
  split; [by rewrite Hr2|]. split; [by rewrite Hr2|]. split.
  - rewrite Hfaces2, Hfaces. by apply color_geometry_ext.
  - intros t c' Hc'. destruct (decide (c' = c)) as [->|Hne].
    + by apply (tile_holds_agree _ _ _ (pixel_byte (color_world color) [] 0)).
    + apply Hsame2; [done|]. eapply lookup_lt_Some.
      by eapply (bij_occupied _ (ok_bijection _ Hok1)).
Qed.

(** C7, restricted to what the code keeps: two runs of
    [rebuildOne] in a row for the same block ID and block type, from a
    well-formed atlas whose surface is not lost, neither run growing the
    atlas (the surface is not lost after either).  The second run leaves
    the registered tokens and their tiles, and the occupancy bitmap, as
    they are, leaves every interior pixel of every live tile
    byte-identical, and returns the same face geometry for all the
    rotations. *)
Theorem rebuildOne_idempotent s blockID blockType :
  atlas_wf s → bijection s → textureLost s = false →
  let r1 := rebuildOne s blockID blockType in
  let r2 := rebuildOne r1.1 blockID blockType in
  textureLost r1.1 = false → textureLost r2.1 = false →
  usageMap r2.1 = usageMap r1.1 ∧ tileAllocMap r2.1 = tileAllocMap r1.1 ∧
  r2.2 = r1.2 ∧
  ∀ t c, usageMap r1.1 !! t = Some c → tile_same r1.1 r2.1 c.
Proof.
  intros Hwf Hbij Hvalid r1 r2 Hlost1 Hlost2.
  assert (Hok : atlas_ok s) by (by split).
  subst r1 r2. unfold rebuildOne in *.
  destruct blockType as [color|world opaque col].
  - pose proof (color_twice s blockID color Hok) as Htwice. cbv zeta in Htwice.
    destruct (rebuild_faces s blockID (BlockType_Color color)) as [s1 f1].
    cbn [fst snd] in *.
    destruct (rebuild_faces s1 blockID (BlockType_Color color)) as [s2 f2].
    cbn [fst snd] in *.
    destruct (Htwice Hlost1 Hlost2) as (Hmap & Halloc & -> & Hsame). done.
  - pose proof (world_twice (rebuild_locals s) blockID world opaque s Hok eq_refl) as Htwice.
    pose proof (world_run_surface (rebuild_locals s) blockID world opaque s Hok eq_refl)
      as Hss.
    cbv zeta in Htwice, Hss.
    unfold rebuild_faces in *.
    destruct (foldl (world_faces (rebuild_locals s) blockID world opaque) (s, ∅)
                TILE_MAPPINGS) as [s1 f1].
    cbn [fst snd] in *.
    rewrite (same_surface_locals s s1) in * by auto.
    destruct (foldl (world_faces (rebuild_locals s) blockID world opaque) (s1, ∅)
                TILE_MAPPINGS) as [s2 f2].
    cbn [fst snd] in *.
    destruct (Htwice Hlost1 Hlost2) as (Hmap & Halloc & -> & Hsame). done.
Qed.

End SynthesisProperties.

(** ** Instances of the statements about synthesis *)

Definition red : BlockType Q := BlockType_Color (1, 0, 0, 1)%Q.

(** A fresh atlas for tiles of side [ts], after the acknowledgement. *)
Definition fresh_atlas (ts : Z) : Texgen Q := set_textureLost (new_Texgen ts) false.

Lemma fresh_atlas_wf ts : 1 ≤ ts ≤ 254 → atlas_wf (fresh_atlas ts).
Proof.
  intros Hts. apply (reachable_wf ts); [done|]. apply reach_acknowledge, reach_new.
Qed.

(** A single opaque red voxel. *)
Definition red_voxel : World Q :=
  mkWorld 1 (λ _ _ _, red)
    (λ x y z, (x =? 0) && (y =? 0) && (z =? 0)).

Lemma opaque_world_outer_layers_witness :
  ∃ g, (rebuild_faces (fresh_atlas 1) 1 (BlockType_World red_voxel true (1, 0, 0)%Q)).2
         !! "lz" = Some g ∧
       outer_face 1 "lz" g.
Proof.
  eexists. split; [vm_compute; reflexivity|].
  apply (opaque_world_outer_layers (fresh_atlas 1) 1 red_voxel (1, 0, 0)%Q).
  vm_compute. reflexivity.
Defined.

(** Two by two by two cells of air. *)
Definition air_world : World Q :=
  mkWorld 2 (λ _ _ _, BlockType_air) (λ _ _ _, false).

(** The atlas in which the slice z = 0 of block 1 has a tile, cell 0. *)
Definition atlas_one_slice : Texgen Q :=
  fst (allocationFor (fresh_atlas 2) (sliceUsage 1 "z" 0)).

Lemma transparent_world_culled_witness :
  let air := BlockType_World air_world false (0, 0, 0)%Q in
  (∀ face g,
     (rebuild_faces atlas_one_slice 1 air).2 !! face = Some g →
     vertices g = [] ∧ texcoords g = []) ∧
  usageMap (rebuild_faces atlas_one_slice 1 air).1 !! sliceUsage 1 "x" 1 = None ∧
  usageMap atlas_one_slice !! sliceUsage 1 "z" 0 = Some 0%nat ∧
  tileAllocMap atlas_one_slice !! 0%nat = Some 1 ∧
  usageMap (rebuild_faces atlas_one_slice 1 air).1 !! sliceUsage 1 "z" 0 = None ∧
  tileAllocMap (rebuildOne atlas_one_slice 1 air).1 !! 0%nat = Some 0 ∧
  (∀ i, tileAllocMap (rebuildOne atlas_one_slice 1 air).1 !! i = Some 1 →
        tileAllocMap atlas_one_slice !! i = Some 1).
Proof.
  cbv zeta.
  destruct (transparent_world_culled atlas_one_slice 1 air_world false (0, 0, 0)%Q)
    as (_ & _ & Hfaces & _ & Htokens & Hcells).
  - apply (reachable_wf 2); [lia|].
    apply reach_allocationFor, reach_acknowledge, reach_new.
  - intros x y z. vm_compute. reflexivity.
  - cbv zeta in Hcells.
    destruct Hcells as (_ & Hleak & Hfree & _); [vm_compute; reflexivity|].
    split; [exact Hfaces|]. split.
    { apply Htokens.
      + apply elem_of_cons. right. apply elem_of_cons. by left.
      + change (1 ∈ seqZ 0 2). apply elem_of_seqZ. lia. }
    split; [vm_compute; reflexivity|]. split; [vm_compute; reflexivity|]. split.
    { apply Htokens.
      + apply elem_of_cons. by left.
      + change (0 ∈ seqZ 0 2). apply elem_of_seqZ. lia. }
    split; [|exact Hleak].
    apply Hfree.
    + exists "z", 0. split; [apply elem_of_cons; by left|]. split.
      * change (0 ∈ seqZ 0 2). apply elem_of_seqZ. lia.
      * vm_compute. reflexivity.
    + vm_compute. lia.
Defined.

(** *** The clamp border of a tile off the diagonal *)

(** The atlas after blocks 1 and 2, both plain red, have been rebuilt;
    the tile of block 2 is cell 1, in row 0 and column 1. *)
Definition atlas_two_colors : Texgen Q :=
  (rebuildOne (rebuildOne (fresh_atlas 1) 1 red).1 2 red).1.

(** C6 at the tile of block 2: [rebuildOne] stored the red pixel of the
    tile at [tile_pixel (1, 4) 256 0 0] and called [completed], but the
    four pixels one step outside the edges of the tile are still 0;
    [completed] took [pix (1, 4) 256 0 0], which is the pixel of the cell
    in row 1 and column 0, for the interior and copied that. *)
Theorem border_off_diagonal :
  let s := atlas_two_colors in
  let coord := (1, 4) in
  usageMap s !! "2" = Some 1%nat ∧
  imageCoordsFor s "2" = (s, coord) ∧
  width (image s) = 256 ∧
  (data_get (image s) (tile_pixel coord 256 0 0) = 255 ∧
   data_get (image s) (tile_pixel coord 256 0 0 + 3) = 255) ∧
  (data_get (image s) (tile_pixel coord 256 (-1) 0) = 0 ∧
   data_get (image s) (tile_pixel coord 256 1 0) = 0 ∧
   data_get (image s) (tile_pixel coord 256 0 (-1)) = 0 ∧
   data_get (image s) (tile_pixel coord 256 0 1) = 0) ∧
  pix coord 256 0 0 = tile_pixel (4, 1) 256 0 0 ∧
  data_get (image s) (pix coord 256 0 0) = 0.
Proof. vm_compute. repeat split; reflexivity. Qed.

(** *** Two runs for the same block *)

(** A colour with alpha 0: its pixels are stored, but it is never
    visible. *)
Definition veil : BlockType Q := BlockType_Color (1, 0, 0, 0)%Q.

(** Two by two by two cells: the layer [z = 0] is veil, the layer
    [z = 1] is opaque red. *)
Definition veiled_world : World Q :=
  mkWorld 2 (λ x y z, if z =? 0 then veil else red)
    (λ x y z, (0 <=? x) && (x <? 2) && (0 <=? y) && (y <? 2) && (z =? 1)).

Definition veiled : BlockType Q := BlockType_World veiled_world false (1, 0, 0)%Q.

(** The first run slices the layer [z = 0] into cell 0, releases it, and
    leaves the five visible slices in cells 0 to 4.  The second run finds
    no token for the layer [z = 0], takes the free cell 5 for it, stores
    its pixels there and releases it: neither run grows the atlas, the
    tokens and the faces are the same, but the red byte of the first
    pixel of cell 5 is 0 after the first run and 255 after the
    second. *)
Lemma rebuildOne_pixels_differ :
  let r1 := rebuildOne (fresh_atlas 2) 1 veiled in
  let r2 := rebuildOne r1.1 1 veiled in
  let a := tile_pixel (cell_coords 4 64 5) 256 0 0 in
  textureLost r1.1 = false ∧ textureLost r2.1 = false ∧
  textureSize r1.1 = 256 ∧ textureSize r2.1 = 256 ∧
  usageMap r2.1 = usageMap r1.1 ∧
  data_get (image r1.1) a = 0 ∧ data_get (image r2.1) a = 255 ∧
  image r2.1 ≠ image r1.1.
Proof.
  cbv zeta.
  assert (Hbytes :
    data_get (image (rebuildOne (fresh_atlas 2) 1 veiled).1)
      (tile_pixel (cell_coords 4 64 5) 256 0 0) = 0 ∧
    data_get (image (rebuildOne (rebuildOne (fresh_atlas 2) 1 veiled).1 1 veiled).1)
      (tile_pixel (cell_coords 4 64 5) 256 0 0) = 255).
  { vm_compute. split; reflexivity. }
  destruct Hbytes as [Hb1 Hb2].
  split; [vm_compute; reflexivity|]. split; [vm_compute; reflexivity|].
  split; [vm_compute; reflexivity|]. split; [vm_compute; reflexivity|].
  split; [vm_compute; reflexivity|]. split; [exact Hb1|]. split; [exact Hb2|].
  intros Heq. rewrite Heq, Hb1 in Hb2. discriminate Hb2.
Qed.

Lemma rebuildOne_idempotent_witness :
  let r1 := rebuildOne (fresh_atlas 2) 1 veiled in
  let r2 := rebuildOne r1.1 1 veiled in
  usageMap r2.1 = usageMap r1.1 ∧ tileAllocMap r2.1 = tileAllocMap r1.1 ∧
  r2.2 = r1.2 ∧
  ∀ t c, usageMap r1.1 !! t = Some c → tile_same r1.1 r2.1 c.
Proof.
  apply (rebuildOne_idempotent (fresh_atlas 2) 1 veiled).
  - apply fresh_atlas_wf. lia.
  - apply (reachable_bijection 2); [lia|]. apply reach_acknowledge, reach_new.
  - reflexivity.
  - vm_compute. reflexivity.
  - vm_compute. reflexivity.
Defined.

(** * Further properties *)

(** ** The allocator: how its operations compose *)

Section AllocatorComposition.
Context {num : Type} `{JSNum num}.
Implicit Types (s : Texgen num) (t : string).

Lemma set_usageMap_id s : set_usageMap s (usageMap s) = s.
Proof. by destruct s. Qed.

(** X1: asking twice for the tile of a token gives the same answer, and
    the second call changes nothing: this holds whether the first call
    found the token, allocated a cell for it, enlarged the texture or
    was inhibited by [textureLost]. *)
Theorem allocationFor_twice s t :
  atlas_wf s →
  allocationFor (fst (allocationFor s t)) t = allocationFor s t.
Proof.
  intros Hwf. destruct (textureLost s) eqn:Hlost.
  - rewrite (allocationFor_lost s t Hlost). cbn [fst]. by apply allocationFor_lost.
  - destruct (usageMap s !! t) as [i|] eqn:Hi.
    + rewrite (allocationFor_known s t i) by done. cbn [fst].
      by apply allocationFor_known.
    + destruct (allocationFor_fresh s t Hwf Hlost Hi) as [(j & _ & _ & _ & ->) | [_ ->]];
        cbn [fst].
      * rewrite (allocationFor_known _ t ((freePointer s + j) `mod` length (tileAllocMap s))%nat);
          [done|done|].
        cbn [usageMap allocated set_usageMap]. apply lookup_insert_eq.
      * by apply allocationFor_lost.
Qed.

(** X2: allocating a tile for a new token and releasing it again leaves
    the token map, the occupancy bitmap and the pixel data as they were
    (only the cursor has moved), when the atlas had a free cell. *)
Theorem allocate_release s t :
  atlas_wf s → textureLost s = false → usageMap s !! t = None →
  (∃ i, tileAllocMap s !! i = Some 0) →
  let s' := deallocateUsage (fst (allocationFor s t)) t in
  usageMap s' = usageMap s ∧ tileAllocMap s' = tileAllocMap s ∧
  images s' = images s ∧ textureSize s' = textureSize s ∧ textureLost s' = false.
Proof.
  intros Hwf Hlost Hnone [i Hi]. cbv zeta.
  destruct (allocationFor_fresh s t Hwf Hlost Hnone) as [(j & _ & Hfree & _ & ->) | [Hall _]].
  - cbn [fst]. unfold deallocateUsage.
    cbn [textureLost usageMap allocated set_usageMap set_tileAllocMap set_freePointer].
    rewrite Hlost, lookup_insert_eq.
    cbn [usageMap tileAllocMap images textureSize textureLost tileFree set_usageMap
           set_tileAllocMap set_freePointer allocated].
    rewrite delete_insert_eq, delete_id by done.
    rewrite list_insert_insert_eq, list_insert_id by done. done.
  - rewrite Hall in Hi; [done|]. by eapply lookup_lt_Some.
Qed.

(** X3: releasing a token never touches another token: every other
    token keeps its cell, and that cell stays occupied.  The released
    token is gone, and releasing it once more changes nothing. *)
Theorem deallocateUsage_spares s t :
  bijection s → textureLost s = false →
  (∀ t' c, t' ≠ t → usageMap s !! t' = Some c →
     usageMap (deallocateUsage s t) !! t' = Some c ∧
     tileAllocMap (deallocateUsage s t) !! c = Some 1) ∧
  usageMap (deallocateUsage s t) !! t = None ∧
  deallocateUsage (deallocateUsage s t) t = deallocateUsage s t.
Proof.
  intros Hbij Hlost. split; [|split].
  - intros t' c Hne Hc. unfold deallocateUsage. rewrite Hlost.
    destruct (usageMap s !! t) as [i|] eqn:Hi;
      cbn [usageMap tileAllocMap tileFree set_usageMap set_tileAllocMap];
      (split; [by rewrite lookup_delete_ne|]).
    + rewrite list_lookup_insert_ne; [by eapply bij_occupied|].
      intros ->. apply Hne. by eapply bij_distinct.
    + by eapply bij_occupied.
  - unfold deallocateUsage. rewrite Hlost.
    destruct (usageMap s !! t); cbn [usageMap tileFree set_usageMap set_tileAllocMap];
      apply lookup_delete_eq.
  - assert (Hgone : usageMap (deallocateUsage s t) !! t = None).
    { unfold deallocateUsage. rewrite Hlost.
      destruct (usageMap s !! t); cbn [usageMap tileFree set_usageMap set_tileAllocMap];
        apply lookup_delete_eq. }
    assert (Hlost' : textureLost (deallocateUsage s t) = false).
    { unfold deallocateUsage. rewrite Hlost. by destruct (usageMap s !! t). }
    unfold deallocateUsage at 1. rewrite Hlost', Hgone.
    rewrite delete_id by done. apply set_usageMap_id.
Qed.

(** X4: the pixels of the tiles of live tokens, addressed as the pixel
    loops of [rebuildOne] address them from [imageCoordsFor], are bytes
    of the image, and the tiles of two different tokens share no
    byte. *)
Theorem live_tiles_disjoint s t1 t2 c1 c2 :
  atlas_wf s → bijection s → textureLost s = false →
  usageMap s !! t1 = Some c1 → usageMap s !! t2 = Some c2 →
  let w := width (image s) in
  let coord1 := snd (imageCoordsFor s t1) in
  let coord2 := snd (imageCoordsFor s t2) in
  (∀ u v k, 0 ≤ u < tileSize s → 0 ≤ v < tileSize s → 0 ≤ k < 4 →
     in_data (image s) (tile_pixel coord1 w u v + k) = true) ∧
  (t1 ≠ t2 →
   ∀ u v k u' v' k',
     0 ≤ u < tileSize s → 0 ≤ v < tileSize s → 0 ≤ k < 4 →
     0 ≤ u' < tileSize s → 0 ≤ v' < tileSize s → 0 ≤ k' < 4 →
     tile_pixel coord1 w u v + k ≠ tile_pixel coord2 w u' v' + k').
Proof.
  intros Hwf Hbij Hlost Hc1 Hc2. cbv zeta.
  rewrite (imageCoordsFor_known s t1 c1), (imageCoordsFor_known s t2 c2) by done.
  cbn [snd].
  destruct (wf_grid s Hwf) as (Hts & Htcs & Hfit).
  destruct (wf_image s Hwf) as (_ & Hw & Hh).
  assert (Hv1 : valid_cell (tileCountSqrt s) c1).
  { apply wf_valid_cell; [done|]. eapply lookup_lt_Some. by eapply bij_occupied. }
  assert (Hv2 : valid_cell (tileCountSqrt s) c2).
  { apply wf_valid_cell; [done|]. eapply lookup_lt_Some. by eapply bij_occupied. }
  rewrite Hw. unfold borderTileSize. split.
  - intros u v k Hu Hv Hk.
    pose proof (interior_in_image (textureSize s) (tileSize s) (tileCountSqrt s)
                  Hts Htcs Hfit c1 u v k Hv1 Hu Hv Hk) as Hin.
    unfold in_data, data_length. rewrite Hw, Hh.
    apply andb_true_iff. split; [apply Z.leb_le|apply Z.ltb_lt]; lia.
  - intros Hne u v k u' v' k' Hu Hv Hk Hu' Hv' Hk' Heq.
    apply (interior_inj (textureSize s) (tileSize s) (tileCountSqrt s)) in Heq
      as (-> & _); try done.
    apply Hne. by eapply bij_distinct.
Qed.

(** X5: [completed] for a registered token leaves the allocator as it
    is and the image at its size, and changes no pixel of the interior
    of any tile of the grid: the pixels it writes are border pixels
    only. *)
Theorem completed_spares_tiles s t c :
  atlas_wf s → bijection s → textureLost s = false → usageMap s !! t = Some c →
  let s' := completed s t in
  usageMap s' = usageMap s ∧ tileAllocMap s' = tileAllocMap s ∧
  freePointer s' = freePointer s ∧ textureLost s' = false ∧
  width (image s') = width (image s) ∧
  ∀ c' u v k,
    (c' < length (tileAllocMap s))%nat →
    0 ≤ u < tileSize s → 0 ≤ v < tileSize s → 0 ≤ k < 4 →
    data_get (image s')
      (tile_pixel (cell_coords (borderTileSize s) (tileCountSqrt s) c')
         (width (image s)) u v + k)
    = data_get (image s)
        (tile_pixel (cell_coords (borderTileSize s) (tileCountSqrt s) c')
           (width (image s)) u v + k).
Proof.
  intros Hwf Hbij Hlost Hc. cbv zeta.
  destruct (completed_run s t c) as ((l & Hs' & _) & Hss & Hsame); [by split|done|].
  split; [by rewrite Hs'|]. split; [by rewrite Hs'|]. split; [by rewrite Hs'|].
  split; [by rewrite Hs'|]. split; [by destruct Hss|].
  intros c' u v k Hc' Hu Hv Hk. by apply Hsame.
Qed.

End AllocatorComposition.

Lemma atlas_two_colors_ok : atlas_wf atlas_two_colors ∧ bijection atlas_two_colors.
Proof.
  unfold atlas_two_colors.
  do 2 apply (rebuildOne_closed _ wf_bijection_closed).
  split; [apply fresh_atlas_wf; lia|].
  apply (reachable_bijection 1); [lia|]. apply reach_acknowledge, reach_new.
Qed.

Lemma allocationFor_twice_witness :
  allocationFor (fst (allocationFor (fresh_atlas 1) "a")) "a"
  = allocationFor (fresh_atlas 1) "a".
Proof. apply allocationFor_twice. apply fresh_atlas_wf. lia. Defined.

Lemma allocate_release_witness :
  let s' := deallocateUsage (fst (allocationFor (fresh_atlas 1) "a")) "a" in
  usageMap s' = usageMap (fresh_atlas 1) ∧ tileAllocMap s' = tileAllocMap (fresh_atlas 1) ∧
  images s' = images (fresh_atlas 1) ∧ textureSize s' = textureSize (fresh_atlas 1) ∧
  textureLost s' = false.
Proof.
  apply allocate_release.
  - apply fresh_atlas_wf. lia.
  - reflexivity.
  - reflexivity.
  - exists 0%nat. vm_compute. reflexivity.
Defined.

Lemma deallocateUsage_spares_witness :
  (∀ t' c, t' ≠ "1" → usageMap atlas_two_colors !! t' = Some c →
     usageMap (deallocateUsage atlas_two_colors "1") !! t' = Some c ∧
     tileAllocMap (deallocateUsage atlas_two_colors "1") !! c = Some 1) ∧
  usageMap (deallocateUsage atlas_two_colors "1") !! "1" = None ∧
  deallocateUsage (deallocateUsage atlas_two_colors "1") "1"
  = deallocateUsage atlas_two_colors "1".
Proof.
  apply deallocateUsage_spares.
  - apply atlas_two_colors_ok.
  - vm_compute. reflexivity.
Defined.

Lemma live_tiles_disjoint_witness :
  let s := atlas_two_colors in
  let w := width (image s) in
  let coord1 := snd (imageCoordsFor s "1") in
  let coord2 := snd (imageCoordsFor s "2") in
  (∀ u v k, 0 ≤ u < tileSize s → 0 ≤ v < tileSize s → 0 ≤ k < 4 →
     in_data (image s) (tile_pixel coord1 w u v + k) = true) ∧
  ("1" ≠ "2" →
   ∀ u v k u' v' k',
     0 ≤ u < tileSize s → 0 ≤ v < tileSize s → 0 ≤ k < 4 →
     0 ≤ u' < tileSize s → 0 ≤ v' < tileSize s → 0 ≤ k' < 4 →
     tile_pixel coord1 w u v + k ≠ tile_pixel coord2 w u' v' + k').
Proof.
  apply (live_tiles_disjoint atlas_two_colors "1" "2" 0%nat 1%nat).
  - apply atlas_two_colors_ok.
  - apply atlas_two_colors_ok.
  - vm_compute. reflexivity.
  - vm_compute. reflexivity.
  - vm_compute. reflexivity.
Defined.

Lemma completed_spares_tiles_witness :
  let s := atlas_two_colors in
  let s' := completed s "2" in
  usageMap s' = usageMap s ∧ tileAllocMap s' = tileAllocMap s ∧
  freePointer s' = freePointer s ∧ textureLost s' = false ∧
  width (image s') = width (image s) ∧
  ∀ c' u v k,
    (c' < length (tileAllocMap s))%nat →
    0 ≤ u < tileSize s → 0 ≤ v < tileSize s → 0 ≤ k < 4 →
    data_get (image s')
      (tile_pixel (cell_coords (borderTileSize s) (tileCountSqrt s) c')
         (width (image s)) u v + k)
    = data_get (image s)
        (tile_pixel (cell_coords (borderTileSize s) (tileCountSqrt s) c')
           (width (image s)) u v + k).
Proof.
  apply (completed_spares_tiles atlas_two_colors "2" 1%nat).
  - apply atlas_two_colors_ok.
  - apply atlas_two_colors_ok.
  - vm_compute. reflexivity.
  - vm_compute. reflexivity.
Defined.

(** ** The shape of the geometry *)

Section GeometryShape.
Context {num : Type} `{JSNum num} `{CubeSymmetry num}.

(** Linear arithmetic with quotients by a constant. *)
Local Ltac div_lia := zify; rewrite ?Nat2Z.inj_div in *; Z.div_mod_to_equations; lia.

Lemma length_pushVertex (out : list num) v : length (pushVertex out v) = (length out + 3)%nat.
Proof. destruct v as [[x y] z]. unfold pushVertex. rewrite length_app. simpl. lia. Qed.

Lemma rotateVertices_up_length rot (vs : list num) : ∀ fuel i out,
  0 ≤ i → (Z.to_nat ((Z.of_nat (length vs) - i + 2) / 3) ≤ fuel)%nat →
  length (rotateVertices_up fuel rot vs i out)
  = (length out + 3 * Z.to_nat ((Z.of_nat (length vs) - i + 2) / 3))%nat.
Proof.
  induction fuel as [|fuel IH]; intros i out Hi Hfuel; cbn [rotateVertices_up]; [div_lia|].
  destruct (Z.ltb_spec i (Z.of_nat (length vs))) as [Hlt|Hge].
  - rewrite IH, length_pushVertex by div_lia. div_lia.
  - div_lia.
Qed.

Lemma rotateVertices_down_length rot (vs : list num) : ∀ fuel i out,
  -3 ≤ i → (Z.to_nat ((i + 3) / 3) ≤ fuel)%nat →
  length (rotateVertices_down fuel rot vs i out)
  = (length out + 3 * Z.to_nat ((i + 3) / 3))%nat.
Proof.
  induction fuel as [|fuel IH]; intros i out Hi Hfuel; cbn [rotateVertices_down]; [div_lia|].
  destruct (Z.leb_spec 0 i) as [Hle|Hlt].
  - rewrite IH, length_pushVertex by div_lia. div_lia.
  - div_lia.
Qed.

Lemma rotateTexcoords_down_length (tc : list num) : ∀ fuel i out,
  -2 ≤ i → (Z.to_nat ((i + 2) / 2) ≤ fuel)%nat →
  length (rotateTexcoords_down fuel tc i out)
  = (length out + 2 * Z.to_nat ((i + 2) / 2))%nat.
Proof.
  induction fuel as [|fuel IH]; intros i out Hi Hfuel; cbn [rotateTexcoords_down]; [div_lia|].
  destruct (Z.leb_spec 0 i) as [Hle|Hlt].
  - rewrite IH, length_app by div_lia. cbn [length]. div_lia.
  - div_lia.
Qed.

Lemma length_rotateVertices rot (vs : list num) :
  length (rotateVertices rot vs)
  = (if isReflection rot then 3 * (length vs / 3) else 3 * ((length vs + 2) / 3))%nat.
Proof.
  unfold rotateVertices. destruct (isReflection rot).
  - rewrite rotateVertices_down_length by div_lia. cbn [length]. div_lia.
  - rewrite rotateVertices_up_length by div_lia. cbn [length]. div_lia.
Qed.

Lemma length_rotateTexcoords rot (tc : list num) :
  length (rotateTexcoords rot tc)
  = (if isReflection rot then 2 * (length tc / 2) else length tc)%nat.
Proof.
  unfold rotateTexcoords. destruct (isReflection rot); [|done].
  rewrite rotateTexcoords_down_length by div_lia. cbn [length]. div_lia.
Qed.

(** X6: the lengths of rotated arrays, for arrays of any length.  A
    rotation yields one corner for every started group of three numbers
    of the vertex array (the last group is filled up with undefined), a
    reflection one corner for every complete group of three (the numbers
    left over at the start are dropped) and one texcoord pair for every
    complete pair; so arrays of whole corners keep their length. *)
Theorem rotate_lengths (rot : nat) (vs tc : list num) :
  length (rotateVertices rot vs)
  = (if isReflection rot then 3 * (length vs / 3) else 3 * ((length vs + 2) / 3))%nat ∧
  length (rotateTexcoords rot tc)
  = (if isReflection rot then 2 * (length tc / 2) else length tc)%nat ∧
  (∀ n, length vs = (3 * n)%nat → length (rotateVertices rot vs) = length vs) ∧
  (∀ n, length tc = (2 * n)%nat → length (rotateTexcoords rot tc) = length tc).
Proof.
  split; [apply length_rotateVertices|]. split; [apply length_rotateTexcoords|]. split.
  - intros n Hn. rewrite length_rotateVertices. destruct (isReflection rot); div_lia.
  - intros n Hn. rewrite length_rotateTexcoords. destruct (isReflection rot); div_lia.
Qed.

(** A face made of whole quads: six corners of three numbers, and six
    texcoord pairs, for each. *)
Definition whole_quads (g : Geometry num) : Prop :=
  ∃ n, length (vertices g) = (18 * n)%nat ∧ length (texcoords g) = (12 * n)%nat.

Definition whole_quad_arrays (arr : FaceArrays num) : Prop :=
  whole_quads (mkGeometry (verticesL arr) (texcoordsL arr)) ∧
  whole_quads (mkGeometry (verticesH arr) (texcoordsH arr)).

Definition whole_quad_faces (faceData : gmap string (Geometry num)) : Prop :=
  ∀ face g, faceData !! face = Some g → whole_quads g.

Lemma length_quadVertices flipped transform depth :
  length (quadVertices flipped transform depth) = 18%nat.
Proof. unfold quadVertices. by rewrite !length_pushVertex. Qed.

Lemma whole_quads_snoc (vs tc q qt : list num) :
  whole_quads (mkGeometry vs tc) → length q = 18%nat → length qt = 12%nat →
  whole_quads (mkGeometry (vs ++ q) (tc ++ qt)).
Proof.
  intros (n & Hv & Ht) Hq Hqt. exists (S n). cbn [vertices texcoords] in *.
  rewrite !length_app. lia.
Qed.

Lemma sliceWorld_whole_quads lc blockID world opaque dimName layer transform st :
  whole_quad_arrays st.2 →
  whole_quad_arrays (sliceWorld lc blockID world opaque dimName layer transform st).2.
Proof.
  destruct st as [s arr]. cbn [snd]. intros [HL HH]. rewrite sliceWorld_eq. cbv zeta.
  destruct (negb _ && negb _); cbn [snd]; [by split|].
  destruct (_ && (negb opaque || (layer =? 0)));
    destruct (_ && (negb opaque || (layer =? l_tileSize lc - 1)));
    split; cbn [verticesL verticesH texcoordsL texcoordsH]; try done;
    apply whole_quads_snoc; auto using length_quadVertices, calcTexCoords_length.
Qed.

Lemma slice_layers_whole_quads lc blockID world opaque dimName transform layers : ∀ st arr,
  whole_quad_arrays st.2 →
  (slice_layers lc blockID world opaque dimName transform layers st).2 = Some arr →
  whole_quad_arrays arr.
Proof.
  induction layers as [|layer layers IH]; intros [s arr0] arr Harr; cbn [slice_layers fst snd].
  - by intros [= <-].
  - destruct (textureLost s); [done|]. apply IH.
    by apply sliceWorld_whole_quads.
Qed.

Lemma whole_quad_faces_insert dimName arr (faceData : gmap string (Geometry num)) :
  whole_quad_arrays arr → whole_quad_faces faceData →
  whole_quad_faces
    (<["h" +:+ dimName := mkGeometry (verticesH arr) (texcoordsH arr)]>
       (<["l" +:+ dimName := mkGeometry (verticesL arr) (texcoordsL arr)]> faceData)).
Proof.
  intros [HL HH] Hfd face g.
  rewrite !lookup_insert. repeat case_decide; [by intros [= <-]..|apply Hfd].
Qed.

Lemma world_faces_whole_quads lc blockID world opaque st m :
  whole_quad_faces st.2 → whole_quad_faces (world_faces lc blockID world opaque st m).2.
Proof.
  destruct st as [s faceData]. cbn [snd]. intros Hfd. unfold world_faces.
  assert (Hnil : whole_quad_arrays (mkFaceArrays [] [] [] [])).
  { split; by exists 0%nat. }
  destruct opaque.
  - destruct (textureLost s); [done|]. cbn [fst snd].
    apply whole_quad_faces_insert; [|done].
    by do 2 apply sliceWorld_whole_quads.
  - pose proof (slice_layers_whole_quads lc blockID world false m.1 m.2
                  (seqZ 0 (l_tileSize lc)) (s, mkFaceArrays [] [] [] [])) as Hsl.
    destruct (slice_layers _ _ _ _ _ _ _ _) as [s' [arr|]]; cbn [snd] in *; [|done].
    apply whole_quad_faces_insert; [|done]. by apply Hsl.
Qed.

Lemma color_faces_whole_quads usageIndex st m :
  whole_quad_faces st.2 → whole_quad_faces (color_faces usageIndex st m).2.
Proof.
  destruct st as [s faceData]. cbn [snd]. intros Hfd. unfold color_faces.
  rewrite !pushQuad_eq. cbn [snd].
  intros face g. rewrite !lookup_insert.
  repeat case_decide; [intros [= <-]..|apply Hfd];
    exists 1%nat; cbn [vertices texcoords app];
    by rewrite length_quadVertices, calcTexCoords_length.
Qed.

Lemma foldl_whole_quads {A}
    (f : Texgen num * gmap string (Geometry num) → A → Texgen num * gmap string (Geometry num))
    (l : list A) :
  (∀ st x, whole_quad_faces st.2 → whole_quad_faces (f st x).2) →
  ∀ st, whole_quad_faces st.2 → whole_quad_faces (foldl f st l).2.
Proof.
  intros Hf. induction l as [|x l IH]; intros st Hst; cbn [foldl]; [done|].
  apply IH. by apply Hf.
Qed.

Lemma rebuild_faces_whole_quads s blockID blockType :
  whole_quad_faces (rebuild_faces s blockID blockType).2.
Proof.
  assert (Hempty : whole_quad_faces (∅ : gmap string (Geometry num))).
  { intros face g. by rewrite lookup_empty. }
  destruct blockType as [color|world opaque col].
  - rewrite rebuild_faces_color. apply foldl_whole_quads; [|done].
    intros st x. apply color_faces_whole_quads.
  - unfold rebuild_faces. apply foldl_whole_quads; [|done].
    intros st x. apply world_faces_whole_quads.
Qed.

Lemma rotate_whole_quads rot g :
  whole_quads g →
  whole_quads (mkGeometry (rotateVertices rot (vertices g)) (rotateTexcoords rot (texcoords g))).
Proof.
  intros (n & Hv & Ht). exists n. cbn [vertices texcoords].
  rewrite length_rotateVertices, length_rotateTexcoords.
  destruct (isReflection rot); div_lia.
Qed.

(** X7: [rebuildOne] returns one table of faces for each of the
    [COUNT] rotations; each table has the faces of the canonical one, and
    every face in it, of a colour block or a world block, whether or not
    the texture was lost on the way, consists of whole quads: [18 n]
    vertex numbers and [12 n] texcoord numbers, so that the two arrays
    describe the same number of corners. *)
Theorem rebuildOne_whole_quads (s : Texgen num) (blockID : nat) (blockType : BlockType num) :
  let r := rebuildOne s blockID blockType in
  length r.2 = COUNT ∧
  ∀ rot faces, r.2 !! rot = Some faces →
    dom faces = dom (rebuild_faces s blockID blockType).2 ∧
    ∀ face g, faces !! face = Some g →
      ∃ n, length (vertices g) = (18 * n)%nat ∧ length (texcoords g) = (12 * n)%nat.
Proof.
  cbv zeta. unfold rebuildOne.
  pose proof (rebuild_faces_whole_quads s blockID blockType) as Hfd.
  destruct (rebuild_faces s blockID blockType) as [s' faceData]. cbn [snd] in *.
  destruct blockType as [color|world opaque col]; cbn [snd].
  - split; [apply length_replicate|].
    intros rot faces [-> _]%lookup_replicate. split; [done|]. apply Hfd.
  - split; [by rewrite length_fmap, length_seq|].
    intros rot faces Hrot. apply list_lookup_fmap_Some in Hrot as (rot' & -> & _).
    unfold rotateFaceData. split; [apply dom_fmap_L|].
    intros face g. rewrite lookup_fmap.
    destruct (faceData !! face) as [g0|] eqn:Hg0; [|done].
    intros [= <-]. apply rotate_whole_quads. by eapply Hfd.
Qed.

End GeometryShape.

(** ** What a run of [rebuildOne] establishes and what it leaves alone *)

Section RebuildProperties.
Context {num : Type} `{JSNum num} `{CubeSymmetry num}.
Implicit Types (s : Texgen num) (t : string).

(** While the texture is lost, the operations store pixels at most. *)
Lemma lost_inert_closed s0 :
  atlas_closed (λ s, textureLost s = true ∧ only_images s0 s).
Proof.
  split.
  - intros s t [Hl Ho]. by rewrite allocationFor_lost.
  - intros s t [Hl Ho]. unfold deallocateUsage. by rewrite Hl.
  - intros s t [Hl Ho]. rewrite completed_eq, allocationFor_lost by done. cbn [fst].
    split; [done|]. eapply only_images_trans; [exact Ho|].
    eexists. split; [reflexivity|]. by rewrite length_alter.
  - intros s r i v [Hl Ho]. split; [done|].
    eapply only_images_trans; [exact Ho|]. apply write_byte_set_images.
Qed.

(** X8: [rebuildOne] keeps the atlas well-formed and the tokens and
    occupied cells in one-to-one correspondence, for any block and
    whether or not it has to enlarge the texture.  While [textureLost] is
    set it registers and releases nothing, marks no cell, does not
    enlarge the texture and leaves the flag set: only the client clears
    it. *)
Theorem rebuildOne_keeps_invariant s (blockID : nat) (blockType : BlockType num) :
  let r := rebuildOne s blockID blockType in
  (atlas_wf s → bijection s → atlas_wf r.1 ∧ bijection r.1) ∧
  (textureLost s = true →
     textureLost r.1 = true ∧ usageMap r.1 = usageMap s ∧
     tileAllocMap r.1 = tileAllocMap s ∧ freePointer r.1 = freePointer s ∧
     textureSize r.1 = textureSize s).
Proof.
  cbv zeta. split.
  - intros Hwf Hbij. by apply (rebuildOne_closed _ wf_bijection_closed).
  - intros Hlost.
    destruct (rebuildOne_closed _ (lost_inert_closed s) s blockID blockType)
      as (Hl & l & -> & _); [split; [done|apply only_images_refl]|].
    done.
Qed.

Lemma world_tiles_run s (blockID : nat) (world : World num) (opaque : bool)
    (col : num * num * num) (m : string * mat4) (layer : Z) :
  atlas_wf s → bijection s → textureLost s = false →
  let r := rebuildOne s blockID (BlockType_World world opaque col) in
  textureLost r.1 = false →
  m ∈ TILE_MAPPINGS → layer ∈ sliced_layers opaque (tileSize s) →
  let fl := layer_flags (tileSize s) world m.2 layer in
  let t := sliceUsage blockID m.1 layer in
  (fl.1 || fl.2 = true →
     ∃ c, usageMap r.1 !! t = Some c ∧ tile_holds r.1 c (pixel_byte world m.2 layer)) ∧
  (fl.1 || fl.2 = false → usageMap r.1 !! t = None).
Proof.
  intros Hwf Hbij Hvalid r Hlost Hm Hlayer.
  assert (Hok : atlas_ok s) by (by split).
  subst r. unfold rebuildOne, rebuild_faces in *.
  pose proof (world_run (rebuild_locals s) blockID world opaque s Hok eq_refl) as Hrun.
  cbv zeta in Hrun.
  destruct (foldl (world_faces (rebuild_locals s) blockID world opaque) (s, ∅) TILE_MAPPINGS)
    as [s1 f1].
  cbn [fst] in *. specialize (Hrun Hlost). injection Hrun as -> _.
  destruct (slice_steps_run (rebuild_locals s) blockID world opaque _ s Hok eq_refl
              (block_keys_ok _ _) Hlost) as (_ & _ & _ & _ & Hsettled & _).
  apply (Hsettled (m, layer)).
  apply list_elem_of_bind. exists m. split; [|done].
  apply list_elem_of_fmap. by exists layer.
Qed.

(** X9: after a run of [rebuildOne] for a world block that did not lose
    the texture, every layer that was sliced is settled: if the layer
    is visible from below or from above its token is registered and
    the interior of its tile holds the pixels of the layer, byte for
    byte; if it is not, its token is not registered. *)
Theorem rebuildOne_world_tiles s (blockID : nat) (world : World num) (opaque : bool)
    (col : num * num * num) (m : string * mat4) (layer : Z) :
  atlas_wf s → bijection s → textureLost s = false →
  let r := rebuildOne s blockID (BlockType_World world opaque col) in
  textureLost r.1 = false →
  m ∈ TILE_MAPPINGS → layer ∈ sliced_layers opaque (tileSize s) →
  let fl := layer_flags (tileSize s) world m.2 layer in
  let t := sliceUsage blockID m.1 layer in
  (fl.1 || fl.2 = true →
     ∃ c, usageMap r.1 !! t = Some c ∧ tile_holds r.1 c (pixel_byte world m.2 layer)) ∧
  (fl.1 || fl.2 = false → usageMap r.1 !! t = None).
Proof. apply world_tiles_run. Qed.

Lemma color_tile_run s (blockID : nat) (color : num * num * num * num) :
  atlas_wf s → bijection s → textureLost s = false →
  let r := rebuildOne s blockID (BlockType_Color color) in
  textureLost r.1 = false →
  ∃ c, usageMap r.1 !! colorUsage blockID = Some c ∧
       (∀ c0, usageMap s !! colorUsage blockID = Some c0 → c = c0) ∧
       tile_holds r.1 c
         (λ _ _ k, byte_at (writeColor (BlockType_Color color) (of_Z 255)) k) ∧
       ∀ rot faces, r.2 !! rot = Some faces →
         faces = foldl (color_geometry s c) ∅ TILE_MAPPINGS.
Proof.
  intros Hwf Hbij Hvalid r Hlost.
  assert (Hok : atlas_ok s) by (by split).
  subst r. unfold rebuildOne in *.
  pose proof (color_run s blockID color Hok) as Hrun. cbv zeta in Hrun.
  destruct (rebuild_faces s blockID (BlockType_Color color)) as [s1 f1].
  cbn [fst snd] in *.
  destruct (Hrun Hlost) as (c & _ & Hcase & (l & -> & _) & _ & _ & -> & Hholds & _).
  exists c. split; [|split; [|split]].
  - cbn [usageMap set_images].
    destruct Hcase as [[? ->] | (_ & _ & ->)]; [done|].
    cbn [usageMap allocated set_usageMap]. apply lookup_insert_eq.
  - intros c0 Hc0. destruct Hcase as [[? _] | (? & _)]; congruence.
  - intros u v k Hu Hv Hk. rewrite (Hholds u v k Hu Hv Hk).
    unfold pixel_byte. by destruct (multiplyVec3Z [] (u, v, 0)) as [[x y] z].
  - by intros rot faces [-> _]%lookup_replicate.
Qed.

(** X10: after a run of [rebuildOne] for a colour block that did not
    lose the texture, the token of the block is registered (at the cell
    it had, if it had one), every pixel of the interior of its tile
    holds the four bytes of the colour scaled by 255, and each rotation
    has the same six faces: one quad each, low faces at depth 0 and high
    faces at depth 1, all with the texture coordinates of the tile. *)
Theorem rebuildOne_color_tile s (blockID : nat) (color : num * num * num * num) :
  atlas_wf s → bijection s → textureLost s = false →
  let r := rebuildOne s blockID (BlockType_Color color) in
  textureLost r.1 = false →
  ∃ c, usageMap r.1 !! colorUsage blockID = Some c ∧
       (∀ c0, usageMap s !! colorUsage blockID = Some c0 → c = c0) ∧
       tile_holds r.1 c
         (λ _ _ k, byte_at (writeColor (BlockType_Color color) (of_Z 255)) k) ∧
       ∀ rot faces, r.2 !! rot = Some faces →
         faces = foldl (color_geometry s c) ∅ TILE_MAPPINGS.
Proof. apply color_tile_run. Qed.

(** The tokens that [rebuildOne] uses for a block. *)
Definition block_token (blockID : nat) (blockType : BlockType num) (tileSize : Z)
    (t : string) : Prop :=
  match blockType with
  | BlockType_Color _ => t = colorUsage blockID
  | BlockType_World _ opaque _ =>
      ∃ m layer, m ∈ TILE_MAPPINGS ∧ layer ∈ sliced_layers opaque tileSize ∧
                 t = sliceUsage blockID m.1 layer
  end.

Lemma slice_steps_frame lc blockID world opaque ks t : ∀ s,
  atlas_ok s → rebuild_locals s = lc → (∀ k, k ∈ ks → key_ok k) →
  textureLost (foldl (slice_step lc blockID world opaque) s ks) = false →
  (∀ k, k ∈ ks → t ≠ key_token blockID k) →
  let s' := foldl (slice_step lc blockID world opaque) s ks in
  usageMap s' !! t = usageMap s !! t ∧
  ∀ c, usageMap s !! t = Some c → tile_same s s' c.
Proof.
  induction ks as [|k ks IH]; intros s Hok Hlc Hks Hlost Ht; cbn [foldl] in *.
  - split; [done|]. intros c _. apply tile_same_refl.
  - assert (Hlost1 : textureLost (slice_step lc blockID world opaque s k) = false).
    { destruct (textureLost (slice_step lc blockID world opaque s k)) eqn:Hl; [|done].
      by rewrite (foldl_slice_step_lost _ _ _ _ _ _ Hl) in Hlost. }
    destruct (slice_step_run lc blockID world opaque s k Hok Hlc Hlost1)
      as (Hok1 & Hss1 & Hmap1 & _ & _ & Hsame1 & _).
    assert (Hne : t ≠ key_token blockID k) by (apply Ht; left).
    destruct (IH (slice_step lc blockID world opaque s k)) as [Hmap Hsame]; try done.
    { by rewrite (same_surface_locals s _ Hss1). }
    { intros k' Hk'. apply Hks. by right. }
    { intros k' Hk'. apply Ht. by right. }
    split; [by rewrite Hmap, Hmap1|].
    intros c Hc. apply (tile_same_trans s (slice_step lc blockID world opaque s k));
      [done|by eapply Hsame1|].
    apply Hsame. by rewrite Hmap1.
Qed.

Lemma frame_run s (blockID : nat) (blockType : BlockType num) t :
  atlas_wf s → bijection s → textureLost s = false →
  let r := rebuildOne s blockID blockType in
  textureLost r.1 = false →
  ¬ block_token blockID blockType (tileSize s) t →
  usageMap r.1 !! t = usageMap s !! t ∧
  ∀ c, usageMap s !! t = Some c → tile_same s r.1 c.
Proof.
  intros Hwf Hbij Hvalid r Hlost Ht.
  assert (Hok : atlas_ok s) by (by split).
  subst r. unfold rebuildOne in *. destruct blockType as [color|world opaque col].
  - cbn [block_token] in Ht.
    pose proof (color_run s blockID color Hok) as Hrun. cbv zeta in Hrun.
    destruct (rebuild_faces s blockID (BlockType_Color color)) as [s1 f1].
    cbn [fst snd] in *.
    destruct (Hrun Hlost) as (c0 & Hc0 & Hcase & (l & Hs1 & _) & _ & _ & _ & _ & Hsame).
    assert (Hmap : usageMap s1 !! t = usageMap s !! t).
    { rewrite Hs1. cbn [usageMap set_images].
      destruct Hcase as [[_ ->] | (_ & _ & ->)]; [done|].
      cbn [usageMap allocated set_usageMap]. by rewrite lookup_insert_ne. }
    split; [done|]. intros c Hc. apply Hsame.
    + intros ->. destruct Hcase as [[Hk _] | (_ & Hfree & _)].
      * apply Ht. by eapply bij_distinct.
      * pose proof (bij_occupied s Hbij t c0 Hc). congruence.
    + eapply lookup_lt_Some. by eapply bij_occupied.
  - cbn [block_token] in Ht. unfold rebuild_faces in *.
    pose proof (world_run (rebuild_locals s) blockID world opaque s Hok eq_refl) as Hrun.
    cbv zeta in Hrun.
    destruct (foldl (world_faces (rebuild_locals s) blockID world opaque) (s, ∅)
                TILE_MAPPINGS) as [s1 f1].
    cbn [fst] in *. specialize (Hrun Hlost). injection Hrun as -> _.
    apply (slice_steps_frame (rebuild_locals s) blockID world opaque); try done.
    + apply block_keys_ok.
    + intros k Hk ->. apply Ht.
      apply list_elem_of_bind in Hk as (m & (layer & -> & Hlayer)%list_elem_of_fmap & Hm).
      by exists m, layer.
Qed.

(** X11: a run of [rebuildOne] that did not lose the texture leaves the
    tokens of other blocks alone: a token that is not one of the block's
    own is registered afterwards exactly if it was before, at the same
    cell, and the interior of its tile is byte for byte what it was. *)
Theorem rebuildOne_frame s (blockID : nat) (blockType : BlockType num) t :
  atlas_wf s → bijection s → textureLost s = false →
  let r := rebuildOne s blockID blockType in
  textureLost r.1 = false →
  ¬ block_token blockID blockType (tileSize s) t →
  usageMap r.1 !! t = usageMap s !! t ∧
  ∀ c, usageMap s !! t = Some c → tile_same s r.1 c.
Proof. apply frame_run. Qed.

End RebuildProperties.

Lemma fresh_atlas_bijection ts : 1 ≤ ts ≤ 254 → bijection (fresh_atlas ts).
Proof.
  intros Hts. apply (reachable_bijection ts); [done|]. apply reach_acknowledge, reach_new.
Qed.

Lemma rebuildOne_world_tiles_witness :
  let s := fresh_atlas 2 in
  let m := ("z", [1; 0; 0; 0; 0; 1; 0; 0; 0; 0; 1; 0; 0; 0; 0; 1]) in
  let r := rebuildOne s 1 veiled in
  let fl := layer_flags (tileSize s) veiled_world m.2 1 in
  let t := sliceUsage 1 m.1 1 in
  (fl.1 || fl.2 = true →
     ∃ c, usageMap r.1 !! t = Some c ∧ tile_holds r.1 c (pixel_byte veiled_world m.2 1)) ∧
  (fl.1 || fl.2 = false → usageMap r.1 !! t = None).
Proof.
  apply (rebuildOne_world_tiles (fresh_atlas 2) 1 veiled_world false (1, 0, 0)%Q
           ("z", [1; 0; 0; 0; 0; 1; 0; 0; 0; 0; 1; 0; 0; 0; 0; 1]) 1).
  - apply fresh_atlas_wf. lia.
  - apply fresh_atlas_bijection. lia.
  - reflexivity.
  - vm_compute. reflexivity.
  - apply elem_of_cons. by left.
  - change (1 ∈ seqZ 0 2). apply elem_of_seqZ. lia.
Defined.

Lemma rebuildOne_color_tile_witness :
  let s := fresh_atlas 1 in
  let r := rebuildOne s 1 red in
  ∃ c, usageMap r.1 !! colorUsage 1 = Some c ∧
       (∀ c0, usageMap s !! colorUsage 1 = Some c0 → c = c0) ∧
       tile_holds r.1 c (λ _ _ k, byte_at (writeColor red (of_Z 255)) k) ∧
       ∀ rot faces, r.2 !! rot = Some faces →
         faces = foldl (color_geometry s c) ∅ TILE_MAPPINGS.
Proof.
  apply (rebuildOne_color_tile (fresh_atlas 1) 1 (1, 0, 0, 1)%Q).
  - apply fresh_atlas_wf. lia.
  - apply fresh_atlas_bijection. lia.
  - reflexivity.
  - vm_compute. reflexivity.
Defined.

Lemma rebuildOne_frame_witness :
  let s := (rebuildOne (fresh_atlas 1) 1 red).1 in
  let r := rebuildOne s 2 red in
  usageMap r.1 !! "1" = usageMap s !! "1" ∧
  ∀ c, usageMap s !! "1" = Some c → tile_same s r.1 c.
Proof.
  apply (rebuildOne_frame (rebuildOne (fresh_atlas 1) 1 red).1 2 red "1").
  - apply (rebuildOne_closed _ atlas_wf_closed). apply fresh_atlas_wf. lia.
  - apply (rebuildOne_closed _ wf_bijection_closed).
    split; [apply fresh_atlas_wf|apply fresh_atlas_bijection]; lia.
  - vm_compute. reflexivity.
  - vm_compute. reflexivity.
  - intros Heq. vm_compute in Heq. discriminate Heq.
Defined.

(** ** The derived properties of a world block type *)

Section WorldBlockTheorems.
Context {num : Type} `{JSNum num} `{GLVec3 num}.
Implicit Types (world : World num).

(** A cell of the cube of side [ts] that lies in one of its six outer
    layers. *)
Definition outer_cell (ts x y z : Z) : Prop :=
  (0 ≤ x < ts ∧ 0 ≤ y < ts ∧ 0 ≤ z < ts) ∧
  (x = 0 ∨ x = ts - 1 ∨ y = 0 ∨ y = ts - 1 ∨ z = 0 ∨ z = ts - 1).

(** A cell of one of the three high layers. *)
Definition high_cell (ts x y z : Z) : Prop :=
  (0 ≤ x < ts ∧ 0 ≤ y < ts ∧ 0 ≤ z < ts) ∧ (x = ts - 1 ∨ y = ts - 1 ∨ z = ts - 1).

Lemma axis_cell_cases dim u v w :
  (dim < 3)%nat →
  axis_cell dim (u, v, w) = (u, v, w) ∨ axis_cell dim (u, v, w) = (v, w, u) ∨
  axis_cell dim (u, v, w) = (w, u, v).
Proof.
  intros Hdim. destruct dim as [|[|[|dim]]]; [by left|by right; left|by right; right|lia].
Qed.

Lemma axis_cell_outer ts dim u v w :
  (dim < 3)%nat → 0 ≤ u < ts → 0 ≤ v < ts → w = 0 ∨ w = ts - 1 →
  let c := axis_cell dim (u, v, w) in outer_cell ts c.1.1 c.1.2 c.2.
Proof.
  intros Hdim Hu Hv Hw. cbv zeta.
  destruct (axis_cell_cases dim u v w Hdim) as [-> | [-> | ->]];
    unfold outer_cell; cbn [fst snd]; lia.
Qed.

Lemma axis_cell_high ts dim u v :
  (dim < 3)%nat → 0 ≤ u < ts → 0 ≤ v < ts →
  let c := axis_cell dim (u, v, ts - 1) in high_cell ts c.1.1 c.1.2 c.2.
Proof.
  intros Hdim Hu Hv. cbv zeta.
  destruct (axis_cell_cases dim u v (ts - 1) Hdim) as [-> | [-> | ->]];
    unfold high_cell; cbn [fst snd]; lia.
Qed.

(** The ray starts in the last layer: it stops there if the cell is
    opaque, and one step further, outside the cube, if it is not. *)
Lemma raycast_last world ts dim u v :
  1 ≤ ts →
  raycast (Z.to_nat ts) world ts dim u v (ts - 1)
  = if opaque_cell world (axis_cell dim (u, v, ts - 1)) then ts - 1 else ts.
Proof.
  intros Hts. destruct (Z.to_nat ts) as [|fuel] eqn:Hfuel; [lia|].
  cbn [raycast]. destruct (opaque_cell world (axis_cell dim (u, v, ts - 1))); [done|].
  rewrite (proj2 (Z.ltb_lt (ts - 1) ts)) by lia. cbn [negb andb].
  replace (ts - 1 + 1) with ts by lia.
  destruct fuel; cbn [raycast]; by rewrite Z.ltb_irrefl, andb_false_r.
Qed.

Lemma recompute_cell_eq world ts dim st u v :
  1 ≤ ts →
  recompute_cell world ts dim st u v
  = let c0 := axis_cell dim (u, v, 0) in
    let c1 := axis_cell dim (u, v, ts - 1) in
    let opaque := st.1.1 && opaque_cell world c0 && opaque_cell world c1 in
    if opaque_cell world c1 then
      let sub := writeColor (gt_cell world c1) (of_Z 1) in
      (opaque, vec3_add st.1.2 (sub.1.1.1, sub.1.1.2, sub.1.2), S st.2)
    else (opaque, st.1.2, st.2).
Proof.
  intros Hts. destruct st as [[opaque color] colorCount]. unfold recompute_cell.
  cbv zeta. rewrite raycast_last by done. cbn [fst snd].
  destruct (opaque_cell world (axis_cell dim (u, v, ts - 1))).
  - by rewrite (proj2 (Z.ltb_lt (ts - 1) ts)) by lia.
  - by rewrite Z.ltb_irrefl.
Qed.

Section Folds.
Context {S A : Type}.

Lemma foldl_flag (flag : S → bool) (f : S → A → S) (P : A → Prop) (l : list A) :
  (∀ st x, x ∈ l → flag (f st x) = true ↔ flag st = true ∧ P x) →
  ∀ st, flag (foldl f st l) = true ↔ flag st = true ∧ ∀ x, x ∈ l → P x.
Proof.
  induction l as [|x l IH]; intros Hf st; cbn [foldl].
  - split; [intros Hst; split; [done|]; by intros x ?%elem_of_nil|by intros [? _]].
  - rewrite IH by (intros st' x' Hx'; apply Hf; by right).
    rewrite (Hf st x) by (by left). split.
    + intros [[Hst Hx] Hl]. split; [done|].
      intros x' [-> | Hx']%elem_of_cons; auto.
    + intros [Hst Hl]. split; [split; [done|]|]; [apply Hl; by left|].
      intros x' Hx'. apply Hl. by right.
Qed.

Lemma foldl_ext_in (f g : S → A → S) (l : list A) :
  (∀ st x, x ∈ l → f st x = g st x) → ∀ st, foldl f st l = foldl g st l.
Proof.
  induction l as [|x l IH]; intros Hfg st; cbn [foldl]; [done|].
  rewrite (Hfg st x) by (by left). apply IH. intros st' x' Hx'. apply Hfg. by right.
Qed.

Lemma foldl_invariant (Q : S → Prop) (f : S → A → S) (l : list A) :
  (∀ st x, x ∈ l → Q st → Q (f st x)) → ∀ st, Q st → Q (foldl f st l).
Proof.
  induction l as [|x l IH]; intros Hf st Hst; cbn [foldl]; [done|].
  apply IH; [intros st' x' Hx'; apply Hf; by right|]. apply Hf; [by left|done].
Qed.

End Folds.

Lemma dims_lt dim : dim ∈ [0; 1; 2]%nat → (dim < 3)%nat.
Proof. rewrite !elem_of_cons, elem_of_nil. lia. Qed.

Lemma dims_in dim : (dim < 3)%nat → dim ∈ [0; 1; 2]%nat.
Proof. rewrite !elem_of_cons, elem_of_nil. lia. Qed.

(** The flag after all the loops. *)
Lemma recompute_flag_iff world :
  (recomputeWorldBlockProperties world).1 = true
  ↔ ∀ x y z, outer_cell (wx world) x y z → wopaque world x y z = true.
Proof.
  unfold recomputeWorldBlockProperties. set (ts := wx world).
  set (r := foldl _ _ _).
  assert (Hr : r.1.1 = true ↔
            true = true ∧
            ∀ dim, dim ∈ [0; 1; 2]%nat → ∀ u, u ∈ seqZ 0 ts → ∀ v, v ∈ seqZ 0 ts →
              opaque_cell world (axis_cell dim (u, v, 0)) = true ∧
              opaque_cell world (axis_cell dim (u, v, ts - 1)) = true).
  { subst r. apply (foldl_flag (λ st, st.1.1)). intros st dim Hdim.
    apply (foldl_flag (λ st, st.1.1)). intros st' u Hu.
    apply (foldl_flag (λ st, st.1.1)). intros st'' v Hv.
    apply elem_of_seqZ in Hu.
    rewrite recompute_cell_eq by lia. cbv zeta.
    destruct (opaque_cell world (axis_cell dim (u, v, ts - 1))); cbn [fst snd];
      rewrite !andb_true_iff; tauto. }
  destruct r as [[opaque color] colorCount]. cbn [fst snd] in *. rewrite Hr.
  split.
  - intros [_ Hall] x y z [(Hx & Hy & Hz) Hout].
    assert (Hin : ∀ a, 0 ≤ a < ts → a ∈ seqZ 0 ts) by (intros a Ha; apply elem_of_seqZ; lia).
    destruct Hout as [-> | [-> | [-> | [-> | [-> | ->]]]]].
    + apply (Hall 2%nat (dims_in 2 (le_n 3)) y (Hin y Hy) z (Hin z Hz)).
    + apply (Hall 2%nat (dims_in 2 (le_n 3)) y (Hin y Hy) z (Hin z Hz)).
    + apply (Hall 1%nat (dims_in 1 (le_S 2 2 (le_n 2))) z (Hin z Hz) x (Hin x Hx)).
    + apply (Hall 1%nat (dims_in 1 (le_S 2 2 (le_n 2))) z (Hin z Hz) x (Hin x Hx)).
    + apply (Hall 0%nat (dims_in 0 (le_S 1 2 (le_S 1 1 (le_n 1)))) x (Hin x Hx) y (Hin y Hy)).
    + apply (Hall 0%nat (dims_in 0 (le_S 1 2 (le_S 1 1 (le_n 1)))) x (Hin x Hx) y (Hin y Hy)).
  - intros Hall. split; [done|]. intros dim Hdim%dims_lt u Hu%elem_of_seqZ v Hv%elem_of_seqZ.
    split; apply Hall.
    + apply (axis_cell_outer ts dim u v 0); [done|lia|lia|by left].
    + apply (axis_cell_outer ts dim u v (ts - 1)); [done|lia|lia|by right].
Qed.

(** X12: the [opaque] flag that [recomputeWorldBlockProperties] computes
    is true exactly if every cell in the six outer layers of the world
    is opaque; the cells inside do not matter, and a world of side 0 is
    opaque. *)
Theorem recompute_opaque_iff world :
  (recomputeWorldBlockProperties world).1 = true
  ↔ ∀ x y z, outer_cell (wx world) x y z → wopaque world x y z = true.
Proof. apply recompute_flag_iff. Qed.

(** X13: the flag and the colour that [recomputeWorldBlockProperties]
    computes depend on the outer layers of the world only: the ray that
    looks for a coloured cell starts in the last layer and ends after
    one step, so two worlds of the same side that agree on their outer
    cells get the same flag and the same colour, whatever is inside. *)
Theorem recompute_outer_layers_only (w1 w2 : World num) :
  wx w1 = wx w2 →
  (∀ x y z, outer_cell (wx w1) x y z →
     wopaque w1 x y z = wopaque w2 x y z ∧ gt w1 x y z = gt w2 x y z) →
  recomputeWorldBlockProperties w1 = recomputeWorldBlockProperties w2.
Proof.
  intros Hwx Hagree. unfold recomputeWorldBlockProperties. rewrite <- Hwx.
  set (ts := wx w1) in *.
  assert (Hfold :
    foldl (λ st dim, foldl (λ st u, foldl (λ st v, recompute_cell w1 ts dim st u v)
                                      st (seqZ 0 ts)) st (seqZ 0 ts))
      (true, vec3_create, 0%nat) [0; 1; 2]%nat
    = foldl (λ st dim, foldl (λ st u, foldl (λ st v, recompute_cell w2 ts dim st u v)
                                        st (seqZ 0 ts)) st (seqZ 0 ts))
        (true, vec3_create, 0%nat) [0; 1; 2]%nat).
  { apply foldl_ext_in. intros st dim Hdim%dims_lt.
    apply foldl_ext_in. intros st' u Hu%elem_of_seqZ.
    apply foldl_ext_in. intros st'' v Hv%elem_of_seqZ.
    rewrite !recompute_cell_eq by lia. cbv zeta.
    assert (Hc0 : let c := axis_cell dim (u, v, 0) in outer_cell ts c.1.1 c.1.2 c.2).
    { apply axis_cell_outer; [done|lia|lia|by left]. }
    assert (Hc1 : let c := axis_cell dim (u, v, ts - 1) in outer_cell ts c.1.1 c.1.2 c.2).
    { apply axis_cell_outer; [done|lia|lia|by right]. }
    cbv zeta in Hc0, Hc1.
    destruct (Hagree _ _ _ Hc0) as [Ho0 _]. destruct (Hagree _ _ _ Hc1) as [Ho1 Hg1].
    unfold opaque_cell, gt_cell. by rewrite Ho0, Ho1, Hg1. }
  by rewrite Hfold.
Qed.

(** X14: a world none of whose cells in the three high layers is opaque
    gets no colour sample at all, so its colour is the zero vector
    scaled by [1 / 0]; its flag is false, unless its side is 0 or
    less. *)
Theorem recompute_no_sample world :
  (∀ x y z, high_cell (wx world) x y z → wopaque world x y z = false) →
  recomputeWorldBlockProperties world
  = (bool_decide (wx world ≤ 0), vec3_scale vec3_create (ndiv (of_Z 1) (of_Z 0))).
Proof.
  intros Hhigh. pose proof (recompute_flag_iff world) as Hflag. revert Hflag.
  unfold recomputeWorldBlockProperties. set (ts := wx world) in *.
  set (r := foldl _ _ _).
  assert (Hr : r.1.2 = vec3_create ∧ r.2 = 0%nat).
  { subst r.
    set (Q := λ st : bool * (num * num * num) * nat, st.1.2 = vec3_create ∧ st.2 = 0%nat).
    apply (foldl_invariant Q); [|done].
    intros st dim Hdim%dims_lt. apply (foldl_invariant Q). intros st' u Hu%elem_of_seqZ.
    apply (foldl_invariant Q). intros st'' v Hv%elem_of_seqZ Hst.
    rewrite recompute_cell_eq by lia. cbv zeta.
    assert (Hc : let c := axis_cell dim (u, v, ts - 1) in high_cell ts c.1.1 c.1.2 c.2).
    { apply axis_cell_high; [done|lia|lia]. }
    cbv zeta in Hc.
    assert (Hno : opaque_cell world (axis_cell dim (u, v, ts - 1)) = false)
      by apply (Hhigh _ _ _ Hc).
    by rewrite Hno. }
  destruct r as [[opaque color] colorCount]. cbn [fst snd] in *.
  destruct Hr as [-> ->]. intros Hflag. f_equal.
  case_bool_decide as Hts.
  - apply Hflag. intros x y z [? _]. lia.
  - destruct opaque; [|done]. destruct Hflag as [Hflag _].
    rewrite <- (Hhigh 0 0 (ts - 1)); [|unfold high_cell; lia].
    symmetry. apply Hflag; [done|]. unfold outer_cell. lia.
Qed.

End WorldBlockTheorems.

(** glMatrix's [vec3] on exact rationals. *)
#[export] Instance GLVec3_Q : GLVec3 Q := {|
  vec3_create := (0, 0, 0)%Q;
  vec3_add := λ a b,
    (Qred (Qplus a.1.1 b.1.1), Qred (Qplus a.1.2 b.1.2), Qred (Qplus a.2 b.2));
  vec3_scale := λ a k,
    (Qred (Qmult a.1.1 k), Qred (Qmult a.1.2 k), Qred (Qmult a.2 k))
|}.

(** Three by three by three opaque red cells, and the same with a hole
    in the middle. *)
Definition solid_cube : World Q := mkWorld 3 (λ _ _ _, red) (λ _ _ _, true).

Definition hollow_cube : World Q :=
  mkWorld 3
    (λ x y z, if (x =? 1) && (y =? 1) && (z =? 1) then BlockType_air else red)
    (λ x y z, negb ((x =? 1) && (y =? 1) && (z =? 1))).

Lemma recompute_outer_layers_only_witness :
  recomputeWorldBlockProperties solid_cube = recomputeWorldBlockProperties hollow_cube.
Proof.
  apply recompute_outer_layers_only; [reflexivity|].
  intros x y z [_ Hout]. cbn [wopaque gt solid_cube hollow_cube wx] in *.
  assert ((x =? 1) && (y =? 1) && (z =? 1) = false) as ->; [|done].
  destruct (Z.eqb_spec x 1), (Z.eqb_spec y 1), (Z.eqb_spec z 1); try done. lia.
Defined.

Lemma recompute_no_sample_witness :
  recomputeWorldBlockProperties air_world
  = (bool_decide (wx air_world ≤ 0), vec3_scale vec3_create (ndiv (of_Z 1) (of_Z 0))).
Proof. apply recompute_no_sample. intros x y z _. reflexivity. Defined.

(** ** BlockSet: block IDs *)

Section BlockSetTheorems.
Context {num : Type} `{JSNum num} `{CubeSymmetry num} `{GLVec3 num}.
Implicit Types (bs : BlockSet num) (l : list (BlockType num)).

Lemma types_foldl_add l : ∀ bs, types (foldl add bs l) = types bs ++ l.
Proof.
  induction l as [|t l IH]; intros bs; cbn [foldl]; [by rewrite app_nil_r|].
  rewrite IH. cbn [types add]. by rewrite <- app_assoc.
Qed.

Lemma types_new_BlockSet l : types (new_BlockSet l) = BlockType_air :: l.
Proof. unfold new_BlockSet. by rewrite types_foldl_add. Qed.

Lemma faces_foldl_add l : ∀ bs,
  length (rotatedBlockFaceData (foldl add bs l))
  = (length (rotatedBlockFaceData bs) + length l)%nat ∧
  rotatedBlockFaceData (foldl add bs l) !! 0%nat
  = (rotatedBlockFaceData bs ++ replicate (length l) []) !! 0%nat.
Proof.
  induction l as [|t l IH]; intros bs; cbn [foldl length replicate].
  - by rewrite app_nil_r, Nat.add_0_r.
  - destruct (IH (add bs t)) as [-> ->]. cbn [rotatedBlockFaceData add].
    rewrite length_app, <- app_assoc. cbn [length app]. split; [lia|done].
Qed.

Lemma elem_of_enqueue (q : list nat) (x id : nat) : id ∈ enqueue q x ↔ id ∈ q ∨ id = x.
Proof.
  unfold enqueue. case_bool_decide as Hx.
  - split; [by left|]. by intros [? | ->].
  - rewrite elem_of_app, list_elem_of_singleton. done.
Qed.

Lemma queue_foldl_add l : ∀ bs id,
  id ∈ typesToRerender (foldl add bs l)
  ↔ id ∈ typesToRerender bs ∨ (length (types bs) ≤ id < length (types bs) + length l)%nat.
Proof.
  induction l as [|t l IH]; intros bs id; cbn [foldl length].
  - split; [by left|]. intros [? | ?]; [done|lia].
  - rewrite IH. cbn [typesToRerender types add].
    rewrite elem_of_enqueue, length_app. cbn [length]. split.
    + intros [[? | ->] | ?]; [by left|right; lia|right; lia].
    + intros [? | Hid]; [by left; left|].
      destruct (decide (id = length (types bs))) as [->|]; [by left; right|right; lia].
Qed.

(** X15: [new BlockSet(initialTypes)] gives the types the IDs 1, 2, ...
    in their order, after the empty block at ID 0; the table of face data
    has one entry for each ID, the one of ID 0 being the empty render
    data; and exactly the IDs of the given types are queued for
    rendering. *)
Theorem new_BlockSet_ids l :
  let bs := new_BlockSet l in
  types bs = BlockType_air :: l ∧
  length (rotatedBlockFaceData bs) = length (types bs) ∧
  rotatedBlockFaceData bs !! 0%nat = Some EMPTY_BLOCKRENDER ∧
  ∀ id, id ∈ typesToRerender bs ↔ (1 ≤ id ≤ length l)%nat.
Proof.
  cbv zeta. split; [apply types_new_BlockSet|]. rewrite types_new_BlockSet.
  unfold new_BlockSet. split; [|split].
  - rewrite (proj1 (faces_foldl_add l _)). done.
  - rewrite (proj2 (faces_foldl_add l _)). done.
  - intros id. rewrite queue_foldl_add. cbn [typesToRerender types length].
    rewrite elem_of_nil. lia.
Qed.

(** X16: [get] always returns a block type.  For an ID of the set it is
    the type with that ID; for any other number, negative ones
    included, it is the type with ID 1 if the set has one and the empty
    block otherwise.  [worldFor] has no such fallback: for a number that
    is not an ID of the set it returns null. *)
Theorem get_total l (blockID : Z) :
  let bs := new_BlockSet l in
  (0 ≤ blockID < bs_length bs → get bs blockID = types bs !! Z.to_nat blockID) ∧
  (¬ 0 ≤ blockID < bs_length bs →
     get bs blockID = Some (default BlockType_air (l !! 0%nat)) ∧
     worldFor bs blockID = None) ∧
  is_Some (get bs blockID).
Proof.
  cbv zeta. unfold get, worldFor, types_at, bs_length, ID_BOGUS, ID_EMPTY.
  rewrite types_new_BlockSet. cbn [length].
  destruct (Z.ltb_spec blockID 0) as [Hneg|Hpos].
  - split; [lia|]. cbn. split; [|by destruct l]. intros _. by destruct l.
  - destruct ((BlockType_air :: l) !! Z.to_nat blockID) as [t|] eqn:Ht.
    + split; [done|]. split; [|done]. intros Hout. apply lookup_lt_Some in Ht.
      cbn [length] in Ht. lia.
    + split; [|split; [|by destruct l]].
      * intros Hin. apply lookup_ge_None in Ht. cbn [length] in Ht. lia.
      * intros _. by destruct l.
Qed.

(** X17: [getAll] returns an array of [ID_LIMIT] = 256 entries, or of as
    many as the set has types if these are more, and its entry at every
    index is what [get] returns for that index. *)
Theorem getAll_get bs :
  length (getAll bs) = Z.to_nat (Z.max ID_LIMIT (bs_length bs)) ∧
  ∀ i, (i < length (getAll bs))%nat → getAll bs !! i = Some (get bs (Z.of_nat i)).
Proof.
  unfold getAll, get, types_at, bs_length, ID_LIMIT.
  rewrite length_app, length_replicate, length_fmap. split; [lia|].
  intros i Hi. rewrite (proj2 (Z.ltb_ge (Z.of_nat i) 0)) by lia. rewrite Nat2Z.id.
  destruct (types bs !! i) as [t|] eqn:Ht.
  - rewrite lookup_app_l by (rewrite length_fmap; by eapply lookup_lt_Some).
    by rewrite list_lookup_fmap, Ht.
  - apply lookup_ge_None in Ht.
    rewrite lookup_app_r by (by rewrite length_fmap).
    rewrite lookup_replicate_2 by (rewrite length_fmap; lia). done.
Qed.

(** X18: a block set written by [serialize] and read back by
    [BlockSet.unserialize] is the block set that [new BlockSet] builds
    from the same types, with the same IDs and the same tile size, when
    the callbacks for the block types undo each other. *)
Theorem serialize_round_trip {J : Type} (colors : BlockSet num)
    (unserialize_world : J → World num)
    (serialize_type : BlockType num → J) (unserialize_type : J → BlockType num)
    (l1 l2 : list (BlockType num)) :
  (∀ t, t ∈ l1 ++ l2 → unserialize_type (serialize_type t) = t) →
  let bs := foldl add (new_BlockSet l1) l2 in
  BlockSet_unserialize colors unserialize_world unserialize_type
    (BlockSet_serialize serialize_type bs)
  = Some bs.
Proof.
  intros Hround bs.
  assert (Hbs : bs = new_BlockSet (l1 ++ l2)).
  { subst bs. unfold new_BlockSet. by rewrite foldl_app. }
  rewrite Hbs. unfold BlockSet_unserialize, BlockSet_serialize.
  cbn [json_type json_types]. rewrite types_new_BlockSet. cbn [drop].
  rewrite !bool_decide_eq_false_2 by done. rewrite bool_decide_eq_true_2 by done.
  do 2 f_equal. rewrite <- list_fmap_compose.
  rewrite <- (list_fmap_id (l1 ++ l2)) at 2.
  apply list_fmap_ext. intros i t Ht. apply Hround. by eapply list_elem_of_lookup_2.
Qed.

End BlockSetTheorems.

Lemma serialize_round_trip_witness :
  let bs := foldl add (new_BlockSet [red]) [BlockType_World air_world false (0, 0, 0)%Q] in
  BlockSet_unserialize (new_BlockSet []) (λ _ : BlockType Q, air_world) id
    (BlockSet_serialize id bs)
  = Some bs.
Proof.
  apply (serialize_round_trip (new_BlockSet []) (λ _ : BlockType Q, air_world) id id).
  intros t _. reflexivity.
Defined.

(** ** Block types: reading back what was written *)

Section BlockTypeRoundTrip.
Context {num : Type} `{JSNum num} `{GLVec3 num}.
Context {J Behavior : Type}.
Context (behavior_name : Behavior → string).
Context (behaviors : gmap string Behavior).



End BlockTypeRoundTrip.



(** ** The tokens of different blocks *)

(** A string without a comma. *)
Fixpoint no_comma (s : string) : bool :=
  match s with
  | EmptyString => true
  | String a s => negb (Ascii.eqb a (Ascii.ascii_of_nat 44)) && no_comma s
  end.

Lemma pretty_N_go_no_comma (x : N) : ∀ s,
  no_comma s = true → no_comma (pretty_N_go x s) = true.
Proof.
  induction (N.lt_wf_0 x) as [x _ IH]; intros s Hs.
  assert (x = 0 ∨ 0 < x)%N as [-> | Hx] by lia.
  - by rewrite pretty_N_go_0.
  - rewrite pretty_N_go_step by done. apply IH; [by apply N.div_lt|].
    cbn [no_comma]. rewrite Hs. unfold pretty_N_char. by repeat case_match.
Qed.

Lemma pretty_nat_no_comma (n : nat) : no_comma (pretty n) = true.
Proof.
  unfold pretty, pretty_nat, pretty, pretty_N. case_decide; [done|].
  by apply pretty_N_go_no_comma.
Qed.

Lemma app_String (c : Ascii.ascii) (a r : string) : String c a +:+ r = String c (a +:+ r).
Proof. reflexivity. Qed.

Lemma app_Empty (r : string) : EmptyString +:+ r = r.
Proof. reflexivity. Qed.

Lemma no_comma_app_comma (a r : string) : no_comma (a +:+ "," +:+ r) = false.
Proof.
  induction a as [|c a IH]; rewrite ?app_Empty, ?app_String in *; cbn [no_comma] in *;
    [done|].
  rewrite IH. apply andb_false_r.
Qed.

(** The part of a string before its first comma. *)
Lemma split_at_comma (a b r r' : string) :
  no_comma a = true → no_comma b = true →
  a +:+ "," +:+ r = b +:+ "," +:+ r' → a = b ∧ r = r'.
Proof.
  revert b. induction a as [|c a IH]; intros [|d b] Ha Hb Heq;
    repeat (rewrite app_Empty in Heq || rewrite app_String in Heq); cbn [no_comma] in *.
  - by injection Heq as ->.
  - injection Heq as <- _. cbn in Hb. discriminate Hb.
  - injection Heq as -> _. cbn in Ha. discriminate Ha.
  - injection Heq as -> Heq.
    apply andb_true_iff in Ha as [_ Ha]. apply andb_true_iff in Hb as [_ Hb].
    destruct (IH b Ha Hb) as [-> ->]; [|done].
    by repeat (rewrite app_Empty || rewrite app_String).
Qed.

Lemma colorUsage_inj (id id' : nat) : colorUsage id = colorUsage id' → id = id'.
Proof. unfold colorUsage. apply (inj pretty). Qed.

Lemma colorUsage_sliceUsage (id id' : nat) (dimName : string) (layer : Z) :
  colorUsage id ≠ sliceUsage id' dimName layer.
Proof.
  unfold colorUsage, sliceUsage. intros Heq.
  pose proof (pretty_nat_no_comma id) as Hid. rewrite Heq in Hid.
  by rewrite no_comma_app_comma in Hid.
Qed.

Lemma sliceUsage_block (id id' : nat) (dimName dimName' : string) (layer layer' : Z) :
  sliceUsage id dimName layer = sliceUsage id' dimName' layer' → id = id'.
Proof.
  unfold sliceUsage. intros Heq.
  apply split_at_comma in Heq as [Heq _]; [|apply pretty_nat_no_comma..].
  by apply (inj pretty) in Heq.
Qed.

(** ** A pass over all the blocks *)

Section RebuildPass.
Context {num : Type} `{JSNum num} `{CubeSymmetry num}.
Implicit Types (s : Texgen num) (bs : BlockSet num).

(** What a run of [rebuildOne] for a block has to leave in the atlas: for
    a colour block its token, registered at a tile filled with the
    colour; for a world block the tokens of its visible layers,
    registered at tiles that hold the pixels of the layers, and no token
    for a layer that is not visible. *)
Definition block_done s (blockID : nat) (blockType : BlockType num) : Prop :=
  match blockType with
  | BlockType_Color color =>
      ∃ c, usageMap s !! colorUsage blockID = Some c ∧
           tile_holds s c (λ _ _ k, byte_at (writeColor (BlockType_Color color) (of_Z 255)) k)
  | BlockType_World world opaque _ =>
      ∀ m layer, m ∈ TILE_MAPPINGS → layer ∈ sliced_layers opaque (tileSize s) →
        let fl := layer_flags (tileSize s) world m.2 layer in
        let t := sliceUsage blockID m.1 layer in
        (fl.1 || fl.2 = true →
           ∃ c, usageMap s !! t = Some c ∧ tile_holds s c (pixel_byte world m.2 layer)) ∧
        (fl.1 || fl.2 = false → usageMap s !! t = None)
  end.

Lemma rebuildOne_run s (blockID : nat) (blockType : BlockType num) :
  atlas_ok s →
  let r := rebuildOne s blockID blockType in
  textureLost r.1 = false → atlas_ok r.1 ∧ same_surface s r.1.
Proof.
  intros Hok r Hlost.
  assert (Hwb : atlas_wf r.1 ∧ bijection r.1).
  { apply (rebuildOne_closed _ wf_bijection_closed). by destruct Hok. }
  split; [by destruct Hwb|].
  subst r. unfold rebuildOne in *. destruct blockType as [color|world opaque col].
  - pose proof (color_run s blockID color Hok) as Hrun. cbv zeta in Hrun.
    destruct (rebuild_faces s blockID (BlockType_Color color)) as [s1 f1].
    cbn [fst] in *. by destruct (Hrun Hlost) as (c & _ & _ & _ & Hss & _).
  - pose proof (world_run_surface (rebuild_locals s) blockID world opaque s Hok eq_refl)
      as Hss. cbv zeta in Hss. unfold rebuild_faces in *.
    destruct (foldl (world_faces (rebuild_locals s) blockID world opaque) (s, ∅)
                TILE_MAPPINGS) as [s1 f1].
    cbn [fst] in *. by apply Hss.
Qed.

Lemma rebuildOne_done s (blockID : nat) (blockType : BlockType num) :
  atlas_ok s →
  let r := rebuildOne s blockID blockType in
  textureLost r.1 = false → block_done r.1 blockID blockType.
Proof.
  intros Hok r Hlost. subst r.
  destruct (rebuildOne_run s blockID blockType Hok Hlost) as [_ Hss].
  destruct Hok as [Hwf Hbij Hvalid].
  destruct blockType as [color|world opaque col]; cbn [block_done].
  - destruct (color_tile_run s blockID color Hwf Hbij Hvalid Hlost) as (c & Hc & _ & Hh & _).
    by exists c.
  - intros m layer Hm Hlayer. rewrite (ss_tileSize _ _ Hss) in *.
    by apply (world_tiles_run s blockID world opaque col m layer).
Qed.

(** The tokens of a block are not tokens of a block with another ID. *)
Lemma block_token_other (id id' : nat) (bt bt' : BlockType num) (ts ts' : Z) t :
  id ≠ id' → block_token id bt ts t → ¬ block_token id' bt' ts' t.
Proof.
  intros Hne Ht Ht'. apply Hne.
  destruct bt as [c|w o c], bt' as [c'|w' o' c']; cbn [block_token] in *.
  - apply colorUsage_inj. congruence.
  - destruct Ht' as (m & layer & _ & _ & Heq). exfalso.
    apply (colorUsage_sliceUsage id id' m.1 layer). congruence.
  - destruct Ht as (m & layer & _ & _ & Heq). exfalso.
    apply (colorUsage_sliceUsage id' id m.1 layer). congruence.
  - destruct Ht as (m & layer & _ & _ & Heq). destruct Ht' as (m' & layer' & _ & _ & Heq').
    apply (sliceUsage_block id id' m.1 m'.1 layer layer'). congruence.
Qed.

Lemma block_done_frame s (id id' : nat) (bt bt' : BlockType num) :
  atlas_ok s → block_done s id bt → id ≠ id' →
  let r := rebuildOne s id' bt' in
  textureLost r.1 = false → block_done r.1 id bt.
Proof.
  intros Hok Hdone Hne r Hlost. subst r.
  destruct (rebuildOne_run s id' bt' Hok Hlost) as [_ Hss].
  assert (Hframe : ∀ t, block_token id bt (tileSize s) t →
            usageMap (rebuildOne s id' bt').1 !! t = usageMap s !! t ∧
            ∀ c, usageMap s !! t = Some c → tile_same s (rebuildOne s id' bt').1 c).
  { intros t Ht. destruct Hok as [Hwf Hbij Hvalid].
    apply (frame_run s id' bt' t); try done.
    by apply (block_token_other id id' bt bt' (tileSize s)). }
  destruct bt as [color|world opaque col]; cbn [block_done block_token] in *.
  - destruct Hdone as (c & Hc & Hh). destruct (Hframe _ eq_refl) as [Hmap Hsame].
    exists c. split; [by rewrite Hmap|].
    apply (tile_holds_same s (rebuildOne s id' bt').1); auto.
  - intros m layer Hm Hlayer. rewrite (ss_tileSize _ _ Hss) in *.
    destruct (Hdone m layer Hm Hlayer) as [Hvis Hinv].
    destruct (Hframe (sliceUsage id m.1 layer)) as [Hmap Hsame]; [by exists m, layer|].
    split.
    + intros Hfl. destruct (Hvis Hfl) as (c & Hc & Hh). exists c.
      split; [by rewrite Hmap|]. apply (tile_holds_same s (rebuildOne s id' bt').1); auto.
    + intros Hfl. rewrite Hmap. by apply Hinv.
Qed.

Lemma BlockSet_rebuildOne_Some bs s (id : nat) bs' s' :
  BlockSet_rebuildOne (bs, s) id = Some (bs', s') →
  ∃ bt, types bs !! id = Some bt ∧ s' = (rebuildOne s id bt).1 ∧
        types bs' = types bs ∧
        length (rotatedBlockFaceData bs') = length (rotatedBlockFaceData bs).
Proof.
  unfold BlockSet_rebuildOne. destruct (types bs !! id) as [bt|]; [|done].
  destruct (rebuildOne s id bt) as [s1 tables] eqn:Hr.
  assert (Hs1 : s1 = (rebuildOne s id bt).1) by (by rewrite Hr).
  clear Hr. destruct (rotatedBlockFaceData bs !! id) as [e|].
  - intros [= <- <-]. exists bt. cbn [types rotatedBlockFaceData].
    by rewrite length_insert.
  - destruct (COUNT =? 0)%nat; [|done]. intros [= <- <-]. by exists bt.
Qed.

Lemma rebuild_ids_lost ids bs s :
  textureLost s = true → rebuild_ids ids (bs, s) = Some (bs, s).
Proof. intros Hl. destruct ids; cbn [rebuild_ids snd]; [done|]. by rewrite Hl. Qed.

Lemma rebuild_ids_done ids : ∀ bs s bs' s',
  NoDup ids → atlas_ok s →
  rebuild_ids ids (bs, s) = Some (bs', s') → textureLost s' = false →
  atlas_ok s' ∧ types bs' = types bs ∧
  (∀ id bt, id ∉ ids → block_done s id bt → block_done s' id bt) ∧
  (∀ id bt, id ∈ ids → types bs !! id = Some bt → block_done s' id bt).
Proof.
  induction ids as [|id ids IH]; intros bs s bs' s' Hnd Hok Hrun Hlost;
    cbn [rebuild_ids snd] in Hrun.
  - injection Hrun as <- <-. split; [done|]. split; [done|]. split; [done|].
    by intros id bt ?%elem_of_nil.
  - rewrite (ok_valid s Hok) in Hrun.
    destruct (BlockSet_rebuildOne (bs, s) id) as [[bs1 s1]|] eqn:Hone; [|done].
    apply BlockSet_rebuildOne_Some in Hone as (bt & Hbt & -> & Htypes & _).
    apply NoDup_cons in Hnd as [Hid Hnd].
    assert (Hlost1 : textureLost (rebuildOne s id bt).1 = false).
    { destruct (textureLost (rebuildOne s id bt).1) eqn:Hl; [|done].
      rewrite rebuild_ids_lost in Hrun by done. injection Hrun as _ <-. congruence. }
    destruct (rebuildOne_run s id bt Hok Hlost1) as [Hok1 _].
    destruct (IH bs1 _ bs' s' Hnd Hok1 Hrun Hlost) as (Hok' & Htypes' & Hframe & Hdone).
    split; [done|]. split; [congruence|]. split.
    + intros id0 bt0 Hid0 Hd0. apply not_elem_of_cons in Hid0 as [Hne Hid0].
      apply Hframe; [done|]. by apply block_done_frame.
    + intros id0 bt0 [-> | Hid0]%elem_of_cons Hbt0.
      * assert (bt0 = bt) as -> by congruence.
        apply Hframe; [done|]. by apply rebuildOne_done.
      * apply Hdone; [done|]. by rewrite Htypes.
Qed.

Lemma rebuild_ids_total ids : ∀ bs s,
  (∀ id, id ∈ ids → (id < length (types bs))%nat) →
  length (rotatedBlockFaceData bs) = length (types bs) →
  ∃ bs' s', rebuild_ids ids (bs, s) = Some (bs', s') ∧
            types bs' = types bs ∧
            length (rotatedBlockFaceData bs') = length (types bs') ∧
            (atlas_wf s → bijection s → atlas_wf s' ∧ bijection s').
Proof.
  induction ids as [|id ids IH]; intros bs s Hids Hlen; cbn [rebuild_ids snd].
  - by exists bs, s.
  - destruct (textureLost s); [by exists bs, s|].
    assert (Hid : (id < length (types bs))%nat) by (apply Hids; left).
    destruct (lookup_lt_is_Some_2 (types bs) id Hid) as [bt Hbt].
    destruct (lookup_lt_is_Some_2 (rotatedBlockFaceData bs) id) as [e He]; [lia|].
    unfold BlockSet_rebuildOne. rewrite Hbt, He.
    pose proof (rebuildOne_closed _ wf_bijection_closed s id bt) as Hinv.
    destruct (rebuildOne s id bt) as [s1 tables]. cbn [fst] in Hinv.
    match goal with
    | |- context [rebuild_ids ids (?b, s1)] =>
        destruct (IH b s1) as (bs' & s' & -> & Htypes' & Hlen' & Hinv')
    end.
    + cbn [types]. intros id' Hid'. apply Hids. by right.
    + cbn [types rotatedBlockFaceData]. by rewrite length_insert.
    + exists bs', s'. split; [done|]. split; [done|]. split; [done|].
      intros Hwf Hbij. apply Hinv'; by apply Hinv.
Qed.

(** X20: one pass of the loop of [freshenTexture] over a block set whose
    table of face data has an entry for every type, on a well-formed
    atlas: the pass ends without an exception and keeps the types and
    the invariants of the atlas; and if it ends with [textureLost] still
    clear, then the atlas is complete for all the blocks at once: every
    block with an ID from 1 on has its tokens registered and its tiles
    filled, the blocks rebuilt later in the pass having left those of
    the earlier ones as they were. *)
Theorem rebuild_pass_complete bs s :
  length (rotatedBlockFaceData bs) = length (types bs) →
  atlas_wf s → bijection s →
  ∃ bs' s',
    rebuild_pass (bs, s) = Some (bs', s') ∧
    types bs' = types bs ∧
    length (rotatedBlockFaceData bs') = length (types bs') ∧
    atlas_wf s' ∧ bijection s' ∧
    (textureLost s' = false →
     ∀ id bt, (1 ≤ id)%nat → types bs !! id = Some bt → block_done s' id bt).
Proof.
  intros Hlen Hwf Hbij. unfold rebuild_pass.
  set (s0 := set_textureLost s false).
  assert (Hok0 : atlas_ok s0).
  { split; [by apply acknowledge_wf| |done].
    destruct Hbij. by split. }
  destruct (rebuild_ids_total (seq 1 (length (types bs) - 1)) bs s0)
    as (bs' & s' & Hrun & Htypes & Hlen' & Hinv); [|done|].
  { intros id Hid%elem_of_seq. lia. }
  exists bs', s'. split; [done|].
  destruct (Hinv (ok_wf _ Hok0) (ok_bijection _ Hok0)) as [Hwf' Hbij'].
  split; [done|]. split; [done|]. split; [done|]. split; [done|].
  intros Hlost id bt Hid Hbt.
  destruct (rebuild_ids_done _ bs s0 bs' s' (NoDup_seq _ _) Hok0 Hrun Hlost)
    as (_ & _ & _ & Hdone).
  apply Hdone; [|done]. apply elem_of_seq.
  apply lookup_lt_Some in Hbt. lia.
Qed.

End RebuildPass.

Lemma rebuild_pass_complete_witness :
  let bs := new_BlockSet [red; veiled] in
  let s := new_Texgen 2 in
  ∃ bs' s',
    rebuild_pass (bs, s) = Some (bs', s') ∧
    types bs' = types bs ∧
    length (rotatedBlockFaceData bs') = length (types bs') ∧
    atlas_wf s' ∧ bijection s' ∧
    (textureLost s' = false →
     ∀ id bt, (1 ≤ id)%nat → types bs !! id = Some bt → block_done s' id bt).
Proof.
  apply (rebuild_pass_complete (new_BlockSet [red; veiled]) (new_Texgen 2)).
  - reflexivity.
  - apply (reachable_wf 2); [lia|]. apply reach_new.
  - apply (reachable_bijection 2); [lia|]. apply reach_new.
Defined.

(** ** What makes a layer visible *)

Section SliceVisibility.
Context {num : Type} `{JSNum num}.

(** Some cell of the layer stores a pixel with a nonzero alpha byte and
    its neighbour in the direction [view] is not opaque. *)
Definition layer_visible (tileSize : Z) (world : World num) (transform : mat4) (layer : Z)
    (view : Z * Z * Z) : Prop :=
  ∃ u v, 0 ≤ u < tileSize ∧ 0 ≤ v < tileSize ∧
    let c := multiplyVec3Z transform (u, v, layer) in
    0 < written_alpha world c.1.1 c.1.2 c.2 ∧
    wopaque world (c.1.1 + view.1.1) (c.1.2 + view.1.2) (c.2 + view.2) = false.

Lemma foldl_any {S A : Type} (flag : S → bool) (f : S → A → S) (P : A → Prop) (l : list A) :
  (∀ st x, x ∈ l → flag (f st x) = true ↔ flag st = true ∨ P x) →
  ∀ st, flag (foldl f st l) = true ↔ flag st = true ∨ ∃ x, x ∈ l ∧ P x.
Proof.
  induction l as [|x l IH]; intros Hf st; cbn [foldl].
  - split; [by left|]. intros [? | (x & ?%elem_of_nil & _)]; done.
  - rewrite IH by (intros st' x' Hx'; apply Hf; by right).
    rewrite (Hf st x) by (by left). split.
    + intros [[? | Hx] | (x' & Hx' & HP)]; [by left|right..].
      * exists x. split; [by left|done].
      * exists x'. split; [by right|done].
    + intros [? | (x' & [-> | Hx']%elem_of_cons & HP)]; [by left; left|by left; right|].
      right. by exists x'.
Qed.

Lemma flag_pixel_iff (world : World num) transform layer viewL viewH fl u v :
  let c := multiplyVec3Z transform (u, v, layer) in
  let r := flag_pixel world transform layer viewL viewH fl u v in
  (r.1 = true ↔ fl.1 = true ∨
     (0 < written_alpha world c.1.1 c.1.2 c.2 ∧
      wopaque world (c.1.1 + viewL.1.1) (c.1.2 + viewL.1.2) (c.2 + viewL.2) = false)) ∧
  (r.2 = true ↔ fl.2 = true ∨
     (0 < written_alpha world c.1.1 c.1.2 c.2 ∧
      wopaque world (c.1.1 + viewH.1.1) (c.1.2 + viewH.1.2) (c.2 + viewH.2) = false)).
Proof.
  cbv zeta. unfold flag_pixel.
  destruct (multiplyVec3Z transform (u, v, layer)) as [[x y] z]. cbn [fst snd].
  destruct (Z.ltb_spec 0 (written_alpha world x y z)) as [Hpos|Hneg].
  - split.
    + destruct (wopaque world (x + viewL.1.1) (y + viewL.1.2) (z + viewL.2));
        cbn [negb fst]; intuition (try done).
    + destruct (wopaque world (x + viewH.1.1) (y + viewH.1.2) (z + viewH.2));
        cbn [negb snd]; intuition (try done).
  - split; (split; [by left|]); (intros [? | [? _]]; [done|lia]).
Qed.

Lemma layer_flags_iff tileSize (world : World num) transform layer :
  let fl := layer_flags tileSize world transform layer in
  (fl.1 = true ↔
     layer_visible tileSize world transform layer (multiplyVec3Z transform (0, 0, -1))) ∧
  (fl.2 = true ↔
     layer_visible tileSize world transform layer (multiplyVec3Z transform (0, 0, 1))).
Proof.
  cbv zeta. unfold layer_flags, layer_visible.
  set (viewL := multiplyVec3Z transform (0, 0, -1)).
  set (viewH := multiplyVec3Z transform (0, 0, 1)).
  split.
  - rewrite (foldl_any fst _
               (λ u, ∃ v, v ∈ seqZ 0 tileSize ∧
                  let c := multiplyVec3Z transform (u, v, layer) in
                  0 < written_alpha world c.1.1 c.1.2 c.2 ∧
                  wopaque world (c.1.1 + viewL.1.1) (c.1.2 + viewL.1.2) (c.2 + viewL.2)
                  = false)).
    + cbn [fst]. split.
      * intros [? | (u & Hu%elem_of_seqZ & v & Hv%elem_of_seqZ & Hc)]; [done|].
        exists u, v. split; [lia|]. split; [lia|done].
      * intros (u & v & Hu & Hv & Hc). right. exists u.
        split; [apply elem_of_seqZ; lia|]. exists v. split; [apply elem_of_seqZ; lia|done].
    + intros st u _. apply (foldl_any fst). intros st' v _.
      apply (flag_pixel_iff world transform layer viewL viewH st' u v).
  - rewrite (foldl_any snd _
               (λ u, ∃ v, v ∈ seqZ 0 tileSize ∧
                  let c := multiplyVec3Z transform (u, v, layer) in
                  0 < written_alpha world c.1.1 c.1.2 c.2 ∧
                  wopaque world (c.1.1 + viewH.1.1) (c.1.2 + viewH.1.2) (c.2 + viewH.2)
                  = false)).
    + cbn [snd]. split.
      * intros [? | (u & Hu%elem_of_seqZ & v & Hv%elem_of_seqZ & Hc)]; [done|].
        exists u, v. split; [lia|]. split; [lia|done].
      * intros (u & v & Hu & Hv & Hc). right. exists u.
        split; [apply elem_of_seqZ; lia|]. exists v. split; [apply elem_of_seqZ; lia|done].
    + intros st u _. apply (foldl_any snd). intros st' v _.
      apply (flag_pixel_iff world transform layer viewL viewH st' u v).
Qed.

(** X21: the two flags that the pixel loops of [sliceWorld] compute for a
    layer, when its tile is a cell of a well-formed atlas.  The layer
    counts as not empty on the low side exactly if one of its cells
    stores a pixel whose alpha byte is not 0 and the cell one step
    down along the axis is not opaque; on the high side likewise with
    the cell one step up. *)
Theorem slice_flags_meaning (s : Texgen num) (world : World num) (transform : mat4)
    (layer : Z) (c : nat) :
  atlas_wf s → bijection s → textureLost s = false →
  (c < length (tileAllocMap s))%nat →
  let coord := cell_coords (borderTileSize s) (tileCountSqrt s) c in
  let px := slice_pixels (rebuild_locals s) world transform layer coord.1 coord.2 s in
  (px.1.2 = true ↔
     layer_visible (tileSize s) world transform layer (multiplyVec3Z transform (0, 0, -1))) ∧
  (px.2 = true ↔
     layer_visible (tileSize s) world transform layer (multiplyVec3Z transform (0, 0, 1))).
Proof.
  intros Hwf Hbij Hvalid Hc. cbv zeta.
  destruct (slice_pixels_run (rebuild_locals s) world transform layer s c)
    as (_ & _ & Hfl & _); [by split|done|done|].
  cbv zeta in Hfl.
  pose proof (layer_flags_iff (tileSize s) world transform layer) as Hiff. cbv zeta in Hiff.
  cbn [l_tileSize rebuild_locals] in Hfl. rewrite <- Hfl in Hiff. exact Hiff.
Qed.

End SliceVisibility.

Lemma slice_flags_meaning_witness :
  let s := fresh_atlas 2 in
  let transform := [1; 0; 0; 0; 0; 1; 0; 0; 0; 0; 1; 0; 0; 0; 0; 1] in
  let coord := cell_coords (borderTileSize s) (tileCountSqrt s) 0 in
  let px := slice_pixels (rebuild_locals s) veiled_world transform 1 coord.1 coord.2 s in
  (px.1.2 = true ↔
     layer_visible (tileSize s) veiled_world transform 1 (multiplyVec3Z transform (0, 0, -1))) ∧
  (px.2 = true ↔
     layer_visible (tileSize s) veiled_world transform 1 (multiplyVec3Z transform (0, 0, 1))).
Proof.
  apply (slice_flags_meaning (fresh_atlas 2) veiled_world
           [1; 0; 0; 0; 0; 1; 0; 0; 0; 0; 1; 0; 0; 0; 0; 1] 1 0).
  - apply fresh_atlas_wf. lia.
  - apply fresh_atlas_bijection. lia.
  - reflexivity.
  - vm_compute. lia.
Defined.

(** ** Growth *)

Section Growth.
Context {num : Type} `{JSNum num} `{CubeSymmetry num}.
Implicit Types (s : Texgen num) (t : string).

(** The atlas [s'] is what a growth of [s0], followed by stores of
    pixels only, leaves: the surface of doubled side and an empty
    allocator. *)
Definition regrown s0 s' : Prop :=
  textureSize s' = 2 * textureSize s0 ∧
  tileCountSqrt s' = textureSize s' / (tileSize s0 + 2) ∧
  tileAllocMap s' = replicate (Z.to_nat (tileCountSqrt s' * tileCountSqrt s')) 0 ∧
  freePointer s' = 0%nat ∧
  usageMap s' = ∅.

Definition grown_once s0 s' : Prop :=
  tileSize s' = tileSize s0 ∧
  (if textureLost s' then regrown s0 s' else textureSize s' = textureSize s0).

Lemma grown_once_set_images s0 s' l : grown_once s0 s' → grown_once s0 (set_images s' l).
Proof. done. Qed.

Lemma grown_once_closed s0 : atlas_closed (grown_once s0).
Proof.
  assert (Halloc : ∀ s t, grown_once s0 s → grown_once s0 (fst (allocationFor s t))).
  { intros s t Hs. destruct (textureLost s) eqn:Hl.
    - by rewrite allocationFor_lost.
    - destruct (allocationFor_size s t) as [(H1 & H2 & _ & _ & H5) | ->].
      + destruct Hs as [Hts Hsz]. rewrite Hl in Hsz. split; [congruence|].
        rewrite H5, Hl. congruence.
      + destruct Hs as [Hts Hsz]. rewrite Hl in Hsz.
        split; [done|]. cbn [textureLost enlargeTexture]. unfold regrown.
        cbn [textureSize tileCountSqrt tileAllocMap freePointer usageMap enlargeTexture].
        unfold borderTileSize. rewrite Hts, Hsz. repeat split; try done. lia. }
  split.
  - exact Halloc.
  - intros s t [Hts Hsz]. unfold deallocateUsage. destruct (textureLost s) eqn:Hl.
    + split; [done|]. by rewrite Hl.
    + destruct (usageMap s !! t); (split; [done|]); cbn; by rewrite Hl.
  - intros s t Hs. rewrite completed_eq. apply grown_once_set_images. by apply Halloc.
  - intros s r i v Hs. by apply grown_once_set_images.
Qed.

(** X22: a run of [rebuildOne] enlarges the texture at most once.  If
    the run ends with [textureLost] clear, the surface has the side it
    had; if it ends with the flag set, the side has doubled exactly once
    and the allocator is empty: no token registered, every cell free,
    the cursor at 0, the grid recomputed for the new side. *)
Theorem rebuildOne_grows_once s (blockID : nat) (blockType : BlockType num) :
  textureLost s = false →
  let r := rebuildOne s blockID blockType in
  tileSize r.1 = tileSize s ∧
  (textureLost r.1 = false → textureSize r.1 = textureSize s) ∧
  (textureLost r.1 = true →
     textureSize r.1 = 2 * textureSize s ∧
     tileCountSqrt r.1 = textureSize r.1 / (tileSize s + 2) ∧
     tileAllocMap r.1 = replicate (Z.to_nat (tileCountSqrt r.1 * tileCountSqrt r.1)) 0 ∧
     freePointer r.1 = 0%nat ∧
     usageMap r.1 = ∅).
Proof.
  intros Hlost r.
  destruct (rebuildOne_closed _ (grown_once_closed s) s blockID blockType) as [Hts Hsz].
  { split; [done|]. by rewrite Hlost. }
  fold r in Hts, Hsz. split; [done|].
  split; intros Hl; rewrite Hl in Hsz; done.
Qed.

(** The cells [0 .. k-1] are occupied, the others free, and the cursor
    is at the last occupied cell. *)
Definition filled_to (k : nat) s : Prop :=
  (∀ i, (i < length (tileAllocMap s))%nat →
     tileAllocMap s !! i = Some (if (i <? k)%nat then 1 else 0)) ∧
  freePointer s = pred k.

Lemma filled_to_next k s t :
  atlas_wf s → textureLost s = false → usageMap s !! t = None →
  filled_to k s → (k < length (tileAllocMap s))%nat →
  allocationFor s t = (allocated s t k, tileCoords s k).
Proof.
  intros Hwf Hlost Hnone [Hcells Hfp] Hk.
  set (L := length (tileAllocMap s)) in *.
  destruct (allocationFor_fresh s t Hwf Hlost Hnone)
    as [(j & Hj & Hfree & Hbefore & Heq) | [Hall _]].
  - fold L in Hj, Hfree, Hbefore, Heq.
    assert (Hi : ((freePointer s + j) `mod` L < L)%nat) by (apply Nat.mod_upper_bound; lia).
    assert (Hge : (k ≤ (freePointer s + j) `mod` L)%nat).
    { rewrite Hcells in Hfree by done.
      destruct (Nat.ltb_spec ((freePointer s + j) `mod` L) k); [done|lia]. }
    assert (Hocc : ∀ k', (k' < j)%nat → ((freePointer s + k') `mod` L < k)%nat).
    { intros k' Hk'. specialize (Hbefore k' Hk').
      rewrite Hcells in Hbefore by (apply Nat.mod_upper_bound; lia).
      destruct (Nat.ltb_spec ((freePointer s + k') `mod` L) k); [done|discriminate]. }
    assert ((freePointer s + j) `mod` L = k)%nat as Hik; [|by rewrite Hik in Heq].
    rewrite Hfp in *. destruct k as [|k]; cbn [pred] in *.
    + destruct j as [|j]; [by rewrite Nat.mod_small by lia|].
      specialize (Hocc 0%nat ltac:(lia)). lia.
    + destruct j as [|[|j]].
      * rewrite Nat.add_0_r, Nat.mod_small in Hge by lia. lia.
      * replace (k + 1)%nat with (S k) by lia. apply Nat.mod_small. lia.
      * specialize (Hocc 1%nat ltac:(lia)).
        replace (k + 1)%nat with (S k) in Hocc by lia.
        rewrite Nat.mod_small in Hocc by lia. lia.
  - specialize (Hall k Hk). rewrite Hcells, Nat.ltb_irrefl in Hall by done. done.
Qed.

Lemma filled_to_allocated k s t :
  filled_to k s → (k < length (tileAllocMap s))%nat → filled_to (S k) (allocated s t k).
Proof.
  intros [Hcells Hfp] Hk. split; [|done].
  cbn [tileAllocMap allocated set_usageMap set_tileAllocMap set_freePointer].
  intros i Hi. rewrite length_insert in Hi.
  destruct (decide (i = k)) as [->|Hne].
  - rewrite list_lookup_insert_eq by done.
    by rewrite (proj2 (Nat.ltb_lt k (S k))) by lia.
  - rewrite list_lookup_insert_ne, Hcells by done.
    destruct (Nat.ltb_spec i k), (Nat.ltb_spec i (S k)); try done; lia.
Qed.

Lemma fill_in_order s0 (tokens : list string) :
  atlas_wf s0 → textureLost s0 = false → usageMap s0 = ∅ → filled_to 0 s0 →
  NoDup tokens → (length tokens ≤ length (tileAllocMap s0))%nat →
  let s' := foldl (λ s t, fst (allocationFor s t)) s0 tokens in
  atlas_wf s' ∧ textureLost s' = false ∧ textureSize s' = textureSize s0 ∧
  length (tileAllocMap s') = length (tileAllocMap s0) ∧
  filled_to (length tokens) s' ∧
  (∀ i t, tokens !! i = Some t → usageMap s' !! t = Some i) ∧
  (∀ t, t ∉ tokens → usageMap s' !! t = None).
Proof.
  intros Hwf0 Hlost0 Hmap0 Hfill0.
  induction tokens as [|t tokens IH] using rev_ind; intros Hnd Hlen; cbv zeta.
  - cbn [foldl length].
    split; [done|split; [done|split; [done|split; [done|split; [done|split]]]]].
    + intros i t Hi. by rewrite lookup_nil in Hi.
    + intros t _. by rewrite Hmap0, lookup_empty.
  - rewrite length_app in Hlen. cbn [length] in Hlen.
    apply NoDup_app in Hnd as (Hnd & Hdisj & _).
    destruct (IH Hnd ltac:(lia)) as (Hwf & Hlost & Hsz & HL & Hfill & Hin & Hout).
    rewrite foldl_app. cbn [foldl].
    set (s := foldl (λ s t, fst (allocationFor s t)) s0 tokens) in *.
    assert (Ht : t ∉ tokens).
    { intros Ht. apply (Hdisj t Ht). by left. }
    pose proof (filled_to_next (length tokens) s t Hwf Hlost (Hout t Ht) Hfill
                  ltac:(lia)) as Hal.
    pose proof (allocationFor_wf s t Hwf) as Hwf'.
    rewrite Hal in Hwf' |- *. cbn [fst] in Hwf' |- *.
    split; [done|split; [done|split; [done|split; [|split; [|split]]]]].
    + cbn [tileAllocMap allocated set_usageMap set_tileAllocMap]. by rewrite length_insert.
    + rewrite length_app. cbn [length]. rewrite Nat.add_1_r.
      apply filled_to_allocated; [done|lia].
    + intros i t' Hi. cbn [usageMap allocated set_usageMap].
      apply lookup_app_Some in Hi as [Hi | [Hge Hi]].
      * rewrite lookup_insert_ne; [by apply Hin|].
        intros <-. apply Ht. by eapply list_elem_of_lookup_2.
      * apply list_lookup_singleton_Some in Hi as [Hi <-].
        rewrite lookup_insert_eq. f_equal. lia.
    + intros t' Ht'. cbn [usageMap allocated set_usageMap].
      apply not_elem_of_app in Ht' as [Ht1 Ht2].
      rewrite lookup_insert_ne; [by apply Hout|].
      intros <-. apply Ht2. by left.
Qed.

(** X23: a new atlas, once acknowledged, gives the plain tokens it is
    asked for the cells 0, 1, 2, ... in the order of the requests,
    without enlarging the texture, as long as they are no more than the
    [tileCountSqrt * tileCountSqrt] cells of the grid; when all the
    cells are taken, the next new plain token enlarges the texture. *)
Theorem fresh_atlas_fills_in_order (ts : Z) (tokens : list string) :
  1 ≤ ts ≤ 254 → NoDup tokens → Forall plain_token tokens →
  let s0 := set_textureLost (new_Texgen ts) false in
  (length tokens ≤ length (tileAllocMap s0))%nat →
  let s' := foldl (λ s t, fst (allocationFor s t)) s0 tokens in
  length (tileAllocMap s0) = Z.to_nat ((256 / (ts + 2)) * (256 / (ts + 2))) ∧
  textureLost s' = false ∧ textureSize s' = 256 ∧
  (∀ i t, tokens !! i = Some t → usageMap s' !! t = Some i) ∧
  (∀ t, t ∉ tokens → usageMap s' !! t = None) ∧
  (length tokens = length (tileAllocMap s0) →
   ∀ t, plain_token t → t ∉ tokens →
     textureLost (fst (allocationFor s' t)) = true ∧
     textureSize (fst (allocationFor s' t)) = 512).
Proof.
  intros Hts Hnd _ s0 Hlen s'.
  assert (Hwf0 : atlas_wf s0).
  { apply (reachable_wf ts); [done|]. apply reach_acknowledge, reach_new. }
  assert (Hfill0 : filled_to 0 s0).
  { split; [|done]. intros i Hi. cbn [Nat.ltb Nat.leb].
    cbn [tileAllocMap s0 set_textureLost new_Texgen enlargeTexture] in *.
    rewrite length_replicate in Hi. by apply lookup_replicate_2. }
  destruct (fill_in_order s0 tokens Hwf0 eq_refl eq_refl Hfill0 Hnd Hlen)
    as (Hwf & Hlost & Hsz & HL & Hfill & Hin & Hout).
  fold s' in Hwf, Hlost, Hsz, HL, Hfill, Hin, Hout.
  split; [|split; [done|split; [done|split; [done|split; [done|]]]]].
  { cbn [tileAllocMap s0 set_textureLost new_Texgen enlargeTexture]. unfold borderTileSize.
    cbn [tileSize textureSize Texgen_init]. by rewrite length_replicate. }
  intros Hfull t _ Ht.
  destruct (allocationFor_fresh s' t Hwf Hlost (Hout t Ht))
    as [(j & Hj & Hfree & _) | [_ ->]].
  - destruct Hfill as [Hcells _].
    rewrite Hcells in Hfree by (apply Nat.mod_upper_bound; lia).
    rewrite (proj2 (Nat.ltb_lt _ _)) in Hfree; [done|].
    rewrite Hfull, <- HL. apply Nat.mod_upper_bound. lia.
  - cbn [fst textureLost textureSize enlargeTexture]. split; [done|]. rewrite Hsz. done.
Qed.

End Growth.

Lemma rebuildOne_grows_once_witness :
  let r := rebuildOne atlas_single_cell_full 2 red in
  tileSize r.1 = tileSize atlas_single_cell_full ∧
  (textureLost r.1 = false → textureSize r.1 = textureSize atlas_single_cell_full) ∧
  (textureLost r.1 = true →
     textureSize r.1 = 2 * textureSize atlas_single_cell_full ∧
     tileCountSqrt r.1 = textureSize r.1 / (tileSize atlas_single_cell_full + 2) ∧
     tileAllocMap r.1 = replicate (Z.to_nat (tileCountSqrt r.1 * tileCountSqrt r.1)) 0 ∧
     freePointer r.1 = 0%nat ∧
     usageMap r.1 = ∅).
Proof. apply (rebuildOne_grows_once atlas_single_cell_full 2 red). reflexivity. Defined.

Lemma fresh_atlas_fills_in_order_witness :
  let tokens := ["a"; "b"; "c"; "d"] in
  let s0 := set_textureLost (new_Texgen 126) false in
  let s' := foldl (λ s t, fst (allocationFor s t)) s0 tokens in
  length (tileAllocMap s0) = Z.to_nat ((256 / (126 + 2)) * (256 / (126 + 2))) ∧
  textureLost s' = false ∧ textureSize s' = 256 ∧
  (∀ i t, tokens !! i = Some t → usageMap s' !! t = Some i) ∧
  (∀ t, t ∉ tokens → usageMap s' !! t = None) ∧
  (length tokens = length (tileAllocMap s0) →
   ∀ t, plain_token t → t ∉ tokens →
     textureLost (fst (allocationFor s' t)) = true ∧
     textureSize (fst (allocationFor s' t)) = 512).
Proof.
  apply (fresh_atlas_fills_in_order 126 ["a"; "b"; "c"; "d"]).
  - lia.
  - compute_done.
  - unfold plain_token, Object_prototype_names. compute_done.
  - vm_compute. lia.
Defined.
